(** * Heap tuple codec of OpenTenBase: src/backend/access/common/heaptuple.c

    A shallow embedding of the routines that build, decode, copy, modify and
    expand heap tuples, and the properties of the row codec stated over it.

    Conventions of the embedding.
    - The file is read with the product's feature macros defined (_MLS_,
      PGXC, XCP, _SHARDING_, _MIGRATE_, __OPENTENBASE__): fill_val,
      getmissingattr and expand_tuple only exist under _MLS_, and the loop of
      heap_fill_tuple is empty without it.
    - Integers of the C code are [Z]; array indices and loop counters that
      the code keeps non-negative are [nat].
    - Memory is a list of bytes ([list Z], one entry per byte).  A pointer
      into a block is the offset from the start of the block; a pointer
      handed around as a Datum is the memory found at it, from the address
      on ([DatumPtr]), so equality of two such Datums is equality of bytes,
      not of addresses.
    - A tuple header block (HeapTupleHeader) is a record of the fixed header
      fields and the bytes of the whole block [t_bytes]; offsets into the
      block count from the start of the header, the null bitmap t_bits
      starts at [t_bits_off] = offsetof(HeapTupleHeaderData, t_bits).  The
      first [t_bits_off] bytes of [t_bytes] stand for the fixed header and
      are not used: the fields live in the record.
    - Blocks come from palloc, which returns MAXALIGNed addresses, so
      aligning an address inside a block is aligning its offset.
    - The attribute offset cache (attcacheoff) lives in the descriptor and
      is shared by all rows decoded with it: decoding functions take the
      descriptor and return it updated. *)

From Stdlib Require Import ZArith Lia Ascii String.
From stdpp Require Import base tactics option list.

Local Open Scope Z_scope.

(** ** Errors raised through ereport/elog(ERROR) *)

Inductive error : Type :=
| ERRCODE_TOO_MANY_COLUMNS
| ERRCODE_DATA_CORRUPTED
| elog_ERROR (msg : string) (arg : Z).

Inductive result (A : Type) : Type :=
| OK (a : A)
| Err (e : error).
Arguments OK {A} a.
Arguments Err {A} e.

Definition bind {A B : Type} (r : result A) (k : A -> result B) : result B :=
  match r with
  | OK a => k a
  | Err e => Err e
  end.

Notation "'do' x <- r ; k" := (bind r (fun x => k))
  (at level 10, x pattern, r at level 100, k at level 200).

(** ** Memory *)

(** The memory at address [p] of a block, from [p] on. *)
Definition mem_at (m : list Z) (p : Z) : list Z := drop (Z.to_nat p) m.

(** The first byte of a piece of memory. *)
Definition byte0 (p : list Z) : Z := default 0 (p !! 0%nat).

(** Reading one byte; memory outside a block reads as 0. *)
Definition peek (m : list Z) (p : Z) : Z := default 0 (m !! Z.to_nat p).

Definition poke (m : list Z) (p : Z) (b : Z) : list Z := <[Z.to_nat p := b]> m.

(** [memcpy(m + dst, src, n)]. *)
Definition memcpy (m : list Z) (dst : Z) (src : list Z) (n : Z) : list Z :=
  let bytes := take (Z.to_nat n) src in
  take (Z.to_nat dst) m ++ bytes ++ drop (Z.to_nat dst + length bytes) m.

(** [memset(m + dst, c, n)]. *)
Definition memset (m : list Z) (dst : Z) (c : Z) (n : Z) : list Z :=
  memcpy m dst (replicate (Z.to_nat n) c) n.

(** [palloc0(n)]. *)
Definition palloc0 (n : Z) : list Z := replicate (Z.to_nat n) 0.

Fixpoint strlen (s : list Z) : Z :=
  match s with
  | [] => 0
  | c :: s' => if c =? 0 then 0 else 1 + strlen s'
  end.

(** Big-endian integers in memory. *)
Fixpoint encode_be (n : nat) (v : Z) : list Z :=
  match n with
  | O => []
  | S n' => encode_be n' (v / 256) ++ [v mod 256]
  end.

Definition decode_be (l : list Z) : Z :=
  fold_left (fun acc b => acc * 256 + b) l 0.

(** The signed reading of an unsigned [8 * n]-bit integer. *)
Definition to_signed (n : nat) (u : Z) : Z :=
  if u <? 2 ^ (8 * Z.of_nat n - 1) then u else u - 2 ^ (8 * Z.of_nat n).

(** ** Datums *)

Inductive Datum : Type :=
| DatumVal (v : Z)
| DatumPtr (m : list Z).

Global Instance Datum_inhabited : Inhabited Datum := populate (DatumVal 0).

Definition DatumGetPointer (d : Datum) : list Z :=
  match d with
  | DatumPtr m => m
  | DatumVal _ => []
  end.

Definition DatumGetValue (d : Datum) : Z :=
  match d with
  | DatumVal v => v
  | DatumPtr _ => 0
  end.

(** ** Alignment (c.h, access/tupmacs.h) *)

(** Modelled from the spec: "align(offset, alignment_class) rounds offset up
    to the boundary required by the class (no-op, 2-byte, 4-byte, or
    8-byte)" (section 4.1).  TYPEALIGN and the four alignment macros are
    declared in c.h, the att_align macros in access/tupmacs.h; neither
    header is part of src/.  TYPEALIGN is written as in c.h, with the mask. *)
Definition TYPEALIGN (ALIGNVAL LEN : Z) : Z :=
  Z.land (LEN + (ALIGNVAL - 1)) (Z.lnot (ALIGNVAL - 1)).

Definition SHORTALIGN : Z -> Z := TYPEALIGN 2.
Definition INTALIGN : Z -> Z := TYPEALIGN 4.
Definition DOUBLEALIGN : Z -> Z := TYPEALIGN 8.
Definition MAXALIGN : Z -> Z := TYPEALIGN 8.

(** Modelled from the spec: the alignment classes byte/short/int/double of a
    column descriptor (section 3); att_align_nominal of access/tupmacs.h
    dispatches on the attalign character 'c', 's', 'i', 'd'. *)
Definition att_align_nominal (cur_offset : Z) (attalign : ascii) : Z :=
  if (attalign =? "i")%char then INTALIGN cur_offset
  else if (attalign =? "c")%char then cur_offset
  else if (attalign =? "d")%char then DOUBLEALIGN cur_offset
  else SHORTALIGN cur_offset.

(** Modelled from the spec: "Null bitmap: ceil(natts/8) bytes" (section 6);
    BITMAPLEN is declared in access/htup_details.h. *)
Definition BITMAPLEN (NATTS : Z) : Z := (NATTS + 7) / 8.

(** Modelled from the spec: "bit i of the bitmap" (section 8), read as by
    att_isnull of access/tupmacs.h:
    [!(BITS[ATT >> 3] & (1 << (ATT & 0x07)))].  [bits] is the memory at the
    bitmap. *)
Definition att_isnull (ATT : Z) (bits : list Z) : bool :=
  Z.land (peek bits (Z.shiftr ATT 3)) (Z.shiftl 1 (Z.land ATT 7)) =? 0.

Definition HIGHBIT : Z := 128.

(** ** Variable-length values (postgres.h) *)

(** Modelled from the spec: the three physical encodings of a
    variable-length value of section 4.2 and the header formats of section
    6: "1-byte (high bit 1 ...) vs 4-byte (top bits distinguish
    plain-inline vs compressed, low bits or full field = length)".  The
    macros are those of postgres.h (not part of src/) for the layout the
    spec describes, in which the discriminating bits are the high bits of
    the first byte; an external reference is the 1-byte header whose length
    bits are all zero, followed by a tag byte. *)
Definition VARHDRSZ : Z := 4.
Definition VARHDRSZ_SHORT : Z := 1.
Definition VARHDRSZ_EXTERNAL : Z := 2.
Definition VARATT_SHORT_MAX : Z := 127.

Definition VARATT_IS_4B (PTR : list Z) : bool := Z.land (byte0 PTR) 128 =? 0.
Definition VARATT_IS_4B_U (PTR : list Z) : bool := Z.land (byte0 PTR) 192 =? 0.
Definition VARATT_IS_4B_C (PTR : list Z) : bool := Z.land (byte0 PTR) 192 =? 64.
Definition VARATT_IS_1B (PTR : list Z) : bool := Z.land (byte0 PTR) 128 =? 128.
Definition VARATT_IS_1B_E (PTR : list Z) : bool := byte0 PTR =? 128.
Definition VARATT_NOT_PAD_BYTE (PTR : list Z) : bool := negb (byte0 PTR =? 0).

Definition VARSIZE_4B (PTR : list Z) : Z :=
  Z.land (decode_be (take 4 PTR)) 1073741823.  (* 0x3FFFFFFF *)
Definition VARSIZE_1B (PTR : list Z) : Z := Z.land (byte0 PTR) 127.
Definition VARTAG_1B_E (PTR : list Z) : Z := peek PTR 1.

Definition VARTAG_INDIRECT : Z := 1.
Definition VARTAG_EXPANDED_RO : Z := 2.
Definition VARTAG_EXPANDED_RW : Z := 3.
Definition VARTAG_ONDISK : Z := 18.

Definition VARTAG_IS_EXPANDED (tag : Z) : bool :=
  Z.land tag (Z.lnot 1) =? VARTAG_EXPANDED_RO.

(** sizeof(varatt_indirect) and sizeof(varatt_expanded) are one pointer,
    sizeof(varatt_external) is 16; an unknown tag (a TrapMacro in
    postgres.h) is given size 0. *)
Definition VARTAG_SIZE (tag : Z) : Z :=
  if tag =? VARTAG_INDIRECT then 8
  else if VARTAG_IS_EXPANDED tag then 8
  else if tag =? VARTAG_ONDISK then 16
  else 0.

Definition VARSIZE (PTR : list Z) : Z := VARSIZE_4B PTR.
Definition VARSIZE_SHORT (PTR : list Z) : Z := VARSIZE_1B PTR.
Definition VARTAG_EXTERNAL (PTR : list Z) : Z := VARTAG_1B_E PTR.
Definition VARSIZE_EXTERNAL (PTR : list Z) : Z :=
  VARHDRSZ_EXTERNAL + VARTAG_SIZE (VARTAG_EXTERNAL PTR).
Definition VARDATA (PTR : list Z) : list Z := mem_at PTR VARHDRSZ.

Definition VARATT_IS_EXTERNAL (PTR : list Z) : bool := VARATT_IS_1B_E PTR.
Definition VARATT_IS_EXTERNAL_EXPANDED (PTR : list Z) : bool :=
  VARATT_IS_EXTERNAL PTR && VARTAG_IS_EXPANDED (VARTAG_EXTERNAL PTR).
Definition VARATT_IS_SHORT (PTR : list Z) : bool := VARATT_IS_1B PTR.

Definition VARSIZE_ANY (PTR : list Z) : Z :=
  if VARATT_IS_1B_E PTR then VARSIZE_EXTERNAL PTR
  else if VARATT_IS_1B PTR then VARSIZE_1B PTR
  else VARSIZE_4B PTR.

Definition VARATT_CONVERTED_SHORT_SIZE (PTR : list Z) : Z :=
  VARSIZE PTR - VARHDRSZ + VARHDRSZ_SHORT.

Definition VARATT_CAN_MAKE_SHORT (PTR : list Z) : bool :=
  VARATT_IS_4B_U PTR && (VARATT_CONVERTED_SHORT_SIZE PTR <=? VARATT_SHORT_MAX).

(** [SET_VARSIZE_SHORT(m + p, len)]: the header byte is the length with the
    high bit set. *)
Definition SET_VARSIZE_SHORT (m : list Z) (p : Z) (len : Z) : list Z :=
  poke m p (Z.lor len 128 mod 256).

(** Modelled from the spec: "value_length(length_class, value)" of section
    4.1: the fixed length, strlen(value)+1, or the physical size of the
    variable-length encoding (att_addlength_pointer of access/tupmacs.h). *)
Definition att_addlength_pointer (cur_offset : Z) (attlen : Z) (attptr : list Z) : Z :=
  if 0 <? attlen then cur_offset + attlen
  else if attlen =? -1 then cur_offset + VARSIZE_ANY attptr
  else cur_offset + (strlen attptr + 1).

Definition att_addlength_datum (cur_offset : Z) (attlen : Z) (attdatum : Datum) : Z :=
  att_addlength_pointer cur_offset attlen (DatumGetPointer attdatum).

(** Modelled from the spec: the read-side disambiguation of section 4.2 ("if
    it is zero, that position is padding and the real value starts at the
    next alignment boundary"): att_align_pointer of access/tupmacs.h. *)
Definition att_align_pointer (cur_offset : Z) (attalign : ascii) (attlen : Z)
    (attptr : list Z) : Z :=
  if (attlen =? -1) && VARATT_NOT_PAD_BYTE attptr then cur_offset
  else att_align_nominal cur_offset attalign.

Definition att_align_datum (cur_offset : Z) (attalign : ascii) (attlen : Z)
    (attdatum : Datum) : Z :=
  if (attlen =? -1) && VARATT_IS_SHORT (DatumGetPointer attdatum) then cur_offset
  else att_align_nominal cur_offset attalign.

(** Modelled from the spec: "the pass-by-value path (align, store scalar
    into the slot)" (section 4.3).  store_att_byval and fetch_att are
    declared in access/tupmacs.h: the scalar is stored in [attlen] bytes and
    read back as the signed integer of that width (lengths 8, 4, 2, and any
    other read as one byte). *)
Definition store_att_byval (m : list Z) (T : Z) (newdatum : Datum) (attlen : Z) : list Z :=
  memcpy m T (encode_be (Z.to_nat attlen) (DatumGetValue newdatum)) attlen.

Definition fetch_att (T : list Z) (attbyval : bool) (attlen : Z) : Datum :=
  if attbyval then
    if attlen =? 8 then DatumVal (to_signed 8 (decode_be (take 8 T)))
    else if attlen =? 4 then DatumVal (to_signed 4 (decode_be (take 4 T)))
    else if attlen =? 2 then DatumVal (to_signed 2 (decode_be (take 2 T)))
    else DatumVal (to_signed 1 (decode_be (take 1 T)))
  else DatumPtr T.

(** ** Descriptors (catalog/pg_attribute.h, access/tupdesc.h) *)

Record FormData_pg_attribute : Type := mk_att {
  atttypid : Z;
  attlen : Z;
  attcacheoff : Z;
  attbyval : bool;
  attstorage : ascii;
  attalign : ascii;
  atthasmissing : bool;
  attisdropped : bool
}.

Global Instance att_inhabited : Inhabited FormData_pg_attribute :=
  populate (mk_att 0 0 (-1) false "p"%char "c"%char false false).

(** [att->attcacheoff = off]. *)
Definition set_attcacheoff (off : Z) (a : FormData_pg_attribute) : FormData_pg_attribute :=
  mk_att (atttypid a) (attlen a) off (attbyval a) (attstorage a) (attalign a)
         (atthasmissing a) (attisdropped a).

Record AttrMissing : Type := mk_missing {
  ammissingPresent : bool;
  ammissing : Datum
}.

Global Instance AttrMissing_inhabited : Inhabited AttrMissing :=
  populate (mk_missing false (DatumVal 0)).

(** [constr->missing] is a pointer to an array, NULL when the descriptor has
    no missing values. *)
Record TupleConstr : Type := mk_constr {
  missing : option (list AttrMissing)
}.

(** TRANSP_CRYPT_ATTRS_EXT_IS_ENABLED(tupleDesc) is a macro of
    utils/relcrypt.h (not part of src/) over the descriptor; it is kept as
    the flag [transp_crypt_attrs_ext] of the descriptor. *)
Record TupleDesc : Type := mk_tupdesc {
  natts : Z;
  attrs : list FormData_pg_attribute;
  attrs_ext : list FormData_pg_attribute;
  transp_crypt_attrs_ext : bool;
  constr : option TupleConstr;
  tdtypeid : Z;
  tdtypmod : Z;
  tdhasoid : bool
}.

(** The array a routine works on after
    [if (TRANSP_CRYPT_ATTRS_EXT_IS_ENABLED(tupleDesc)) att = tupleDesc->attrs_ext]. *)
Definition desc_att (tupleDesc : TupleDesc) : list FormData_pg_attribute :=
  if transp_crypt_attrs_ext tupleDesc then attrs_ext tupleDesc else attrs tupleDesc.

(** Writing that array back (the attributes are shared with the descriptor). *)
Definition set_desc_att (td : TupleDesc) (att : list FormData_pg_attribute) : TupleDesc :=
  if transp_crypt_attrs_ext td
  then mk_tupdesc (natts td) (attrs td) att (transp_crypt_attrs_ext td) (constr td)
                  (tdtypeid td) (tdtypmod td) (tdhasoid td)
  else mk_tupdesc (natts td) att (attrs_ext td) (transp_crypt_attrs_ext td) (constr td)
                  (tdtypeid td) (tdtypmod td) (tdhasoid td).

Definition TupleDescAttr (td : TupleDesc) (i : Z) : FormData_pg_attribute :=
  attrs td !!! Z.to_nat i.

(** Does att's datatype allow packing into the 1-byte-header varlena format? *)
Definition ATT_IS_PACKABLE (att : FormData_pg_attribute) : bool :=
  (attlen att =? -1) && negb (attstorage att =? "p")%char.

(** Use this if it's already known varlena *)
Definition VARLENA_ATT_IS_PACKABLE (att : FormData_pg_attribute) : bool :=
  negb (attstorage att =? "p")%char.

Definition fetchatt (A : FormData_pg_attribute) (T : list Z) : Datum :=
  fetch_att T (attbyval A) (attlen A).

(** ** Tuples (access/htup.h, access/htup_details.h) *)

(** Modelled from the spec: the summary flags "has variable width", "has
    null", "has external reference" of the row header (section 4.3) and the
    "packed natts+flags field" (section 6).  The masks are those of
    access/htup_details.h, which is not part of src/. *)
Definition HEAP_HASNULL : Z := 1.
Definition HEAP_HASVARWIDTH : Z := 2.
Definition HEAP_HASEXTERNAL : Z := 4.
Definition HEAP_HASOID : Z := 8.
Definition HEAP_NATTS_MASK : Z := 2047.
Definition MaxTupleAttributeNumber : Z := 1664.
Definition sizeof_Oid : Z := 4.
Definition InvalidOid : Z := 0.
Definition InvalidAttrNumber : Z := 0.

Record ItemPointerData : Type := mk_itemptr {
  ip_blkid : Z;
  ip_posid : Z
}.

Definition ItemPointerSetInvalid : ItemPointerData := mk_itemptr 4294967295 0.

(** The fixed fields of HeapTupleHeaderData and the bytes of the block.  The
    union t_choice is kept under the names of t_datum; t_heap's t_xmin,
    t_xmax and t_field3 occupy the same storage. *)
Record HeapTupleHeaderData : Type := mk_header {
  datum_len_ : Z;
  datum_typmod : Z;
  datum_typeid : Z;
  t_ctid : ItemPointerData;
  t_shardid : Z;
  t_xmin_timestamp : Z;
  t_xmax_timestamp : Z;
  t_infomask2 : Z;
  t_infomask : Z;
  t_hoff : Z;
  t_bytes : list Z
}.

Record HeapTupleData : Type := mk_tuple {
  t_len : Z;
  t_self : ItemPointerData;
  t_tableOid : Z;
  t_xc_node_id : Z;
  t_data : option HeapTupleHeaderData
}.

(** A HeapTuple is a pointer to HeapTupleData; [None] is NULL. *)
Definition HeapTuple : Type := option HeapTupleData.

Definition null_header : HeapTupleHeaderData :=
  mk_header 0 0 0 (mk_itemptr 0 0) 0 0 0 0 0 0 [].

(** [tuple->t_data], for the routines that require it to be set. *)
Definition tup_of (tuple : HeapTupleData) : HeapTupleHeaderData :=
  default null_header (t_data tuple).

Definition set_t_bytes (b : list Z) (h : HeapTupleHeaderData) : HeapTupleHeaderData :=
  mk_header (datum_len_ h) (datum_typmod h) (datum_typeid h) (t_ctid h) (t_shardid h)
            (t_xmin_timestamp h) (t_xmax_timestamp h) (t_infomask2 h) (t_infomask h)
            (t_hoff h) b.

Definition set_t_ctid (c : ItemPointerData) (h : HeapTupleHeaderData) : HeapTupleHeaderData :=
  mk_header (datum_len_ h) (datum_typmod h) (datum_typeid h) c (t_shardid h)
            (t_xmin_timestamp h) (t_xmax_timestamp h) (t_infomask2 h) (t_infomask h)
            (t_hoff h) (t_bytes h).

Definition HeapTupleHeaderSetShardId (s : Z) (h : HeapTupleHeaderData) : HeapTupleHeaderData :=
  mk_header (datum_len_ h) (datum_typmod h) (datum_typeid h) (t_ctid h) s
            (t_xmin_timestamp h) (t_xmax_timestamp h) (t_infomask2 h) (t_infomask h)
            (t_hoff h) (t_bytes h).

Definition HeapTupleHeaderGetNatts (tup : HeapTupleHeaderData) : Z :=
  Z.land (t_infomask2 tup) HEAP_NATTS_MASK.

Definition HeapTupleHasNulls (tuple : HeapTupleData) : bool :=
  negb (Z.land (t_infomask (tup_of tuple)) HEAP_HASNULL =? 0).
Definition HeapTupleNoNulls (tuple : HeapTupleData) : bool :=
  negb (HeapTupleHasNulls tuple).
Definition HeapTupleHasVarWidth (tuple : HeapTupleData) : bool :=
  negb (Z.land (t_infomask (tup_of tuple)) HEAP_HASVARWIDTH =? 0).
Definition HeapTupleHasExternal (tuple : HeapTupleData) : bool :=
  negb (Z.land (t_infomask (tup_of tuple)) HEAP_HASEXTERNAL =? 0).

(** The object id sits in the four bytes before the data area. *)
Definition HeapTupleHeaderGetOid (tup : HeapTupleHeaderData) : Z :=
  if negb (Z.land (t_infomask tup) HEAP_HASOID =? 0)
  then decode_be (take 4 (mem_at (t_bytes tup) (t_hoff tup - sizeof_Oid)))
  else InvalidOid.

Definition HeapTupleHeaderSetOid (oid : Z) (tup : HeapTupleHeaderData) : HeapTupleHeaderData :=
  set_t_bytes (memcpy (t_bytes tup) (t_hoff tup - sizeof_Oid) (encode_be 4 oid) 4) tup.

Definition HeapTupleGetOid (tuple : HeapTupleData) : Z :=
  HeapTupleHeaderGetOid (tup_of tuple).

Definition HeapTupleSetOid (oid : Z) (tuple : HeapTupleData) : HeapTupleData :=
  mk_tuple (t_len tuple) (t_self tuple) (t_tableOid tuple) (t_xc_node_id tuple)
           (HeapTupleHeaderSetOid oid <$> t_data tuple).

Inductive SetShardFlag : Type :=
| SetFlag_NoShard
| SetFlag_PlainShard
| SetFlag_ToastShard.

Section HeapTuple.

(** [offsetof(HeapTupleHeaderData, t_bits)]: the size of the fixed header.
    The struct is declared in access/htup_details.h, which is not part of
    src/, so the offset is a parameter.  The header of that file requires
    that the header of a tuple with MaxTupleAttributeNumber columns still
    fits t_hoff, which is a uint8. *)
Variable t_bits_off : Z.
Hypothesis t_bits_off_nonneg : 0 <= t_bits_off.
Hypothesis t_hoff_fits :
  MAXALIGN (t_bits_off + BITMAPLEN MaxTupleAttributeNumber + sizeof_Oid) <= 255.

(** Modelled from the spec: the collaborator interface
    "flatten(expanded_ref) -> bytes" of section 6.  utils/expandeddatum.h is
    not part of src/; [EOH_flat p] is the flat image of the expanded object
    that the TOAST pointer stored at [p] designates, EOH_get_flat_size is
    its length and EOH_flatten_into copies it. *)
Variable EOH_flat : list Z -> list Z.

Definition DatumGetEOHP (d : Datum) : list Z := DatumGetPointer d.
Definition EOH_get_flat_size (eoh : list Z) : Z := Z.of_nat (length (EOH_flat eoh)).
Definition EOH_flatten_into (eoh : list Z) (m : list Z) (result : Z) (allocated_size : Z) : list Z :=
  memcpy m result (EOH_flat eoh) allocated_size.

(** EvaluateShardId and InvalidShardID come from pgxc/shardmap.h. *)
Variable EvaluateShardId : Z -> bool -> Datum -> Z -> bool -> Datum -> Z -> Z.
Variable InvalidShardID : Z.

(** ** fill_val *)

(** The cells [fill_val] updates through its pointer arguments: the bitmap
    cursor [*bit] (an offset into the block, [None] when it is NULL), the
    mask [*bitmask], the data cursor [*dataP], [*infomask], and the block
    both cursors point into. *)
Record fill_state : Type := mk_fill {
  fs_bit : option Z;
  fs_bitmask : Z;
  fs_data : Z;
  fs_infomask : Z;
  fs_mem : list Z
}.

(** [**bit = b]; nothing is written through a NULL cursor. *)
Definition poke_bit (bit : option Z) (m : list Z) (f : Z -> Z) : list Z :=
  match bit with
  | Some p => poke m p (f (peek m p) mod 256)
  | None => m
  end.

(** Per-attribute helper for heap_fill_tuple and other routines building
    tuples.  [bit_given] is [bit != NULL]. *)
Definition fill_val (att : FormData_pg_attribute) (bit_given : bool)
    (st : fill_state) (datum : Datum) (isnull : bool) : fill_state :=
  let data := fs_data st in
  (* If we're building a null bitmap, set the appropriate bit *)
  let '(bit1, bitmask1, mem1) :=
    if bit_given then
      if negb (fs_bitmask st =? HIGHBIT)
      then (fs_bit st, Z.shiftl (fs_bitmask st) 1, fs_mem st)
      else let b := (fun p => p + 1) <$> fs_bit st in
           (b, 1, poke_bit b (fs_mem st) (fun _ => 0))
    else (fs_bit st, fs_bitmask st, fs_mem st) in
  if bit_given && isnull then
    mk_fill bit1 bitmask1 data (Z.lor (fs_infomask st) HEAP_HASNULL) mem1
  else
    let mem2 :=
      if bit_given then poke_bit bit1 mem1 (fun b => Z.lor b bitmask1) else mem1 in
    let infomask := fs_infomask st in
    let '(data3, data_length, infomask3, mem3) :=
      if attbyval att then
        (* pass-by-value *)
        let data := att_align_nominal data (attalign att) in
        (data, attlen att, infomask, store_att_byval mem2 data datum (attlen att))
      else if attlen att =? -1 then
        (* varlena *)
        let val := DatumGetPointer datum in
        let infomask := Z.lor infomask HEAP_HASVARWIDTH in
        if VARATT_IS_EXTERNAL val then
          if VARATT_IS_EXTERNAL_EXPANDED val then
            (* flatten the expanded value *)
            let eoh := DatumGetEOHP datum in
            let data := att_align_nominal data (attalign att) in
            let data_length := EOH_get_flat_size eoh in
            (data, data_length, infomask, EOH_flatten_into eoh mem2 data data_length)
          else
            let infomask := Z.lor infomask HEAP_HASEXTERNAL in
            (* no alignment, since it's short by definition *)
            let data_length := VARSIZE_EXTERNAL val in
            (data, data_length, infomask, memcpy mem2 data val data_length)
        else if VARATT_IS_SHORT val then
          (* no alignment for short varlenas *)
          let data_length := VARSIZE_SHORT val in
          (data, data_length, infomask, memcpy mem2 data val data_length)
        else if VARLENA_ATT_IS_PACKABLE att && VARATT_CAN_MAKE_SHORT val then
          (* convert to short varlena -- no alignment *)
          let data_length := VARATT_CONVERTED_SHORT_SIZE val in
          (data, data_length, infomask,
           memcpy (SET_VARSIZE_SHORT mem2 data data_length) (data + 1)
                  (VARDATA val) (data_length - 1))
        else
          (* full 4-byte header varlena *)
          let data := att_align_nominal data (attalign att) in
          let data_length := VARSIZE val in
          (data, data_length, infomask, memcpy mem2 data val data_length)
      else if attlen att =? -2 then
        (* cstring ... never needs alignment *)
        let infomask := Z.lor infomask HEAP_HASVARWIDTH in
        let data_length := strlen (DatumGetPointer datum) + 1 in
        (data, data_length, infomask, memcpy mem2 data (DatumGetPointer datum) data_length)
      else
        (* fixed-length pass-by-reference *)
        let data := att_align_nominal data (attalign att) in
        let data_length := attlen att in
        (data, data_length, infomask, memcpy mem2 data (DatumGetPointer datum) data_length) in
    mk_fill bit1 bitmask1 (data3 + data_length) infomask3 mem3.

(** ** heap_compute_data_size *)

Fixpoint heap_compute_data_size_loop (att : list FormData_pg_attribute)
    (values : list Datum) (isnull : list bool) (i : nat) (n : nat)
    (data_length : Z) : Z :=
  match n with
  | O => data_length
  | S n' =>
    let continue := heap_compute_data_size_loop att values isnull (S i) n' in
    if (isnull !!! i : bool) then continue data_length
    else
      let val := values !!! i in
      let atti := att !!! i in
      if ATT_IS_PACKABLE atti && VARATT_CAN_MAKE_SHORT (DatumGetPointer val) then
        (* anticipating the conversion to a short varlena header *)
        continue (data_length + VARATT_CONVERTED_SHORT_SIZE (DatumGetPointer val))
      else if (attlen atti =? -1) && VARATT_IS_EXTERNAL_EXPANDED (DatumGetPointer val) then
        (* the expanded value will be flattened *)
        continue (att_align_nominal data_length (attalign atti)
                  + EOH_get_flat_size (DatumGetEOHP val))
      else
        continue (att_addlength_datum
                    (att_align_datum data_length (attalign atti) (attlen atti) val)
                    (attlen atti) val)
  end.

(** Determine size of the data area of a tuple to be constructed. *)
Definition heap_compute_data_size (tupleDesc : TupleDesc) (values : list Datum)
    (isnull : list bool) : Z :=
  heap_compute_data_size_loop (desc_att tupleDesc) values isnull 0
    (Z.to_nat (natts tupleDesc)) 0.

(** ** heap_fill_tuple *)

Fixpoint heap_fill_tuple_loop (att : list FormData_pg_attribute)
    (values : option (list Datum)) (isnull : option (list bool))
    (i : nat) (n : nat) (st : fill_state) : fill_state :=
  match n with
  | O => st
  | S n' =>
    heap_fill_tuple_loop att values isnull (S i) n'
      (fill_val (att !!! i) (bool_decide (is_Some (fs_bit st))) st
                (match values with Some v => v !!! i | None => DatumVal 0 end)
                (match isnull with Some n => n !!! i | None => true end))
  end.

(** Load data portion of a tuple from values/isnull arrays.  [data] and
    [bit] are offsets into the block [m]; the block is returned with the
    recomputed infomask and the final position of the data cursor, which the
    C code only looks at in [Assert((data - start) == data_size)]. *)
Definition heap_fill_tuple (tupleDesc : TupleDesc) (values : option (list Datum))
    (isnull : option (list bool)) (data : Z) (data_size : Z) (infomask : Z)
    (bit : option Z) (m : list Z) : Z * list Z * Z :=
  let '(bitP, bitmask) :=
    match bit with
    | Some b => (Some (b - 1), HIGHBIT)
    | None => (None, 0)
    end in
  let infomask :=
    Z.land infomask (Z.lnot (Z.lor (Z.lor HEAP_HASNULL HEAP_HASVARWIDTH) HEAP_HASEXTERNAL)) in
  let st := heap_fill_tuple_loop (desc_att tupleDesc) values isnull 0
              (Z.to_nat (natts tupleDesc)) (mk_fill bitP bitmask data infomask m) in
  (fs_infomask st, fs_mem st, fs_data st).

(** ** heap_form_tuple *)

Fixpoint check_for_nulls (isnull : list bool) (i : nat) (n : nat) : bool :=
  match n with
  | O => false
  | S n' => if (isnull !!! i : bool) then true else check_for_nulls isnull (S i) n'
  end.

(** construct a tuple from the given values[] and isnull[] arrays, which
    are of the length indicated by tupleDescriptor->natts *)
Definition heap_form_tuple_shard (tupleDescriptor : TupleDesc) (values : list Datum)
    (isnull : list bool) (sflag : SetShardFlag) (diskey secdiskey : Z) (relid : Z)
    (sid : Z) : result HeapTupleData :=
  let numberOfAttributes := natts tupleDescriptor in
  if MaxTupleAttributeNumber <? numberOfAttributes then Err ERRCODE_TOO_MANY_COLUMNS
  else
    (* Check for nulls *)
    let hasnull := check_for_nulls isnull 0 (Z.to_nat numberOfAttributes) in
    (* Determine total space needed *)
    let len := t_bits_off in
    let len := if hasnull then len + BITMAPLEN numberOfAttributes else len in
    let len := if tdhasoid tupleDescriptor then len + sizeof_Oid else len in
    let hoff := MAXALIGN len in
    let data_len := heap_compute_data_size tupleDescriptor values isnull in
    let len := hoff + data_len in
    (* Allocate and zero the space needed *)
    let block := palloc0 len in
    let infomask := if tdhasoid tupleDescriptor then HEAP_HASOID else 0 in
    let '(infomask, block, _) :=
      heap_fill_tuple tupleDescriptor (Some values) (Some isnull) hoff data_len infomask
        (if hasnull then Some t_bits_off else None) block in
    let td :=
      mk_header (Z.land len 1073741823) (tdtypmod tupleDescriptor) (tdtypeid tupleDescriptor)
                ItemPointerSetInvalid 0 0 0
                (Z.lor (Z.land 0 (Z.lnot HEAP_NATTS_MASK)) numberOfAttributes)
                infomask (hoff mod 256) block in
    let ret (shard : Z) :=
      OK (mk_tuple len ItemPointerSetInvalid InvalidOid 0
                   (Some (HeapTupleHeaderSetShardId shard td))) in
    match sflag with
    | SetFlag_PlainShard =>
      if (diskey <? 1) || (natts tupleDescriptor <? diskey)
      then Err (elog_ERROR "AttrNum of distribute key is invalid" diskey)
      else if natts tupleDescriptor <? secdiskey
      then Err (elog_ERROR "AttrNum of second distribute key is invalid" secdiskey)
      else
        (* process sharding maping *)
        let typeOfDistCol := atttypid (attrs tupleDescriptor !!! Z.to_nat (diskey - 1)) in
        let value := values !!! Z.to_nat (diskey - 1) in
        let isdisnull := isnull !!! Z.to_nat (diskey - 1) in
        (* secondary distribute key *)
        let '(sectypeOfDistCol, secvalue, secisnull) :=
          if negb (secdiskey =? InvalidAttrNumber)
          then (atttypid (attrs tupleDescriptor !!! Z.to_nat (secdiskey - 1)),
                values !!! Z.to_nat (secdiskey - 1),
                isnull !!! Z.to_nat (secdiskey - 1))
          else (InvalidOid, DatumVal 0, true) in
        ret (EvaluateShardId typeOfDistCol isdisnull value
                             sectypeOfDistCol secisnull secvalue relid)
    | SetFlag_ToastShard => ret sid
    | SetFlag_NoShard => ret InvalidShardID
    end.

(** heap_form_tuple is not defined in this file; the definition kept in a
    comment above heap_form_tuple_shard is the one used. *)
Definition heap_form_tuple (tupleDescriptor : TupleDesc) (values : list Datum)
    (isnull : list bool) : result HeapTupleData :=
  heap_form_tuple_shard tupleDescriptor values isnull SetFlag_NoShard
    InvalidAttrNumber InvalidAttrNumber InvalidOid InvalidShardID.

(** ** heap_attisnull, heap_getsysattr *)

(** Modelled from the spec: the "system/metadata pseudo-columns (row
    identity, object id, creating/deleting transaction markers)" of section
    4.5.  Their attribute numbers are declared in access/sysattr.h, which is
    not part of src/. *)
Definition SelfItemPointerAttributeNumber : Z := -1.
Definition ObjectIdAttributeNumber : Z := -2.
Definition MinTransactionIdAttributeNumber : Z := -3.
Definition MinCommandIdAttributeNumber : Z := -4.
Definition MaxTransactionIdAttributeNumber : Z := -5.
Definition MaxCommandIdAttributeNumber : Z := -6.
Definition TableOidAttributeNumber : Z := -7.
Definition XC_NodeIdAttributeNumber : Z := -8.
Definition ShardIdAttributeNumber : Z := -9.
Definition XmaxGTSIdAttributeNumber : Z := -10.
Definition XminGTSAttributeNumber : Z := -11.

(** returns TRUE iff tuple attribute is not present *)
Definition heap_attisnull (tup : HeapTupleData) (attnum : Z) (tupleDesc : option TupleDesc)
    : result bool :=
  if HeapTupleHeaderGetNatts (tup_of tup) <? attnum then
    match tupleDesc with
    | Some td => if atthasmissing (TupleDescAttr td (attnum - 1)) then OK false else OK true
    | None => OK true
    end
  else if 0 <? attnum then
    if HeapTupleNoNulls tup then OK false
    else OK (att_isnull (attnum - 1) (mem_at (t_bytes (tup_of tup)) t_bits_off))
  else if (attnum =? TableOidAttributeNumber) || (attnum =? SelfItemPointerAttributeNumber)
       || (attnum =? ObjectIdAttributeNumber) || (attnum =? MinTransactionIdAttributeNumber)
       || (attnum =? MinCommandIdAttributeNumber) || (attnum =? MaxTransactionIdAttributeNumber)
       || (attnum =? MaxCommandIdAttributeNumber) || (attnum =? XC_NodeIdAttributeNumber)
  then OK false (* these are never null *)
  else Err (elog_ERROR "invalid attnum" attnum).

(** Fetch the value of a system attribute for a tuple.  The result is the
    Datum and [*isnull]. *)
Definition heap_getsysattr (tup : HeapTupleData) (attnum : Z) (tupleDesc : TupleDesc)
    : result (Datum * bool) :=
  let td := tup_of tup in
  (* Currently, no sys attribute ever reads as NULL. *)
  if attnum =? SelfItemPointerAttributeNumber then
    (* pass-by-reference datatype *)
    OK (DatumPtr (encode_be 4 (ip_blkid (t_self tup)) ++ encode_be 2 (ip_posid (t_self tup))),
        false)
  else if attnum =? ObjectIdAttributeNumber then OK (DatumVal (HeapTupleGetOid tup), false)
  else if attnum =? MinTransactionIdAttributeNumber then OK (DatumVal (datum_len_ td), false)
  else if attnum =? MaxTransactionIdAttributeNumber then OK (DatumVal (datum_typmod td), false)
  else if (attnum =? MinCommandIdAttributeNumber) || (attnum =? MaxCommandIdAttributeNumber)
  then OK (DatumVal (datum_typeid td), false)
  else if attnum =? TableOidAttributeNumber then OK (DatumVal (t_tableOid tup), false)
  else if attnum =? XC_NodeIdAttributeNumber then OK (DatumVal (t_xc_node_id tup), false)
  else if attnum =? ShardIdAttributeNumber then OK (DatumVal (t_shardid td), false)
  else if attnum =? XmaxGTSIdAttributeNumber then OK (DatumVal (t_xmax_timestamp td), false)
  else if attnum =? XminGTSAttributeNumber then OK (DatumVal (t_xmin_timestamp td), false)
  else Err (elog_ERROR "invalid attnum" attnum).

(** ** The deforming loop of heap_deform_tuple and slot_deform_tuple *)

(** The variables of the loop: the attribute array (for its attcacheoff
    fields), the output arrays, the offset in the tuple data, and [slow]. *)
Record deform_state : Type := mk_deform {
  ds_att : list FormData_pg_attribute;
  ds_values : list Datum;
  ds_isnull : list bool;
  ds_off : Z;
  ds_slow : bool
}.

(** One iteration, for attribute [attnum].  The two loops have the same
    body, statement for statement. *)
Definition deform_attr (tup : HeapTupleHeaderData) (hasnulls : bool) (attnum : nat)
    (st : deform_state) : deform_state :=
  let att := ds_att st in
  let thisatt := att !!! attnum in
  let bp := mem_at (t_bytes tup) t_bits_off in
  let tp := mem_at (t_bytes tup) (t_hoff tup) in
  let off := ds_off st in
  let slow := ds_slow st in
  if hasnulls && att_isnull (Z.of_nat attnum) bp then
    mk_deform att (<[attnum := DatumVal 0]> (ds_values st))
              (<[attnum := true]> (ds_isnull st)) off
              true (* can't use attcacheoff anymore *)
  else
    let isnull := <[attnum := false]> (ds_isnull st) in
    let '(off, att, slow) :=
      if negb slow && (0 <=? attcacheoff thisatt) then (attcacheoff thisatt, att, slow)
      else if attlen thisatt =? -1 then
        (* We can only cache the offset for a varlena attribute if the
           offset is already suitably aligned *)
        if negb slow && (off =? att_align_nominal off (attalign thisatt))
        then (off, alter (set_attcacheoff off) attnum att, slow)
        else (att_align_pointer off (attalign thisatt) (-1) (mem_at tp off), att, true)
      else
        (* not varlena, so safe to use att_align_nominal *)
        let off := att_align_nominal off (attalign thisatt) in
        (off, if negb slow then alter (set_attcacheoff off) attnum att else att, slow) in
    let values := <[attnum := fetchatt thisatt (mem_at tp off)]> (ds_values st) in
    let off := att_addlength_pointer off (attlen thisatt) (mem_at tp off) in
    let slow := if attlen thisatt <=? 0 then true else slow in
    mk_deform att values isnull off slow.

(** [for (; attnum < natts; attnum++)], with [n] iterations left. *)
Fixpoint deform_loop (tup : HeapTupleHeaderData) (hasnulls : bool) (attnum : nat)
    (n : nat) (st : deform_state) : deform_state :=
  match n with
  | O => st
  | S n' => deform_loop tup hasnulls (S attnum) n' (deform_attr tup hasnulls attnum st)
  end.

(** ** getmissingattr *)

(** [tupleDesc->constr->missing], an empty array when there is none. *)
Definition attrmiss_of (tupleDesc : TupleDesc) : option (list AttrMissing) :=
  match constr tupleDesc with
  | Some c => missing c
  | None => None
  end.

(** Return the missing value of an attribute, or NULL if there isn't one. *)
Definition getmissingattr (tupleDesc : TupleDesc) (attnum : Z) : Datum * bool :=
  let att := TupleDescAttr tupleDesc (attnum - 1) in
  if atthasmissing att && negb (attisdropped att) then
    let attrmiss : AttrMissing := default [] (attrmiss_of tupleDesc) !!! Z.to_nat (attnum - 1) in
    if ammissingPresent attrmiss then (ammissing attrmiss, false)
    else (DatumVal 0, true)
  else (DatumVal 0, true).

(** ** heap_deform_tuple *)

Fixpoint heap_deform_missing_loop (tupleDesc : TupleDesc) (attnum : nat) (n : nat)
    (values : list Datum) (isnull : list bool) : list Datum * list bool :=
  match n with
  | O => (values, isnull)
  | S n' =>
    let '(v, b) := getmissingattr tupleDesc (Z.of_nat attnum + 1) in
    heap_deform_missing_loop tupleDesc (S attnum) n'
      (<[attnum := v]> values) (<[attnum := b]> isnull)
  end.

(** Given a tuple, extract data into values/isnull arrays; this is the
    inverse of heap_form_tuple.  [values] and [isnull] are the caller's
    arrays on entry. *)
Definition heap_deform_tuple (tuple : HeapTupleData) (tupleDesc : TupleDesc)
    (values : list Datum) (isnull : list bool) : TupleDesc * list Datum * list bool :=
  let tup := tup_of tuple in
  let hasnulls := HeapTupleHasNulls tuple in
  let att := desc_att tupleDesc in
  let tdesc_natts := natts tupleDesc in
  let natts := HeapTupleHeaderGetNatts tup in
  (* Don't run off the end of the caller's arrays. *)
  let natts := Z.min natts tdesc_natts in
  let st := deform_loop tup hasnulls 0 (Z.to_nat natts) (mk_deform att values isnull 0 false) in
  let tupleDesc := set_desc_att tupleDesc (ds_att st) in
  (* read the rest as nulls or missing values as appropriate *)
  let '(values, isnull) :=
    heap_deform_missing_loop tupleDesc (Z.to_nat natts) (Z.to_nat tdesc_natts - Z.to_nat natts)
      (ds_values st) (ds_isnull st) in
  (tupleDesc, values, isnull).

(** ** nocachegetattr *)

(** check for nulls in any "earlier" bytes *)
Fixpoint nocache_earlier_bytes (bp : list Z) (i : nat) (n : nat) : bool :=
  match n with
  | O => false
  | S n' => if negb (peek bp (Z.of_nat i) =? 255) then true
            else nocache_earlier_bytes bp (S i) n'
  end.

(** check for non-fixed-length attrs up to and including target *)
Fixpoint nocache_varwidth_upto (att : list FormData_pg_attribute) (j : nat) (n : nat) : bool :=
  match n with
  | O => false
  | S n' => if attlen (att !!! j) <=? 0 then true else nocache_varwidth_upto att (S j) n'
  end.

(** [while (j < natts && att[j]->attcacheoff > 0) j++], with [n] = natts - j. *)
Fixpoint nocache_skip_cached (att : list FormData_pg_attribute) (j : nat) (n : nat) : nat :=
  match n with
  | O => j
  | S n' => if 0 <? attcacheoff (att !!! j) then nocache_skip_cached att (S j) n' else j
  end.

(** The loop that initializes the cached offsets of the leading fixed-width
    columns, from column [j], with [n] = natts - j. *)
Fixpoint nocache_init_cache (att : list FormData_pg_attribute) (j : nat) (n : nat) (off : Z)
    : list FormData_pg_attribute :=
  match n with
  | O => att
  | S n' =>
    if attlen (att !!! j) <=? 0 then att
    else
      let off := att_align_nominal off (attalign (att !!! j)) in
      nocache_init_cache (alter (set_attcacheoff off) j att) (S j) n' (off + attlen (att !!! j))
  end.

(** The careful walk, [for (i = 0;; i++)], whose only exit is the break at
    [i == attnum]; [n] is attnum - i.  A null target is skipped by
    [continue] before the break is reached, and the loop then runs past the
    target: this is [None]. *)
Fixpoint nocache_walk (tuple : HeapTupleData) (tp bp : list Z) (i : nat) (n : nat)
    (att : list FormData_pg_attribute) (off : Z) (usecache : bool)
    : option (list FormData_pg_attribute * Z) :=
  if HeapTupleHasNulls tuple && att_isnull (Z.of_nat i) bp then
    match n with
    | O => None
    | S n' => nocache_walk tuple tp bp (S i) n' att off false
    end
  else
    let atti := att !!! i in
    let '(off, att, usecache) :=
      (* If we know the next offset, we can skip the rest *)
      if usecache && (0 <=? attcacheoff atti) then (attcacheoff atti, att, usecache)
      else if attlen atti =? -1 then
        if usecache && (off =? att_align_nominal off (attalign atti))
        then (off, alter (set_attcacheoff off) i att, usecache)
        else (att_align_pointer off (attalign atti) (-1) (mem_at tp off), att, false)
      else
        (* not varlena, so safe to use att_align_nominal *)
        let off := att_align_nominal off (attalign atti) in
        (off, if usecache then alter (set_attcacheoff off) i att else att, usecache) in
    match n with
    | O => Some (att, off)
    | S n' =>
      let off := att_addlength_pointer off (attlen atti) (mem_at tp off) in
      let usecache := if usecache && (attlen atti <=? 0) then false else usecache in
      nocache_walk tuple tp bp (S i) n' att off usecache
    end.

(** nocachegetattr: only called from fastgetattr(), in cases where we can't
    use a cacheoffset and the value is not null.  This caches attribute
    offsets in the attribute descriptor. *)
Definition nocachegetattr (tuple : HeapTupleData) (attnum : Z) (tupleDesc : TupleDesc)
    : option (TupleDesc * Datum) :=
  let tup := tup_of tuple in
  let att := desc_att tupleDesc in
  let bp := mem_at (t_bytes tup) t_bits_off in
  let attnum := Z.to_nat (attnum - 1) in
  let slow :=
    if negb (HeapTupleNoNulls tuple) then
      (* there's a null somewhere in the tuple *)
      let byte := Z.shiftr (Z.of_nat attnum) 3 in
      let finalbit := Z.land (Z.of_nat attnum) 7 in
      (* check for nulls "before" final bit of last byte *)
      if negb (Z.land (Z.lnot (peek bp byte)) (Z.shiftl 1 finalbit - 1) =? 0) then true
      else nocache_earlier_bytes bp 0 (Z.to_nat byte)
    else false in
  let tp := mem_at (t_bytes tup) (t_hoff tup) in
  if negb slow && (0 <=? attcacheoff (att !!! attnum)) then
    (* no nulls up to and including the target attribute, and a cached offset *)
    Some (tupleDesc, fetchatt (att !!! attnum) (mem_at tp (attcacheoff (att !!! attnum))))
  else
    let slow :=
      if negb slow then
        if HeapTupleHasVarWidth tuple then nocache_varwidth_upto att 0 (S attnum) else false
      else slow in
    if negb slow then
      let natts := Z.to_nat (natts tupleDesc) in
      let att := alter (set_attcacheoff 0) 0%nat att in
      (* we might have set some offsets in the slow path previously *)
      let j := nocache_skip_cached att 1 (natts - 1) in
      let off := attcacheoff (att !!! (j - 1)%nat) + attlen (att !!! (j - 1)%nat) in
      let att := nocache_init_cache att j (natts - j) off in
      let off := attcacheoff (att !!! attnum) in
      Some (set_desc_att tupleDesc att, fetchatt (att !!! attnum) (mem_at tp off))
    else
      match nocache_walk tuple tp bp 0 attnum att 0 true with
      | Some (att, off) =>
        Some (set_desc_att tupleDesc att, fetchatt (att !!! attnum) (mem_at tp off))
      | None => None
      end.

(** ** heap_copytuple *)

(** memcpy of [len] bytes from one tuple block to a fresh one: the fixed
    header fields and the first [len] bytes of the block. *)
Definition memcpy_block (src : HeapTupleHeaderData) (len : Z) : HeapTupleHeaderData :=
  set_t_bytes (take (Z.to_nat len) (t_bytes src)) src.

(** returns a copy of an entire tuple *)
Definition heap_copytuple (tuple : HeapTuple) : HeapTuple :=
  match tuple with
  | None => None
  | Some tuple =>
    match t_data tuple with
    | None => None
    | Some td =>
      Some (mk_tuple (t_len tuple) (t_self tuple) (t_tableOid tuple) (t_xc_node_id tuple)
                     (Some (memcpy_block td (t_len tuple))))
    end
  end.

(** copy a tuple into a caller-supplied HeapTuple management struct *)
Definition heap_copytuple_with_tuple (src : HeapTuple) (dest : HeapTupleData) : HeapTupleData :=
  match src with
  | None => mk_tuple (t_len dest) (t_self dest) (t_tableOid dest) (t_xc_node_id dest) None
  | Some src =>
    match t_data src with
    | None => mk_tuple (t_len dest) (t_self dest) (t_tableOid dest) (t_xc_node_id dest) None
    | Some td =>
      mk_tuple (t_len src) (t_self src) (t_tableOid src) (t_xc_node_id src)
               (Some (memcpy_block td (t_len src)))
    end
  end.

(** ** heap_modify_tuple, heap_modify_tuple_by_cols *)

(** The arrays obtained from palloc: their contents are unspecified, and
    heap_deform_tuple writes every entry. *)
Definition palloc_values (n : Z) : list Datum := replicate (Z.to_nat n) (DatumVal 0).
Definition palloc_isnull (n : Z) : list bool := replicate (Z.to_nat n) false.

(** copy the identification info of the old tuple: t_ctid, t_self, and OID
    (if any) *)
Definition copy_identification (tupleDesc : TupleDesc) (tuple newTuple : HeapTupleData)
    (copy_node_id : bool) : HeapTupleData :=
  let newTuple :=
    mk_tuple (t_len newTuple) (t_self tuple) (t_tableOid tuple)
             (if copy_node_id then t_xc_node_id tuple else t_xc_node_id newTuple)
             (set_t_ctid (t_ctid (tup_of tuple)) <$> t_data newTuple) in
  if tdhasoid tupleDesc then HeapTupleSetOid (HeapTupleGetOid tuple) newTuple
  else newTuple.

Fixpoint heap_modify_replace_loop (doReplace : list bool) (replValues : list Datum)
    (replIsnull : list bool) (attoff : nat) (n : nat) (values : list Datum)
    (isnull : list bool) : list Datum * list bool :=
  match n with
  | O => (values, isnull)
  | S n' =>
    if (doReplace !!! attoff : bool)
    then heap_modify_replace_loop doReplace replValues replIsnull (S attoff) n'
           (<[attoff := replValues !!! attoff]> values)
           (<[attoff := replIsnull !!! attoff]> isnull)
    else heap_modify_replace_loop doReplace replValues replIsnull (S attoff) n' values isnull
  end.

(** form a new tuple from an old tuple and a set of replacement values. *)
Definition heap_modify_tuple (tuple : HeapTupleData) (tupleDesc : TupleDesc)
    (replValues : list Datum) (replIsnull : list bool) (doReplace : list bool)
    : result (TupleDesc * HeapTupleData) :=
  let numberOfAttributes := natts tupleDesc in
  let '(tupleDesc, values, isnull) :=
    heap_deform_tuple tuple tupleDesc (palloc_values numberOfAttributes)
                      (palloc_isnull numberOfAttributes) in
  let '(values, isnull) :=
    heap_modify_replace_loop doReplace replValues replIsnull 0
      (Z.to_nat numberOfAttributes) values isnull in
  (* create a new tuple from the values and isnull arrays *)
  do newTuple <- heap_form_tuple tupleDesc values isnull;
  OK (tupleDesc, copy_identification tupleDesc tuple newTuple true).

Fixpoint heap_modify_cols_loop (numberOfAttributes : Z) (replCols : list Z)
    (replValues : list Datum) (replIsnull : list bool) (i : nat) (n : nat)
    (values : list Datum) (isnull : list bool) : result (list Datum * list bool) :=
  match n with
  | O => OK (values, isnull)
  | S n' =>
    let attnum : Z := replCols !!! i in
    if (attnum <=? 0) || (numberOfAttributes <? attnum)
    then Err (elog_ERROR "invalid column number" attnum)
    else heap_modify_cols_loop numberOfAttributes replCols replValues replIsnull (S i) n'
           (<[Z.to_nat (attnum - 1) := replValues !!! i]> values)
           (<[Z.to_nat (attnum - 1) := replIsnull !!! i]> isnull)
  end.

(** This is like heap_modify_tuple, except that instead of specifying which
    column(s) to replace by a boolean map, an array of target column numbers
    is used.  Target column numbers are indexed from 1. *)
Definition heap_modify_tuple_by_cols (tuple : HeapTupleData) (tupleDesc : TupleDesc)
    (nCols : Z) (replCols : list Z) (replValues : list Datum) (replIsnull : list bool)
    : result (TupleDesc * HeapTupleData) :=
  let numberOfAttributes := natts tupleDesc in
  let '(tupleDesc, values, isnull) :=
    heap_deform_tuple tuple tupleDesc (palloc_values numberOfAttributes)
                      (palloc_isnull numberOfAttributes) in
  do arrays <-
    heap_modify_cols_loop numberOfAttributes replCols replValues replIsnull 0
      (Z.to_nat nCols) values isnull;
  (* create a new tuple from the values and isnull arrays *)
  do newTuple <- heap_form_tuple tupleDesc arrays.1 arrays.2;
  OK (tupleDesc, copy_identification tupleDesc tuple newTuple false).

(** ** Tuple table slots (executor/tuptable.h) *)

(** The fields of TupleTableSlot this file uses.  The descriptor
    [slot->tts_tupleDescriptor] is shared with other slots and tuples and is
    passed next to the slot.  [tts_is_minhdr] is
    [tts_tuple == &(slot->tts_minhdr)]. *)
Record TupleTableSlot : Type := mk_slot {
  tts_tuple : option HeapTupleData;
  tts_is_minhdr : bool;
  tts_values : list Datum;
  tts_isnull : list bool;
  tts_nvalid : Z;
  tts_off : Z;
  tts_slow : bool;
  tts_datarow : option (list Z)
}.

(** Modelled from the spec: "an alternate row source (a pre-decoded
    field-delimited external representation, e.g. a textual wire message)
    bypasses the Row Layout Codec entirely ... full materialization only"
    (section 4.5); the wire-protocol row decoder is an external
    collaborator (section 1).  [DataRow_decode] stands for the body of
    slot_deform_datarow after its fast path: the column count check, which
    reports ERRCODE_DATA_CORRUPTED, and the input function calls. *)
Variable DataRow_decode : TupleDesc -> list Z -> result (list Datum * list bool).

(** Extract data from the DataRow message into Datum/isnull arrays. *)
Definition slot_deform_datarow (tupleDesc : TupleDesc) (slot : TupleTableSlot)
    : result TupleTableSlot :=
  (* fastpath: exit if values already extracted *)
  if tts_nvalid slot =? natts tupleDesc then OK slot
  else
    do arrays <- DataRow_decode tupleDesc (default [] (tts_datarow slot));
    OK (mk_slot (tts_tuple slot) (tts_is_minhdr slot) arrays.1 arrays.2 (natts tupleDesc)
                (tts_off slot) (tts_slow slot) (tts_datarow slot)).

(** Given a TupleTableSlot, extract data from the slot's physical tuple into
    its Datum/isnull arrays.  Data is extracted up through the natts'th
    column (caller must ensure this is a legal column number). *)
Definition slot_deform_tuple (tupleDesc : TupleDesc) (slot : TupleTableSlot) (natts : Z)
    : TupleDesc * TupleTableSlot :=
  let tuple := default (mk_tuple 0 (mk_itemptr 0 0) 0 0 None) (tts_tuple slot) in
  let tup := tup_of tuple in
  let hasnulls := HeapTupleHasNulls tuple in
  let att := desc_att tupleDesc in
  (* Check whether the first call for this tuple, and initialize or restore
     loop state. *)
  let attnum := tts_nvalid slot in
  let '(off, slow) :=
    if attnum =? 0 then (0, false) (* Start from the first attribute *)
    else (tts_off slot, tts_slow slot) (* Restore state from previous execution *) in
  let n := Z.to_nat (natts - attnum) in
  let st := deform_loop tup hasnulls (Z.to_nat attnum) n
              (mk_deform att (tts_values slot) (tts_isnull slot) off slow) in
  (* Save state for next execution *)
  (set_desc_att tupleDesc (ds_att st),
   mk_slot (tts_tuple slot) (tts_is_minhdr slot) (ds_values st) (ds_isnull st)
           (Z.max attnum natts) (ds_off st) (ds_slow st) (tts_datarow slot)).

(** Fill in missing values for a TupleTableSlot. *)
Fixpoint slot_getmissingattrs_loop (attrmiss : list AttrMissing) (missattnum : nat) (n : nat)
    (values : list Datum) (isnull : list bool) : list Datum * list bool :=
  match n with
  | O => (values, isnull)
  | S n' =>
    slot_getmissingattrs_loop attrmiss (S missattnum) n'
      (<[missattnum := ammissing (attrmiss !!! missattnum)]> values)
      (<[missattnum := negb (ammissingPresent (attrmiss !!! missattnum))]> isnull)
  end.

(** [memset(a + start, c, n * sizeof(a[0]))] on an array of Datums or
    bools. *)
Definition memset_array {A : Type} (a : list A) (start : Z) (c : A) (n : Z) : list A :=
  take (Z.to_nat start) a ++ replicate (Z.to_nat n) c ++ drop (Z.to_nat start + Z.to_nat n) a.

Definition slot_getmissingattrs (tupleDesc : TupleDesc) (slot : TupleTableSlot)
    (startAttNum lastAttNum : Z) : TupleTableSlot :=
  let attrmiss := match constr tupleDesc with Some c => missing c | None => None end in
  let '(values, isnull) :=
    match attrmiss with
    | None =>
      (* no missing values array at all, so just fill everything in as NULL *)
      (memset_array (tts_values slot) startAttNum (DatumVal 0) (lastAttNum - startAttNum),
       memset_array (tts_isnull slot) startAttNum true (lastAttNum - startAttNum))
    | Some attrmiss =>
      (* if there is a missing values array we must process them one by one *)
      slot_getmissingattrs_loop attrmiss (Z.to_nat startAttNum)
        (Z.to_nat (lastAttNum - startAttNum)) (tts_values slot) (tts_isnull slot)
    end in
  mk_slot (tts_tuple slot) (tts_is_minhdr slot) values isnull (tts_nvalid slot)
          (tts_off slot) (tts_slow slot) (tts_datarow slot).

Definition set_tts_nvalid (n : Z) (slot : TupleTableSlot) : TupleTableSlot :=
  mk_slot (tts_tuple slot) (tts_is_minhdr slot) (tts_values slot) (tts_isnull slot) n
          (tts_off slot) (tts_slow slot) (tts_datarow slot).

(** This function fetches an attribute of the slot's current tuple.  The
    result is the descriptor, the slot, the Datum and [*isnull]. *)
Definition slot_getattr (tupleDesc : TupleDesc) (slot : TupleTableSlot) (attnum : Z)
    : result (TupleDesc * TupleTableSlot * Datum * bool) :=
  let tuple := tts_tuple slot in
  (* system attributes are handled by heap_getsysattr *)
  if attnum <=? 0 then
    match tuple with
    | None => Err (elog_ERROR "cannot extract system attribute from virtual tuple" 0)
    | Some tuple =>
      if tts_is_minhdr slot
      then Err (elog_ERROR "cannot extract system attribute from minimal tuple" 0)
      else do r <- heap_getsysattr tuple attnum tupleDesc;
           OK (tupleDesc, slot, r.1, r.2)
    end
  (* fast path if desired attribute already cached *)
  else if attnum <=? tts_nvalid slot then
    OK (tupleDesc, slot, tts_values slot !!! Z.to_nat (attnum - 1),
        tts_isnull slot !!! Z.to_nat (attnum - 1))
  (* return NULL if attnum is out of range according to the tupdesc *)
  else if natts tupleDesc <? attnum then OK (tupleDesc, slot, DatumVal 0, true)
  (* If it is a data row tuple extract all and return requested *)
  else if bool_decide (is_Some (tts_datarow slot)) then
    do slot <- slot_deform_datarow tupleDesc slot;
    OK (tupleDesc, slot, tts_values slot !!! Z.to_nat (attnum - 1),
        tts_isnull slot !!! Z.to_nat (attnum - 1))
  else
    (* otherwise we had better have a physical tuple *)
    match tuple with
    | None => Err (elog_ERROR "cannot extract attribute from empty tuple slot" 0)
    | Some tuple =>
      (* return NULL if attnum is out of range according to the tuple *)
      let tup := tup_of tuple in
      if HeapTupleHeaderGetNatts tup <? attnum then
        let '(d, isnull) := getmissingattr tupleDesc attnum in
        OK (tupleDesc, slot, d, isnull)
      (* check if target attribute is null: no point in groveling through tuple *)
      else if HeapTupleHasNulls tuple
              && att_isnull (attnum - 1) (mem_at (t_bytes tup) t_bits_off)
      then OK (tupleDesc, slot, DatumVal 0, true)
      (* If the attribute's column has been dropped, we force a NULL result. *)
      else if attisdropped (attrs tupleDesc !!! Z.to_nat (attnum - 1))
      then OK (tupleDesc, slot, DatumVal 0, true)
      else
        (* Extract the attribute, along with any preceding attributes. *)
        let '(tupleDesc, slot) := slot_deform_tuple tupleDesc slot attnum in
        (* The result is acquired from tts_values array. *)
        OK (tupleDesc, slot, tts_values slot !!! Z.to_nat (attnum - 1),
            tts_isnull slot !!! Z.to_nat (attnum - 1))
    end.

(** This function forces all the entries of the slot's Datum/isnull arrays
    to be valid. *)
Definition slot_getallattrs (tupleDesc : TupleDesc) (slot : TupleTableSlot)
    : result (TupleDesc * TupleTableSlot) :=
  let tdesc_natts := natts tupleDesc in
  (* Quick out if we have 'em all already *)
  if tts_nvalid slot =? tdesc_natts then OK (tupleDesc, slot)
  (* Handle the DataRow tuple case *)
  else if bool_decide (is_Some (tts_datarow slot)) then
    do slot <- slot_deform_datarow tupleDesc slot; OK (tupleDesc, slot)
  else
    match tts_tuple slot with
    | None => Err (elog_ERROR "cannot extract attribute from empty tuple slot" 0)
    | Some tuple =>
      (* load up any slots available from physical tuple *)
      let attnum := HeapTupleHeaderGetNatts (tup_of tuple) in
      let attnum := Z.min attnum tdesc_natts in
      let '(tupleDesc, slot) := slot_deform_tuple tupleDesc slot attnum in
      (* read the rest as NULLS or missing values *)
      let slot :=
        if attnum <? tdesc_natts then slot_getmissingattrs tupleDesc slot attnum tdesc_natts
        else slot in
      OK (tupleDesc, set_tts_nvalid tdesc_natts slot)
    end.

(** This function forces the entries of the slot's Datum/isnull arrays to
    be valid at least up through the attnum'th entry. *)
Definition slot_getsomeattrs (tupleDesc : TupleDesc) (slot : TupleTableSlot) (attnum : Z)
    : result (TupleDesc * TupleTableSlot) :=
  (* Quick out if we have 'em all already *)
  if attnum <=? tts_nvalid slot then OK (tupleDesc, slot)
  (* Handle the DataRow tuple case *)
  else if bool_decide (is_Some (tts_datarow slot)) then
    do slot <- slot_deform_datarow tupleDesc slot; OK (tupleDesc, slot)
  (* Check for caller error *)
  else if (attnum <=? 0) || (natts tupleDesc <? attnum)
  then Err (elog_ERROR "invalid attribute number" attnum)
  else
    match tts_tuple slot with
    | None => Err (elog_ERROR "cannot extract attribute from empty tuple slot" 0)
    | Some tuple =>
      (* load up any slots available from physical tuple *)
      let attno := HeapTupleHeaderGetNatts (tup_of tuple) in
      let attno := Z.min attno attnum in
      let '(tupleDesc, slot) := slot_deform_tuple tupleDesc slot attno in
      (* read the rest as NULLs or missing values *)
      let slot :=
        if attno <? attnum then slot_getmissingattrs tupleDesc slot attno attnum
        else slot in
      OK (tupleDesc, set_tts_nvalid attnum slot)
    end.

(** Detect whether an attribute of the slot is null, without actually
    fetching it. *)
Definition slot_attisnull (tupleDesc : TupleDesc) (slot : TupleTableSlot) (attnum : Z)
    : result (TupleTableSlot * bool) :=
  let tuple := tts_tuple slot in
  (* system attributes are handled by heap_attisnull *)
  if attnum <=? 0 then
    match tuple with
    | None => Err (elog_ERROR "cannot extract system attribute from virtual tuple" 0)
    | Some tuple =>
      if tts_is_minhdr slot
      then Err (elog_ERROR "cannot extract system attribute from minimal tuple" 0)
      else do b <- heap_attisnull tuple attnum (Some tupleDesc); OK (slot, b)
    end
  (* fast path if desired attribute already cached *)
  else if attnum <=? tts_nvalid slot then OK (slot, tts_isnull slot !!! Z.to_nat (attnum - 1))
  (* return NULL if attnum is out of range according to the tupdesc *)
  else if natts tupleDesc <? attnum then OK (slot, true)
  (* If it is a data row tuple extract all and return requested *)
  else if bool_decide (is_Some (tts_datarow slot)) then
    do slot <- slot_deform_datarow tupleDesc slot;
    OK (slot, tts_isnull slot !!! Z.to_nat (attnum - 1))
  else
    match tuple with
    | None => Err (elog_ERROR "cannot extract attribute from empty tuple slot" 0)
    | Some tuple =>
      (* and let the tuple tell it *)
      do b <- heap_attisnull tuple attnum (Some tupleDesc); OK (slot, b)
    end.

(** ** expand_tuple, heap_expand_tuple *)

(** Find the first item in attrmiss for which we don't have a value in the
    source; [n] is natts - firstmissingnum. *)
Fixpoint expand_firstmissing (attrmiss : list AttrMissing) (firstmissingnum : nat) (n : nat)
    : nat :=
  match n with
  | O => firstmissingnum
  | S n' =>
    if ammissingPresent (attrmiss !!! firstmissingnum) then firstmissingnum
    else expand_firstmissing attrmiss (S firstmissingnum) n'
  end.

(** Now walk the missing attributes.  If there is a missing value make
    space for it.  Otherwise, it's going to be NULL. *)
Fixpoint expand_walk_missing (tupleDesc : TupleDesc) (attrmiss : list AttrMissing)
    (attnum : nat) (n : nat) (hasNulls : bool) (targetDataLen : Z) : bool * Z :=
  match n with
  | O => (hasNulls, targetDataLen)
  | S n' =>
    if ammissingPresent (attrmiss !!! attnum) then
      let att := TupleDescAttr tupleDesc (Z.of_nat attnum) in
      let targetDataLen :=
        att_align_datum targetDataLen (attalign att) (attlen att)
                        (ammissing (attrmiss !!! attnum)) in
      let targetDataLen :=
        att_addlength_pointer targetDataLen (attlen att)
                              (DatumGetPointer (ammissing (attrmiss !!! attnum))) in
      expand_walk_missing tupleDesc attrmiss (S attnum) n' hasNulls targetDataLen
    else
      (* no missing value, so it must be null *)
      expand_walk_missing tupleDesc attrmiss (S attnum) n' true targetDataLen
  end.

(** Now fill in the missing values *)
Fixpoint expand_fill_missing (tupleDesc : TupleDesc) (attrmiss : option (list AttrMissing))
    (attnum : nat) (n : nat) (st : fill_state) : fill_state :=
  match n with
  | O => st
  | S n' =>
    let attr := TupleDescAttr tupleDesc (Z.of_nat attnum) in
    let present :=
      match attrmiss with
      | Some attrmiss => ammissingPresent (attrmiss !!! attnum)
      | None => false
      end in
    expand_fill_missing tupleDesc attrmiss (S attnum) n'
      (if present
       then fill_val attr (bool_decide (is_Some (fs_bit st))) st
                     (ammissing (default [] attrmiss !!! attnum)) false
       else fill_val attr true st (DatumVal 0) true)
  end.

(** Expand a tuple which has less attributes than required.  For each
    attribute not present in the sourceTuple, if there is a missing value
    that will be used.  Otherwise the attribute will be set to NULL.  This is
    the function with targetHeapTuple supplied and targetMinimalTuple NULL,
    the way heap_expand_tuple calls it. *)
Definition expand_tuple (sourceTuple : HeapTupleData) (tupleDesc : TupleDesc) : HeapTupleData :=
  let hasNulls := HeapTupleHasNulls sourceTuple in
  let sourceTHeader := tup_of sourceTuple in
  let sourceNatts := HeapTupleHeaderGetNatts sourceTHeader in
  let natts := natts tupleDesc in
  let sourceNullLen := if hasNulls then BITMAPLEN sourceNatts else 0 in
  let sourceDataLen := t_len sourceTuple - t_hoff sourceTHeader in
  let targetDataLen := sourceDataLen in
  let attrmiss := attrmiss_of tupleDesc in
  let '(hasNulls, targetDataLen) :=
    match attrmiss with
    | Some attrmiss =>
      (* If there are missing values we want to put them into the tuple. *)
      let firstmissingnum :=
        expand_firstmissing attrmiss (Z.to_nat sourceNatts) (Z.to_nat (natts - sourceNatts)) in
      (* If there are no more missing values everything else must be NULL *)
      if natts <=? Z.of_nat firstmissingnum then (true, targetDataLen)
      else expand_walk_missing tupleDesc attrmiss firstmissingnum
             (Z.to_nat natts - firstmissingnum) hasNulls targetDataLen
    | None =>
      (* If there are no missing values at all then NULLS must be allowed *)
      (true, targetDataLen)
    end in
  let targetNullLen := if hasNulls then BITMAPLEN natts else 0 in
  let len := targetNullLen in
  let len := if tdhasoid tupleDesc then len + sizeof_Oid else len in
  (* Allocate and zero the space needed. *)
  let len := len + t_bits_off in
  let hoff := MAXALIGN len in
  let len := hoff + targetDataLen in
  let block := palloc0 len in
  let nullBits := if 0 <? targetNullLen then Some t_bits_off else None in
  let targetData := hoff in
  let '(nullBits, bitMask, block) :=
    if 0 <? targetNullLen then
      let '(nullBits, block) :=
        if 0 <? sourceNullLen then
          (* if bitmap pre-existed copy in - all is set *)
          (t_bits_off + (sourceNullLen - 1),
           memcpy block t_bits_off (mem_at (t_bytes sourceTHeader) t_bits_off) sourceNullLen)
        else
          let sourceNullLen := BITMAPLEN sourceNatts in
          (* Set NOT NULL for all existing attributes *)
          let block := memset block t_bits_off 255 sourceNullLen in
          let nullBits := t_bits_off + (sourceNullLen - 1) in
          if negb (Z.land sourceNatts 7 =? 0) then
            (* build the mask (inverted!) *)
            let bitMask := Z.shiftl 255 (Z.land sourceNatts 7) in
            (nullBits, poke block nullBits (Z.lnot bitMask mod 256))
          else (nullBits, block) in
      (Some nullBits, Z.shiftl 1 (Z.land (sourceNatts - 1) 7), block)
    else (nullBits, 0, block) in
  let block :=
    memcpy block targetData (mem_at (t_bytes sourceTHeader) (t_hoff sourceTHeader))
           sourceDataLen in
  let targetData := targetData + sourceDataLen in
  let st :=
    expand_fill_missing tupleDesc attrmiss (Z.to_nat sourceNatts)
      (Z.to_nat (natts - sourceNatts))
      (mk_fill nullBits bitMask targetData (t_infomask sourceTHeader) block) in
  mk_tuple len (t_self sourceTuple) (t_tableOid sourceTuple) 0
    (Some (mk_header (Z.land len 1073741823) (tdtypmod tupleDesc) (tdtypeid tupleDesc)
                     ItemPointerSetInvalid 0 0 0
                     (Z.lor (Z.land 0 (Z.lnot HEAP_NATTS_MASK)) natts)
                     (fs_infomask st) (hoff mod 256) (fs_mem st))).

(** Fill in the missing values for an ordinary HeapTuple *)
Definition heap_expand_tuple (sourceTuple : HeapTupleData) (tupleDesc : TupleDesc)
    : HeapTupleData :=
  expand_tuple sourceTuple tupleDesc.

(** ** heap_tuple_set_shardid *)

(** Compute the shard of a tuple from the distribute key columns of the
    slot's arrays, and set it in the tuple's header. *)
Definition heap_tuple_set_shardid (tup : HeapTupleData) (tupleDesc : TupleDesc)
    (slot : TupleTableSlot) (diskey secdiskey : Z) (relid : Z) : result HeapTupleData :=
  if (diskey <? 1) || (natts tupleDesc <? diskey)
  then Err (elog_ERROR "AttrNum of distribute key is invalid" diskey)
  else if natts tupleDesc <? secdiskey
  then Err (elog_ERROR "AttrNum of second distribute key is invalid" secdiskey)
  else
    (* process sharding maping *)
    let typeOfDistCol := atttypid (attrs tupleDesc !!! Z.to_nat (diskey - 1)) in
    let value := tts_values slot !!! Z.to_nat (diskey - 1) in
    let isdisnull := tts_isnull slot !!! Z.to_nat (diskey - 1) in
    (* secondary distribute key *)
    let '(sectypeOfDistCol, secvalue, secisnull) :=
      if negb (secdiskey =? InvalidAttrNumber)
      then (atttypid (attrs tupleDesc !!! Z.to_nat (secdiskey - 1)),
            tts_values slot !!! Z.to_nat (secdiskey - 1),
            tts_isnull slot !!! Z.to_nat (secdiskey - 1))
      else (InvalidOid, DatumVal 0, true) in
    let shardId := EvaluateShardId typeOfDistCol isdisnull value
                                   sectypeOfDistCol secisnull secvalue relid in
    OK (mk_tuple (t_len tup) (t_self tup) (t_tableOid tup) (t_xc_node_id tup)
                 (HeapTupleHeaderSetShardId shardId <$> t_data tup)).

(** * Well-formed inputs and reference definitions *)

(** A column descriptor the codec supports: a pass-by-value column has one
    of the scalar widths; any other column is fixed-length, a varlena
    (attlen -1) or a cstring (attlen -2), and a cstring column has
    alignment 'c' (the Assert of fill_val). *)
Definition att_wellformed (a : FormData_pg_attribute) : bool :=
  if attbyval a
  then (attlen a =? 1) || (attlen a =? 2) || (attlen a =? 4) || (attlen a =? 8)
  else (0 <? attlen a) || (attlen a =? -1)
       || ((attlen a =? -2) && (attalign a =? "c")%char).

(** A non-null value that is well-formed for its column's length class: a
    scalar of the column's width, or a pointer to at least as many bytes as
    the value's own header (or the column's length, or the terminating
    zero) announces.  An expanded object is well-formed when its flat image
    is a variable-length value of exactly its own length. *)
Definition datum_wellformed (a : FormData_pg_attribute) (d : Datum) : bool :=
  match d with
  | DatumVal v =>
    attbyval a && (- 2 ^ (8 * attlen a - 1) <=? v) && (v <? 2 ^ (8 * attlen a - 1))
  | DatumPtr m =>
    let len := Z.of_nat (length m) in
    negb (attbyval a) &&
    (if attlen a =? -1 then
       if VARATT_IS_EXTERNAL m then
         if VARATT_IS_EXTERNAL_EXPANDED m then
           (4 <=? EOH_get_flat_size m) && (VARSIZE_ANY (EOH_flat m) =? EOH_get_flat_size m)
         else VARSIZE_EXTERNAL m <=? len
       else if VARATT_IS_SHORT m then (1 <=? VARSIZE_SHORT m) && (VARSIZE_SHORT m <=? len)
       else (VARHDRSZ <=? VARSIZE m) && (VARSIZE m <=? len)
     else if attlen a =? -2 then strlen m <? len
     else attlen a <=? len)
  end.

(** The descriptor's column count is the length of its attribute array and
    is within the limit heap_form_tuple accepts. *)
Definition desc_wellformed (td : TupleDesc) : Prop :=
  natts td = Z.of_nat (length (desc_att td)) /\
  natts td <= MaxTupleAttributeNumber /\
  forall i a, desc_att td !! i = Some a -> att_wellformed a = true.

(** values[] and isnull[] are of the length indicated by natts, and every
    non-null value is well-formed for its column. *)
Definition arrays_wellformed (td : TupleDesc) (values : list Datum) (isnull : list bool) : Prop :=
  Z.of_nat (length values) = natts td /\
  Z.of_nat (length isnull) = natts td /\
  forall i a d, desc_att td !! i = Some a -> values !! i = Some d ->
                isnull !! i = Some false -> datum_wellformed a d = true.

(** The bytes [fill_val] stores for a non-null value, without the padding
    before them. *)
Definition stored (a : FormData_pg_attribute) (d : Datum) : list Z :=
  if attbyval a then encode_be (Z.to_nat (attlen a)) (DatumGetValue d)
  else
    let val := DatumGetPointer d in
    if attlen a =? -1 then
      if VARATT_IS_EXTERNAL val then
        if VARATT_IS_EXTERNAL_EXPANDED val then EOH_flat val
        else take (Z.to_nat (VARSIZE_EXTERNAL val)) val
      else if VARATT_IS_SHORT val then take (Z.to_nat (VARSIZE_SHORT val)) val
      else if VARLENA_ATT_IS_PACKABLE a && VARATT_CAN_MAKE_SHORT val then
        (Z.lor (VARATT_CONVERTED_SHORT_SIZE val) 128 mod 256)
          :: take (Z.to_nat (VARATT_CONVERTED_SHORT_SIZE val - 1)) (VARDATA val)
      else take (Z.to_nat (VARSIZE val)) val
    else if attlen a =? -2 then take (Z.to_nat (strlen val + 1)) val
    else take (Z.to_nat (attlen a)) val.

(** Whether [fill_val] aligns the data cursor before storing the value. *)
Definition stored_aligned (a : FormData_pg_attribute) (d : Datum) : bool :=
  if attbyval a then true
  else
    let val := DatumGetPointer d in
    if attlen a =? -1 then
      if VARATT_IS_EXTERNAL val then VARATT_IS_EXTERNAL_EXPANDED val
      else if VARATT_IS_SHORT val then false
      else negb (VARLENA_ATT_IS_PACKABLE a && VARATT_CAN_MAKE_SHORT val)
    else if attlen a =? -2 then false
    else true.

(** The number of bytes [fill_val] stores for a non-null value
    ([data_length]). *)
Definition data_length_of (a : FormData_pg_attribute) (d : Datum) : Z :=
  if attbyval a then attlen a
  else
    let val := DatumGetPointer d in
    if attlen a =? -1 then
      if VARATT_IS_EXTERNAL val then
        if VARATT_IS_EXTERNAL_EXPANDED val then EOH_get_flat_size (DatumGetEOHP d)
        else VARSIZE_EXTERNAL val
      else if VARATT_IS_SHORT val then VARSIZE_SHORT val
      else if VARLENA_ATT_IS_PACKABLE a && VARATT_CAN_MAKE_SHORT val
      then VARATT_CONVERTED_SHORT_SIZE val
      else VARSIZE val
    else if attlen a =? -2 then strlen val + 1
    else attlen a.

(** Where the value of a column starts when the data cursor is at [p]. *)
Definition stored_start (a : FormData_pg_attribute) (d : Datum) (p : Z) : Z :=
  if stored_aligned a d then att_align_nominal p (attalign a) else p.

(** The position of the data cursor after the first [k] columns, for a
    cursor that starts at [start]. *)
Fixpoint data_end (att : list FormData_pg_attribute) (values : list Datum)
    (isnull : list bool) (start : Z) (k : nat) : Z :=
  match k with
  | O => start
  | S k' =>
    let p := data_end att values isnull start k' in
    if (isnull !!! k' : bool) then p
    else stored_start (att !!! k') (values !!! k') p
         + data_length_of (att !!! k') (values !!! k')
  end.

(** The data area after the first [k] columns: for each non-null column the
    zero padding up to its start, then its stored bytes. *)
Fixpoint data_image (att : list FormData_pg_attribute) (values : list Datum)
    (isnull : list bool) (start : Z) (k : nat) : list Z :=
  match k with
  | O => []
  | S k' =>
    let p := data_end att values isnull start k' in
    data_image att values isnull start k'
    ++ (if (isnull !!! k' : bool) then []
        else replicate (Z.to_nat (stored_start (att !!! k') (values !!! k') p - p)) 0
             ++ stored (att !!! k') (values !!! k'))
  end.

(** The summary flags of a row: any null, any non-null variable-width
    column, any non-null external reference that is not an expanded
    object. *)
Definition value_flags (a : FormData_pg_attribute) (d : Datum) : Z :=
  if attbyval a then 0
  else if attlen a =? -1 then
    if VARATT_IS_EXTERNAL (DatumGetPointer d)
       && negb (VARATT_IS_EXTERNAL_EXPANDED (DatumGetPointer d))
    then Z.lor HEAP_HASVARWIDTH HEAP_HASEXTERNAL
    else HEAP_HASVARWIDTH
  else if attlen a =? -2 then HEAP_HASVARWIDTH
  else 0.

Fixpoint row_flags (att : list FormData_pg_attribute) (values : list Datum)
    (isnull : list bool) (k : nat) : Z :=
  match k with
  | O => 0
  | S k' =>
    Z.lor (row_flags att values isnull k')
          (if (isnull !!! k' : bool) then HEAP_HASNULL
           else value_flags (att !!! k') (values !!! k'))
  end.

(** ** The cache-free byte walk *)

(** One column of the walk that never looks at attcacheoff: a null column
    has no storage; otherwise align as the column requires (looking at the
    first byte for a varlena), fetch, and advance over the value. *)
Definition bytewalk_step (att : list FormData_pg_attribute) (tup : HeapTupleHeaderData)
    (hasnulls : bool) (i : nat) (off : Z) : Datum * bool * Z :=
  let bp := mem_at (t_bytes tup) t_bits_off in
  let tp := mem_at (t_bytes tup) (t_hoff tup) in
  let a := att !!! i in
  if hasnulls && att_isnull (Z.of_nat i) bp then (DatumVal 0, true, off)
  else
    let off := if attlen a =? -1
               then att_align_pointer off (attalign a) (-1) (mem_at tp off)
               else att_align_nominal off (attalign a) in
    (fetchatt a (mem_at tp off), false, att_addlength_pointer off (attlen a) (mem_at tp off)).

(** The offset the walk has reached before column [k]. *)
Fixpoint bytewalk_off (att : list FormData_pg_attribute) (tup : HeapTupleHeaderData)
    (hasnulls : bool) (k : nat) : Z :=
  match k with
  | O => 0
  | S k' => (bytewalk_step att tup hasnulls k' (bytewalk_off att tup hasnulls k')).2
  end.

(** The value and null flag of column [k] according to the walk. *)
Definition bytewalk_value (att : list FormData_pg_attribute) (tup : HeapTupleHeaderData)
    (hasnulls : bool) (k : nat) : Datum * bool :=
  (bytewalk_step att tup hasnulls k (bytewalk_off att tup hasnulls k)).1.

(** Where column [k] starts according to the walk (for a non-null column). *)
Definition bytewalk_start (att : list FormData_pg_attribute) (tup : HeapTupleHeaderData)
    (k : nat) : Z :=
  let off := bytewalk_off att tup (negb (Z.land (t_infomask tup) HEAP_HASNULL =? 0)) k in
  let a := att !!! k in
  let tp := mem_at (t_bytes tup) (t_hoff tup) in
  if attlen a =? -1 then att_align_pointer off (attalign a) (-1) (mem_at tp off)
  else att_align_nominal off (attalign a).

(** ** The offset cache invariant *)

(** The end of column [k - 1] when columns 0 .. k-1 are all present and of
    fixed width: a function of the descriptor alone. *)
Fixpoint fixed_end (att : list FormData_pg_attribute) (k : nat) : Z :=
  match k with
  | O => 0
  | S k' => att_align_nominal (fixed_end att k') (attalign (att !!! k')) + attlen (att !!! k')
  end.

Definition prefix_fixed (att : list FormData_pg_attribute) (k : nat) : Prop :=
  forall j, (j < k)%nat -> 0 < attlen (att !!! j).

(** Every cached offset is the true offset of its column in any row in
    which the column is reached without preceding nulls or variable-width
    columns; a cached varlena offset needs no padding; and the cached
    columns form a prefix of the descriptor. *)
Definition cache_ok (att : list FormData_pg_attribute) : Prop :=
  forall i, (i < length att)%nat -> 0 <= attcacheoff (att !!! i) ->
    prefix_fixed att i /\
    attcacheoff (att !!! i) = att_align_nominal (fixed_end att i) (attalign (att !!! i)) /\
    (attlen (att !!! i) = -1 -> attcacheoff (att !!! i) = fixed_end att i) /\
    (forall j, (j < i)%nat -> 0 <= attcacheoff (att !!! j)).

(** The physical description of the columns, without the cache. *)
Definition att_shape (a : FormData_pg_attribute) : FormData_pg_attribute :=
  set_attcacheoff (-1) a.

(** ** Auxiliary definitions for the properties *)

(** A block with [bytes] written at [p]. *)
Definition splice (m : list Z) (p : Z) (bytes : list Z) : list Z :=
  take (Z.to_nat p) m ++ bytes ++ drop (Z.to_nat p + length bytes) m.

(** The part of [fill_val] that maintains the null bitmap: the new bitmap
    cursor, mask and block. *)
Definition fill_bit_step (bit_given : bool) (st : fill_state) (isnull : bool)
    : option Z * Z * list Z :=
  if bit_given then
    let '(bit1, bitmask1, mem1) :=
      if negb (fs_bitmask st =? HIGHBIT)
      then (fs_bit st, Z.shiftl (fs_bitmask st) 1, fs_mem st)
      else let b := (fun p => p + 1) <$> fs_bit st in
           (b, 1, poke_bit b (fs_mem st) (fun _ => 0)) in
    if isnull then (bit1, bitmask1, mem1)
    else (bit1, bitmask1, poke_bit bit1 mem1 (fun b => Z.lor b bitmask1))
  else (fs_bit st, fs_bitmask st, fs_mem st).

(** What the bitmap cursor, the mask and the bitmap bytes are after [i]
    columns of a tuple whose bitmap starts at [b0]: the cursor is on the
    byte of column [i - 1], the mask is its bit, and in the bytes reached so
    far bit [j] is set exactly for the columns [j < i] that are not null. *)
Definition bits_inv (isnull : list bool) (b0 : Z) (i : nat) (bit : option Z) (mask : Z)
    (m : list Z) : Prop :=
  bit = Some (b0 + (Z.of_nat i + 7) / 8 - 1) /\
  mask = 2 ^ ((Z.of_nat i + 7) mod 8) /\
  forall j, 0 <= j < 8 * ((Z.of_nat i + 7) / 8) ->
    Z.testbit (peek m (b0 + j / 8)) (j mod 8)
    = (j <? Z.of_nat i) && negb (isnull !!! Z.to_nat j).

(** The state of the loop of heap_fill_tuple after [i] columns, for a block
    of [L] bytes whose bitmap (if any) starts at [b0] and whose data area
    starts at [hoff]: the data cursor is at [data_end], the data area holds
    [data_image] followed by zeros, the infomask has the flags of the
    columns seen, and the bitmap satisfies [bits_inv]. *)
Definition fill_inv (att : list FormData_pg_attribute) (values : list Datum)
    (isnull : list bool) (hasbit : bool) (b0 hoff L im0 : Z) (i : nat)
    (st : fill_state) : Prop :=
  fs_data st = data_end att values isnull hoff i /\
  Z.of_nat (length (fs_mem st)) = L /\
  mem_at (fs_mem st) hoff
  = data_image att values isnull hoff i
    ++ replicate (Z.to_nat (L - data_end att values isnull hoff i)) 0 /\
  fs_infomask st = Z.lor im0 (row_flags att values isnull i) /\
  (if hasbit then bits_inv isnull b0 i (fs_bit st) (fs_bitmask st) (fs_mem st)
   else fs_bit st = None).

(** The header size heap_form_tuple computes ([hoff]): the fixed header,
    the bitmap if some column is null, the object id if the descriptor has
    one, rounded up by MAXALIGN. *)
Definition formed_hoff (td : TupleDesc) (isnull : list bool) : Z :=
  let len := t_bits_off in
  let len := if check_for_nulls isnull 0 (Z.to_nat (natts td))
             then len + BITMAPLEN (natts td) else len in
  let len := if tdhasoid td then len + sizeof_Oid else len in
  MAXALIGN len.

(** The infomask heap_form_tuple starts from, once heap_fill_tuple has
    cleared the three content flags. *)
Definition formed_infomask0 (td : TupleDesc) : Z :=
  Z.land (if tdhasoid td then HEAP_HASOID else 0)
         (Z.lnot (Z.lor (Z.lor HEAP_HASNULL HEAP_HASVARWIDTH) HEAP_HASEXTERNAL)).

(** Whether the walk has met a null or a variable-width column before
    column [k]: the value of [slow] (and of [!usecache]) at that point. *)
Fixpoint walk_slow (att : list FormData_pg_attribute) (tup : HeapTupleHeaderData)
    (hasnulls : bool) (k : nat) : bool :=
  match k with
  | O => false
  | S k' =>
    walk_slow att tup hasnulls k'
    || (hasnulls && att_isnull (Z.of_nat k') (mem_at (t_bytes tup) t_bits_off))
    || (attlen (att !!! k') <=? 0)
  end.

(** The cache-free decoding of columns [i .. i + n - 1] into the caller's
    arrays. *)
Fixpoint bytewalk_fill (att : list FormData_pg_attribute) (tup : HeapTupleHeaderData)
    (hasnulls : bool) (i : nat) (n : nat) (values : list Datum) (isnull : list bool)
    : list Datum * list bool :=
  match n with
  | O => (values, isnull)
  | S n' =>
    bytewalk_fill att tup hasnulls (S i) n'
      (<[i := (bytewalk_value att tup hasnulls i).1]> values)
      (<[i := (bytewalk_value att tup hasnulls i).2]> isnull)
  end.

(** The cache-free full decoding of a row: the byte walk over the columns
    the row physically has, then the missing values of the others. *)
Definition bytewalk_deform (tuple : HeapTupleData) (tupleDesc : TupleDesc)
    (values : list Datum) (isnull : list bool) : list Datum * list bool :=
  let tdesc_natts := natts tupleDesc in
  let natts := Z.min (HeapTupleHeaderGetNatts (tup_of tuple)) tdesc_natts in
  let '(values, isnull) :=
    bytewalk_fill (desc_att tupleDesc) (tup_of tuple) (HeapTupleHasNulls tuple) 0
      (Z.to_nat natts) values isnull in
  heap_deform_missing_loop tupleDesc (Z.to_nat natts)
    (Z.to_nat tdesc_natts - Z.to_nat natts) values isnull.

(** Two attribute arrays that differ in their cached offsets only. *)
Definition same_shape (att att' : list FormData_pg_attribute) : Prop :=
  length att = length att' /\ forall j, att_shape (att !!! j) = att_shape (att' !!! j).

(** No cached offset has been lost from [att] to [att']. *)
Definition cache_grows (att att' : list FormData_pg_attribute) : Prop :=
  forall j, 0 <= attcacheoff (att !!! j) -> attcacheoff (att' !!! j) = attcacheoff (att !!! j).

(** The state of a deforming loop before column [i] agrees with the
    cache-free walk, and every column before [i] has its offset cached
    whenever the loop is still on the fast path. *)
Definition deform_inv (att0 : list FormData_pg_attribute) (tup : HeapTupleHeaderData)
    (hasnulls : bool) (i : nat) (att : list FormData_pg_attribute) (off : Z)
    (slow : bool) : Prop :=
  same_shape att0 att /\ cache_grows att0 att /\ cache_ok att /\
  off = bytewalk_off att0 tup hasnulls i /\
  slow = walk_slow att0 tup hasnulls i /\
  (slow = false -> forall j, (j < i)%nat -> 0 <= attcacheoff (att !!! j)).

(** Two states of one descriptor: the same columns, constraints and sizes,
    the second with at least the cached offsets of the first. *)
Definition desc_same (td td' : TupleDesc) : Prop :=
  natts td' = natts td /\ constr td' = constr td /\
  transp_crypt_attrs_ext td' = transp_crypt_attrs_ext td /\
  same_shape (attrs td) (attrs td') /\ same_shape (attrs_ext td) (attrs_ext td') /\
  cache_grows (desc_att td) (desc_att td').

(** The tuple a slot holds. *)
Definition slot_tuple (slot : TupleTableSlot) : HeapTupleData :=
  default (mk_tuple 0 (mk_itemptr 0 0) 0 0 None) (tts_tuple slot).

(** The state of a slot that started as [slot0], without valid entries, and
    has been deformed up to [tts_nvalid]: its arrays are those of the
    cache-free walk over the first [tts_nvalid] columns, and its saved
    offset and [slow] flag are those of the walk at that column. *)
Definition slot_inv (att0 : list FormData_pg_attribute) (slot0 : TupleTableSlot)
    (td : TupleDesc) (slot : TupleTableSlot) : Prop :=
  let tup := tup_of (slot_tuple slot0) in
  let hasnulls := HeapTupleHasNulls (slot_tuple slot0) in
  let nvalid := Z.to_nat (tts_nvalid slot) in
  tts_tuple slot = tts_tuple slot0 /\
  0 <= tts_nvalid slot <= Z.of_nat (length att0) /\
  (tts_values slot, tts_isnull slot)
  = bytewalk_fill att0 tup hasnulls 0 nvalid (tts_values slot0) (tts_isnull slot0) /\
  (tts_nvalid slot <> 0 ->
   tts_off slot = bytewalk_off att0 tup hasnulls nvalid /\
   tts_slow slot = walk_slow att0 tup hasnulls nvalid /\
   (tts_slow slot = false ->
    forall j, (j < nvalid)%nat -> 0 <= attcacheoff (desc_att td !!! j))).

(** The HEAP_HASVARWIDTH flag of a row is honest for a descriptor: a row
    without the flag has no value of variable width. *)
Definition varwidth_flag_ok (att : list FormData_pg_attribute) (tuple : HeapTupleData) : bool :=
  HeapTupleHasVarWidth tuple
  || forallb (fun j =>
                (HeapTupleHasNulls tuple
                 && att_isnull (Z.of_nat j) (mem_at (t_bytes (tup_of tuple)) t_bits_off))
                || (0 <? attlen (att !!! j)))
       (seq 0 (Z.to_nat (HeapTupleHeaderGetNatts (tup_of tuple)))).

(** ** Sequences of decoding operations over one descriptor *)

(** The decoding operations that read and write the offsets cached in a
    descriptor.  A slot is named by its position in the list of slots that
    share the descriptor. *)
Inductive decode_op : Type :=
| op_heap_deform_tuple (tuple : HeapTupleData) (values : list Datum) (isnull : list bool)
| op_slot_deform_tuple (s : nat) (natts : Z)
| op_nocachegetattr (tuple : HeapTupleData) (attnum : Z).

(** What the callers guarantee: slot_deform_tuple is asked for a legal
    column number; nocachegetattr (through fastgetattr and heap_getattr) is
    asked for a column that the descriptor and the row have and that is not
    null, in a row whose HEAP_HASVARWIDTH flag is honest. *)
Definition op_ok (td : TupleDesc) (op : decode_op) : bool :=
  match op with
  | op_heap_deform_tuple _ _ _ => true
  | op_slot_deform_tuple _ k => k <=? natts td
  | op_nocachegetattr tuple attnum =>
    (1 <=? attnum) && (attnum <=? natts td)
    && (attnum <=? HeapTupleHeaderGetNatts (tup_of tuple))
    && negb (HeapTupleHasNulls tuple
             && att_isnull (attnum - 1) (mem_at (t_bytes (tup_of tuple)) t_bits_off))
    && varwidth_flag_ok (desc_att td) tuple
  end.

(** What an operation hands back to its caller. *)
Inductive observation : Type :=
| obs_row (values : list Datum) (isnull : list bool)
| obs_attr (d : Datum)
| obs_none.

(** One operation on the shared descriptor and the slots: the new state
    and what the caller sees (for a slot, the entries it asked for). *)
Definition run_op (st : TupleDesc * list TupleTableSlot) (op : decode_op)
    : TupleDesc * list TupleTableSlot * observation :=
  match op with
  | op_heap_deform_tuple tuple values isnull =>
    let r := heap_deform_tuple tuple st.1 values isnull in
    (r.1.1, st.2, obs_row r.1.2 r.2)
  | op_slot_deform_tuple s k =>
    match st.2 !! s with
    | Some slot =>
      let r := slot_deform_tuple st.1 slot k in
      (r.1, <[s := r.2]> st.2,
       obs_row (take (Z.to_nat k) (tts_values r.2)) (take (Z.to_nat k) (tts_isnull r.2)))
    | None => (st.1, st.2, obs_none)
    end
  | op_nocachegetattr tuple attnum =>
    match nocachegetattr tuple attnum st.1 with
    | Some r => (r.1, st.2, obs_attr r.2)
    | None => (st.1, st.2, obs_none)
    end
  end.

Definition run_ops (ops : list decode_op) (st : TupleDesc * list TupleTableSlot)
    : TupleDesc * list TupleTableSlot :=
  fold_left (fun st op => (run_op st op).1) ops st.

(** What the cache-free byte walk gives for the same operation, on the
    descriptor and the slots as they were before any operation. *)
Definition bytewalk_op (td0 : TupleDesc) (slots0 : list TupleTableSlot) (op : decode_op)
    : observation :=
  match op with
  | op_heap_deform_tuple tuple values isnull =>
    let r := bytewalk_deform tuple td0 values isnull in obs_row r.1 r.2
  | op_slot_deform_tuple s k =>
    match slots0 !! s with
    | Some slot0 =>
      let r := bytewalk_fill (desc_att td0) (tup_of (slot_tuple slot0))
                 (HeapTupleHasNulls (slot_tuple slot0)) 0 (Z.to_nat k)
                 (tts_values slot0) (tts_isnull slot0) in
      obs_row (take (Z.to_nat k) r.1) (take (Z.to_nat k) r.2)
    | None => obs_none
    end
  | op_nocachegetattr tuple attnum =>
    obs_attr (bytewalk_value (desc_att td0) (tup_of tuple) (HeapTupleHasNulls tuple)
                (Z.to_nat (attnum - 1))).1
  end.

(** The invariant of the descriptor and the slots under the operations. *)
Definition sys_inv (td0 : TupleDesc) (slots0 : list TupleTableSlot)
    (st : TupleDesc * list TupleTableSlot) : Prop :=
  desc_same td0 st.1 /\ cache_ok (desc_att st.1) /\ length st.2 = length slots0 /\
  forall s slot0 slot, slots0 !! s = Some slot0 -> st.2 !! s = Some slot ->
    slot_inv (desc_att td0) slot0 st.1 slot.

(** Whether [fill_val] stores the bytes of a pass-by-reference value as
    they are: every value except an expanded object, which is flattened,
    and a 4-byte-header varlena that is converted to the short form. *)
Definition stored_as_given (a : FormData_pg_attribute) (d : Datum) : bool :=
  negb ((attlen a =? -1)
        && (VARATT_IS_EXTERNAL_EXPANDED (DatumGetPointer d)
            || (VARLENA_ATT_IS_PACKABLE a && VARATT_CAN_MAKE_SHORT (DatumGetPointer d)))).

(** ** Example descriptors and rows *)

(** The parameters of the examples: an offset of [t_bits] in the header,
    no expanded objects, a shard map that sends every key to shard 0, and a
    wire-row decoder that is never reached. *)
Definition example_t_bits_off : Z := 23.
Definition example_EOH_flat : list Z -> list Z := fun _ => [].
Definition example_EvaluateShardId : Z -> bool -> Datum -> Z -> bool -> Datum -> Z -> Z :=
  fun _ _ _ _ _ _ _ => 0.
Definition example_DataRow_decode : TupleDesc -> list Z -> result (list Datum * list bool) :=
  fun _ _ => Err ERRCODE_DATA_CORRUPTED.

(** An int4 column, a text column with storage 'x' (packable) and one with
    storage 'p'. *)
Definition example_int4 : FormData_pg_attribute :=
  mk_att 23 4 (-1) true "p" "i" false false.
Definition example_text : FormData_pg_attribute :=
  mk_att 25 (-1) (-1) false "x" "i" false false.
Definition example_text_plain : FormData_pg_attribute :=
  mk_att 25 (-1) (-1) false "p" "i" false false.

(** The descriptor (int4, text, int4). *)
Definition example_desc : TupleDesc :=
  mk_tupdesc 3 [example_int4; example_text; example_int4] [] false None 0 (-1) false.

(** The text 'ab' with a 4-byte header (a varlena of 6 bytes), and the same
    text with a 1-byte header (3 bytes). *)
Definition example_ab : list Z := [0; 0; 0; 6; 97; 98].
Definition example_ab_short : list Z := [131; 97; 98].

(** The rows (7, 'ab', 99) and (7, NULL, 99). *)
Definition example_values : list Datum := [DatumVal 7; DatumPtr example_ab; DatumVal 99].
Definition example_no_null : list bool := [false; false; false].
Definition example_one_null : list bool := [false; true; false].

(** The descriptor (int4) of the rows written before columns were added. *)
Definition example_desc_1 : TupleDesc :=
  mk_tupdesc 1 [example_int4] [] false None 0 (-1) false.

(** The descriptor (int4, int4) whose second column was added with the
    default 42 and later dropped: the column is still marked atthasmissing
    and its entry of constr->missing is still present. *)
Definition example_desc_dropped : TupleDesc :=
  mk_tupdesc 2 [example_int4; mk_att 23 4 (-1) true "p" "i" true true] [] false
    (Some (mk_constr (Some [mk_missing false (DatumVal 0); mk_missing true (DatumVal 42)])))
    0 (-1) false.

(** The descriptor (int4, int4, int4) whose second column was added without
    a default and whose third column was added with the default 42. *)
Definition example_desc_added : TupleDesc :=
  mk_tupdesc 3 [example_int4; example_int4; mk_att 23 4 (-1) true "p" "i" true false] [] false
    (Some (mk_constr (Some [mk_missing false (DatumVal 0); mk_missing false (DatumVal 0);
                            mk_missing true (DatumVal 42)])))
    0 (-1) false.

(** The descriptor (int4, text, int4) of a table with object ids. *)
Definition example_desc_oid : TupleDesc :=
  mk_tupdesc 3 [example_int4; example_text; example_int4] [] false None 0 (-1) true.

(** A slot that holds a tuple and has no valid entry yet. *)
Definition example_slot (tuple : HeapTupleData) (n : Z) : TupleTableSlot :=
  mk_slot (Some tuple) false (palloc_values n) (palloc_isnull n) 0 0 false None.

(** The claim that a decoded value equals the value given: the same scalar,
    or the same [size] bytes behind the pointer. *)
Definition byte_equal (size : Z) (given decoded : Datum) : Prop :=
  match given, decoded with
  | DatumVal v, DatumVal v' => v = v'
  | DatumPtr m, DatumPtr m' => take (Z.to_nat size) m' = take (Z.to_nat size) m
  | _, _ => False
  end.

(** ** Reference definitions for the further properties *)

(** A non-null value of variable width: a varlena or a cstring. *)
Definition is_varwidth (a : FormData_pg_attribute) : bool :=
  negb (attbyval a) && ((attlen a =? -1) || (attlen a =? -2)).

(** A non-null value stored as an external reference: an external varlena
    that is not an expanded object. *)
Definition is_external_ref (a : FormData_pg_attribute) (d : Datum) : bool :=
  negb (attbyval a) && (attlen a =? -1)
  && VARATT_IS_EXTERNAL (DatumGetPointer d)
  && negb (VARATT_IS_EXTERNAL_EXPANDED (DatumGetPointer d)).

(** The missing values of a descriptor agree with its columns, as the
    relation cache builds them: an entry of constr->missing is present
    exactly for a column marked atthasmissing, and no dropped column is
    marked. *)
Definition missing_consistent (td : TupleDesc) : bool :=
  forallb (fun i =>
             let a := attrs td !!! i in
             let m : AttrMissing := default [] (attrmiss_of td) !!! i in
             Bool.eqb (ammissingPresent m) (atthasmissing a)
             && negb (attisdropped a && atthasmissing a))
          (seq 0 (Z.to_nat (natts td))).

(** * Properties *)

(** Linear arithmetic with divisions and remainders by constants. *)
Ltac div_lia := Z.to_euclidean_division_equations; lia.

(** ** Alignment *)

Lemma TYPEALIGN_pow2 (k x : Z) :
  0 <= k -> TYPEALIGN (2 ^ k) x = (x + (2 ^ k - 1)) / 2 ^ k * 2 ^ k.
Proof.
  intros Hk. unfold TYPEALIGN.
  replace (2 ^ k - 1) with (Z.ones k) by (rewrite Z.ones_equiv; lia).
  rewrite <- Z.ldiff_land, Z.ldiff_ones_r by lia.
  rewrite Z.shiftl_mul_pow2, Z.shiftr_div_pow2 by lia. reflexivity.
Qed.

Lemma SHORTALIGN_eq x : SHORTALIGN x = (x + 1) / 2 * 2.
Proof. exact (TYPEALIGN_pow2 1 x ltac:(lia)). Qed.

Lemma INTALIGN_eq x : INTALIGN x = (x + 3) / 4 * 4.
Proof. exact (TYPEALIGN_pow2 2 x ltac:(lia)). Qed.

Lemma DOUBLEALIGN_eq x : DOUBLEALIGN x = (x + 7) / 8 * 8.
Proof. exact (TYPEALIGN_pow2 3 x ltac:(lia)). Qed.

Lemma MAXALIGN_eq x : MAXALIGN x = (x + 7) / 8 * 8.
Proof. exact (TYPEALIGN_pow2 3 x ltac:(lia)). Qed.

(** Case analysis on the alignment class of [att_align_nominal]. *)
Ltac align_cases c :=
  unfold att_align_nominal;
  destruct (Ascii.eqb c "i"); [rewrite ?INTALIGN_eq|];
  [|destruct (Ascii.eqb c "c");
    [|destruct (Ascii.eqb c "d"); [rewrite ?DOUBLEALIGN_eq|rewrite ?SHORTALIGN_eq]]].

Lemma att_align_nominal_bounds x c :
  x <= att_align_nominal x c < x + 8.
Proof. align_cases c; div_lia. Qed.

Lemma att_align_nominal_idem x c :
  att_align_nominal (att_align_nominal x c) c = att_align_nominal x c.
Proof. align_cases c; div_lia. Qed.

(** Aligning an address of a MAXALIGNed block is aligning the offset. *)
Lemma att_align_nominal_shift h x c :
  h mod 8 = 0 -> att_align_nominal (h + x) c = h + att_align_nominal x c.
Proof. intros Hh. align_cases c; div_lia. Qed.

Lemma att_align_nominal_mono x y c :
  x <= y -> att_align_nominal x c <= att_align_nominal y c.
Proof. intros Hxy. align_cases c; div_lia. Qed.

Lemma MAXALIGN_bounds x : x <= MAXALIGN x < x + 8 /\ MAXALIGN x mod 8 = 0.
Proof. rewrite MAXALIGN_eq. div_lia. Qed.

Lemma MAXALIGN_mono x y : x <= y -> MAXALIGN x <= MAXALIGN y.
Proof. rewrite !MAXALIGN_eq. div_lia. Qed.

(** ** Bits *)

Lemma land_pow2_testbit (x k : Z) :
  0 <= k -> Z.land x (2 ^ k) = if Z.testbit x k then 2 ^ k else 0.
Proof.
  intros Hk. apply Z.bits_inj'. intros n Hn.
  rewrite Z.land_spec, Z.pow2_bits_eqb by lia.
  destruct (Z.eqb_spec k n) as [->|Hne].
  - destruct (Z.testbit x n); cbn.
    + rewrite Z.pow2_bits_eqb, Z.eqb_refl by lia. reflexivity.
    + rewrite Z.bits_0. reflexivity.
  - rewrite andb_false_r. destruct (Z.testbit x k).
    + rewrite Z.pow2_bits_eqb by lia. symmetry. apply Z.eqb_neq. exact Hne.
    + rewrite Z.bits_0. reflexivity.
Qed.

Lemma land_pow2_eq0 (x k : Z) :
  0 <= k -> (Z.land x (2 ^ k) =? 0) = negb (Z.testbit x k).
Proof.
  intros Hk. rewrite land_pow2_testbit by lia.
  destruct (Z.testbit x k); cbn; [|reflexivity].
  apply Z.eqb_neq. lia.
Qed.

Lemma att_isnull_testbit (i : Z) (bits : list Z) :
  0 <= i -> att_isnull i bits = negb (Z.testbit (peek bits (i / 8)) (i mod 8)).
Proof.
  intros Hi. unfold att_isnull.
  rewrite Z.shiftr_div_pow2 by lia.
  change 7 with (Z.ones 3). rewrite Z.land_ones by lia.
  rewrite Z.shiftl_1_l. change (2 ^ 3) with 8.
  apply land_pow2_eq0. div_lia.
Qed.

(** ** Copying *)

Lemma memcpy_block_idem td len :
  memcpy_block (memcpy_block td len) len = memcpy_block td len.
Proof.
  unfold memcpy_block, set_t_bytes; cbn. f_equal.
  rewrite take_take. f_equal. lia.
Qed.

(** C10: heap_copytuple returns NULL for an invalid tuple pointer and for a
    tuple whose t_data is NULL; for any other tuple it returns a copy with
    the same t_len, t_self and t_tableOid whose block holds the header
    fields and the t_len bytes of the original, and copying the copy gives
    the copy again. *)
Theorem heap_copytuple_copies (tuple : HeapTuple) :
  match tuple with
  | None => heap_copytuple tuple = None
  | Some t =>
    match t_data t with
    | None => heap_copytuple tuple = None
    | Some td =>
      exists c cd,
        heap_copytuple tuple = Some c /\ t_data c = Some cd /\
        t_len c = t_len t /\ t_self c = t_self t /\ t_tableOid c = t_tableOid t /\
        t_bytes cd = take (Z.to_nat (t_len t)) (t_bytes td) /\
        set_t_bytes (t_bytes td) cd = td /\
        (Z.of_nat (length (t_bytes td)) <= t_len t -> cd = td) /\
        heap_copytuple (Some c) = Some c
    end
  end.
Proof.
  destruct tuple as [t|]; [|reflexivity].
  destruct (t_data t) as [td|] eqn:Htd; cbn; rewrite Htd; [|reflexivity].
  eexists _, _. split; [reflexivity|]. cbn.
  repeat split.
  - destruct td; reflexivity.
  - intros Hlen. destruct td; unfold memcpy_block, set_t_bytes; cbn in *.
    f_equal. apply take_ge. lia.
  - rewrite memcpy_block_idem. reflexivity.
Qed.

(** ** Attribute numbers beyond the descriptor *)

(** C9: for a positive attribute number beyond the descriptor's natts,
    slot_getattr returns the zero Datum with isnull set, and slot_attisnull
    returns true, without raising an error and without touching the slot.
    [tts_nvalid <= natts] is the slot's own invariant: no more attributes
    are valid than the descriptor has. *)
Theorem slot_getattr_beyond_natts (tupleDesc : TupleDesc) (slot : TupleTableSlot) (attnum : Z) :
  0 < attnum -> natts tupleDesc < attnum -> tts_nvalid slot <= natts tupleDesc ->
  slot_getattr tupleDesc slot attnum = OK (tupleDesc, slot, DatumVal 0, true) /\
  slot_attisnull tupleDesc slot attnum = OK (slot, true).
Proof.
  intros Hpos Hbeyond Hnvalid. unfold slot_getattr, slot_attisnull.
  destruct (Z.leb_spec attnum 0); [lia|].
  destruct (Z.leb_spec attnum (tts_nvalid slot)); [lia|].
  destruct (Z.ltb_spec (natts tupleDesc) attnum); [|lia].
  split; reflexivity.
Qed.

(** The operations that set tts_nvalid keep it within the descriptor. *)
Lemma slot_getsomeattrs_nvalid tupleDesc slot attnum tupleDesc' slot' :
  0 <= natts tupleDesc -> tts_nvalid slot <= natts tupleDesc ->
  slot_getsomeattrs tupleDesc slot attnum = OK (tupleDesc', slot') ->
  tts_nvalid slot' <= natts tupleDesc.
Proof.
  intros Hn Hnvalid. unfold slot_getsomeattrs.
  destruct (Z.leb_spec attnum (tts_nvalid slot)); [intros [= <- <-]; exact Hnvalid|].
  case_bool_decide.
  - unfold slot_deform_datarow.
    destruct (Z.eqb_spec (tts_nvalid slot) (natts tupleDesc)); cbn.
    + intros [= <- <-]. exact Hnvalid.
    + destruct (DataRow_decode _ _); cbn; [|discriminate].
      intros [= <- <-]. cbn. lia.
  - destruct (Z.leb_spec attnum 0); cbn; [discriminate|].
    destruct (Z.ltb_spec (natts tupleDesc) attnum); cbn; [discriminate|].
    destruct (tts_tuple slot); [|discriminate].
    destruct (slot_deform_tuple _ _ _) as [td1 s1].
    intros [= <- <-]. cbn. lia.
Qed.

(** ** The data cursor *)

Lemma varlena_4B_U_not_1B (p : list Z) :
  VARATT_IS_4B_U p = true -> VARATT_IS_1B p = false /\ VARATT_IS_1B_E p = false.
Proof.
  unfold VARATT_IS_4B_U, VARATT_IS_1B, VARATT_IS_1B_E. intros H%Z.eqb_eq.
  assert (Z.land (byte0 p) 128 = 0) as H128.
  { change 128 with (Z.land 192 128). rewrite Z.land_assoc, H. reflexivity. }
  split; apply Z.eqb_neq; [lia|].
  intros Heq. rewrite Heq in H128. discriminate.
Qed.

Lemma varlena_1B_E_is_1B (p : list Z) :
  VARATT_IS_1B_E p = true -> VARATT_IS_1B p = true.
Proof.
  unfold VARATT_IS_1B_E, VARATT_IS_1B. intros ->%Z.eqb_eq. reflexivity.
Qed.

Lemma varlena_can_make_short (p : list Z) :
  VARATT_CAN_MAKE_SHORT p = true ->
  VARATT_IS_EXTERNAL p = false /\ VARATT_IS_SHORT p = false.
Proof.
  unfold VARATT_CAN_MAKE_SHORT. intros [H _]%andb_true_iff.
  destruct (varlena_4B_U_not_1B _ H). split; assumption.
Qed.

(** The data cursor after [fill_val]: a null column of a tuple with a
    bitmap stores nothing; any other column starts at [stored_start] and
    takes [data_length_of] bytes. *)
Lemma fill_val_data a bit_given st d isnull :
  fs_data (fill_val a bit_given st d isnull) =
  if bit_given && isnull then fs_data st
  else stored_start a d (fs_data st) + data_length_of a d.
Proof.
  unfold fill_val, stored_start, stored_aligned, data_length_of.
  destruct bit_given, isnull; cbn [andb];
    repeat match goal with
           | |- context [if ?b then _ else _] => destruct b eqn:?; cbn [fs_data negb]
           end; try reflexivity; try discriminate.
Qed.

Lemma fill_val_bit_given a bit_given st d isnull :
  is_Some (fs_bit (fill_val a bit_given st d isnull)) <-> is_Some (fs_bit st).
Proof.
  unfold fill_val.
  destruct bit_given, isnull; cbn [andb];
    repeat match goal with
           | |- context [if ?b then _ else _] => destruct b eqn:?; cbn [fs_bit]
           end; try reflexivity; rewrite fmap_is_Some; reflexivity.
Qed.

(** One iteration of heap_compute_data_size agrees with [fill_val]. *)
Lemma compute_step_agrees a d len :
  att_wellformed a = true ->
  (if ATT_IS_PACKABLE a && VARATT_CAN_MAKE_SHORT (DatumGetPointer d)
   then len + VARATT_CONVERTED_SHORT_SIZE (DatumGetPointer d)
   else if (attlen a =? -1) && VARATT_IS_EXTERNAL_EXPANDED (DatumGetPointer d)
   then att_align_nominal len (attalign a) + EOH_get_flat_size (DatumGetEOHP d)
   else att_addlength_datum (att_align_datum len (attalign a) (attlen a) d) (attlen a) d)
  = stored_start a d len + data_length_of a d.
Proof.
  unfold att_wellformed, ATT_IS_PACKABLE, stored_start,
    stored_aligned, data_length_of, att_addlength_datum, att_addlength_pointer,
    att_align_datum, VARSIZE_ANY, VARATT_IS_EXTERNAL_EXPANDED, VARATT_IS_EXTERNAL,
    VARATT_IS_SHORT, DatumGetEOHP, VARLENA_ATT_IS_PACKABLE.
  intros Hwf.
  destruct (attbyval a).
  - (* pass-by-value: one of the scalar widths *)
    destruct (Z.eqb_spec (attlen a) (-1)) as [E|_]; [rewrite E in Hwf; discriminate|].
    cbn [andb]. destruct (Z.ltb_spec 0 (attlen a)) as [_|Hle]; [reflexivity|].
    repeat (apply orb_prop in Hwf as [Hwf|Hwf]); apply Z.eqb_eq in Hwf; lia.
  - destruct (Z.eqb_spec (attlen a) (-1)) as [E|Hne1]; cbn [andb].
    + rewrite E. cbn [Z.ltb Z.compare Z.eqb].
      destruct (negb (attstorage a =? "p")%char); cbn [andb].
      * destruct (VARATT_CAN_MAKE_SHORT (DatumGetPointer d)) eqn:Hshort.
        -- destruct (varlena_can_make_short _ Hshort) as [Hext H1b].
           unfold VARATT_IS_EXTERNAL, VARATT_IS_SHORT in Hext, H1b.
           rewrite Hext, H1b. reflexivity.
        -- destruct (VARATT_IS_1B_E (DatumGetPointer d)) eqn:Hext; cbn [andb].
           ++ rewrite (varlena_1B_E_is_1B _ Hext).
              destruct (VARTAG_IS_EXPANDED _); reflexivity.
           ++ destruct (VARATT_IS_1B (DatumGetPointer d)); reflexivity.
      * destruct (VARATT_IS_1B_E (DatumGetPointer d)) eqn:Hext; cbn [andb].
        -- rewrite (varlena_1B_E_is_1B _ Hext).
           destruct (VARTAG_IS_EXPANDED _); reflexivity.
        -- destruct (VARATT_IS_1B (DatumGetPointer d)); reflexivity.
    + destruct (Z.ltb_spec 0 (attlen a)) as [Hpos|Hle].
      * destruct (Z.eqb_spec (attlen a) (-2)); [lia|reflexivity].
      * cbn [orb] in Hwf. apply andb_prop in Hwf as [E2 Hc].
        rewrite E2. unfold att_align_nominal. rewrite Hc.
        destruct (attalign a =? "i")%char eqn:Hi; [|reflexivity].
        apply Ascii.eqb_eq in Hi, Hc. congruence.
Qed.

Lemma heap_fill_tuple_loop_data att values isnull i n st start :
  (forall j, (i <= j < i + n)%nat -> att_wellformed (att !!! j) = true) ->
  (fs_bit st = None -> forall j, (i <= j < i + n)%nat -> isnull !!! j = false) ->
  fs_data st = data_end att values isnull start i ->
  fs_data (heap_fill_tuple_loop att (Some values) (Some isnull) i n st)
  = data_end att values isnull start (i + n).
Proof.
  revert i st. induction n as [|n IH]; intros i st Hwf Hbit Hst; cbn [heap_fill_tuple_loop].
  - rewrite Nat.add_0_r. exact Hst.
  - replace (i + S n)%nat with (S i + n)%nat by lia. apply IH.
    + intros j Hj. apply Hwf. lia.
    + intros Hnone j Hj. apply Hbit; [|lia].
      destruct (fs_bit st) eqn:Hb; [|reflexivity].
      exfalso.
      assert (is_Some (fs_bit (fill_val (att !!! i) (bool_decide (is_Some (Some z))) st
                                        (values !!! i) (isnull !!! i)))) as [x Hx].
      { apply fill_val_bit_given. rewrite Hb. eauto. }
      congruence.
    + rewrite fill_val_data. cbn [data_end]. rewrite <- Hst.
      destruct (isnull !!! i) eqn:Hnull.
      * case_bool_decide as Hsome; [reflexivity|].
        exfalso. assert (fs_bit st = None) as Hnone.
        { destruct (fs_bit st); [exfalso; apply Hsome; eauto|reflexivity]. }
        specialize (Hbit Hnone i ltac:(lia)). congruence.
      * rewrite andb_false_r. reflexivity.
Qed.

Lemma heap_compute_data_size_loop_end att values isnull i n len :
  (forall j, (i <= j < i + n)%nat -> att_wellformed (att !!! j) = true) ->
  len = data_end att values isnull 0 i ->
  heap_compute_data_size_loop att values isnull i n len
  = data_end att values isnull 0 (i + n).
Proof.
  revert i len. induction n as [|n IH]; intros i len Hwf Hlen;
    cbn [heap_compute_data_size_loop].
  - rewrite Nat.add_0_r. exact Hlen.
  - replace (i + S n)%nat with (S i + n)%nat by lia.
    assert (forall j, (S i <= j < S i + n)%nat -> att_wellformed (att !!! j) = true) as Hwf'.
    { intros j Hj. apply Hwf. lia. }
    destruct (isnull !!! i) eqn:Hnull.
    + apply IH; [exact Hwf'|]. cbn [data_end]. rewrite Hnull. exact Hlen.
    + rewrite <- (IH (S i)
        (stored_start (att !!! i) (values !!! i) len
         + data_length_of (att !!! i) (values !!! i)) Hwf').
      * rewrite <- (compute_step_agrees (att !!! i) (values !!! i) len)
          by (apply Hwf; lia).
        destruct (ATT_IS_PACKABLE _ && _); [reflexivity|].
        destruct (_ && _); reflexivity.
      * cbn [data_end]. rewrite Hnull, <- Hlen. reflexivity.
Qed.

(** The data cursor of a block at a MAXALIGNed address moves as the
    offsets of heap_compute_data_size do. *)
Lemma data_end_shift att values isnull start k :
  start mod 8 = 0 ->
  data_end att values isnull start k = start + data_end att values isnull 0 k.
Proof.
  intros Hstart. induction k as [|k IH]; cbn [data_end]; [lia|].
  destruct (isnull !!! k); [exact IH|].
  rewrite IH. unfold stored_start.
  destruct (stored_aligned _ _); [|lia].
  rewrite att_align_nominal_shift by exact Hstart. lia.
Qed.

(** C2: the number of data bytes heap_fill_tuple writes, that is the
    distance its data cursor advances, is heap_compute_data_size of the same
    descriptor and arrays.  The columns are well-formed, the data area
    starts at a MAXALIGNed address, and the caller passes a bitmap whenever
    a column is null, as heap_form_tuple does. *)
Theorem heap_fill_tuple_size_agreement (tupleDesc : TupleDesc) (values : list Datum)
    (isnull : list bool) (data data_size infomask : Z) (bit : option Z) (m : list Z) :
  (forall i, (i < Z.to_nat (natts tupleDesc))%nat ->
             att_wellformed (desc_att tupleDesc !!! i) = true) ->
  data mod 8 = 0 ->
  (bit = None -> forall i, (i < Z.to_nat (natts tupleDesc))%nat -> isnull !!! i = false) ->
  (heap_fill_tuple tupleDesc (Some values) (Some isnull) data data_size infomask bit m).2
  - data
  = heap_compute_data_size tupleDesc values isnull.
Proof.
  intros Hwf Hdata Hbit. unfold heap_fill_tuple, heap_compute_data_size.
  destruct bit as [b|]; cbn [snd].
  - rewrite (heap_fill_tuple_loop_data _ _ _ 0 _ _ data); cbn [fs_bit fs_data data_end];
      [|intros; apply Hwf; lia|discriminate|reflexivity].
    rewrite (heap_compute_data_size_loop_end _ _ _ 0 _ 0); cbn [data_end];
      [|intros; apply Hwf; lia|reflexivity].
    rewrite data_end_shift by exact Hdata. cbn [Nat.add]. lia.
  - rewrite (heap_fill_tuple_loop_data _ _ _ 0 _ _ data); cbn [fs_bit fs_data data_end];
      [|intros; apply Hwf; lia|intros _ j Hj; apply Hbit; [reflexivity|lia]|reflexivity].
    rewrite (heap_compute_data_size_loop_end _ _ _ 0 _ 0); cbn [data_end];
      [|intros; apply Hwf; lia|reflexivity].
    rewrite data_end_shift by exact Hdata. cbn [Nat.add]. lia.
Qed.

(** ** Memory *)

Lemma memcpy_splice m dst src n :
  memcpy m dst src n = splice m dst (take (Z.to_nat n) src).
Proof. reflexivity. Qed.

Lemma length_splice m p bytes :
  (Z.to_nat p + length bytes <= length m)%nat ->
  length (splice m p bytes) = length m.
Proof.
  intros H. unfold splice. rewrite !length_app, length_take, length_drop. lia.
Qed.

Lemma lookup_splice_lt m p bytes (i : nat) :
  (i < Z.to_nat p)%nat -> (i < length m)%nat -> splice m p bytes !! i = m !! i.
Proof.
  intros Hi Hlen. unfold splice.
  rewrite lookup_app_l by (rewrite length_take; lia).
  apply lookup_take_lt. lia.
Qed.

Lemma peek_splice_lt m p bytes q :
  0 <= q < p -> q < Z.of_nat (length m) -> peek (splice m p bytes) q = peek m q.
Proof.
  intros Hq Hlen. unfold peek. rewrite lookup_splice_lt by lia. reflexivity.
Qed.

Lemma mem_at_splice m p bytes :
  (Z.to_nat p <= length m)%nat ->
  mem_at (splice m p bytes) p = bytes ++ drop (Z.to_nat p + length bytes) m.
Proof.
  intros H. unfold mem_at, splice.
  rewrite drop_app_length'; [reflexivity|]. rewrite length_take. lia.
Qed.

Lemma mem_at_mem_at m p q :
  0 <= p -> 0 <= q -> mem_at (mem_at m p) q = mem_at m (p + q).
Proof.
  intros Hp Hq. unfold mem_at. rewrite drop_drop. f_equal. lia.
Qed.

Lemma peek_poke_eq m p b :
  0 <= p < Z.of_nat (length m) -> peek (poke m p b) p = b.
Proof.
  intros H. unfold peek, poke. rewrite list_lookup_insert_eq by lia. reflexivity.
Qed.

Lemma peek_poke_ne m p q b :
  0 <= p -> 0 <= q -> p <> q -> peek (poke m p b) q = peek m q.
Proof.
  intros Hp Hq Hne. unfold peek, poke. rewrite list_lookup_insert_ne by lia. reflexivity.
Qed.

Lemma length_poke m p b : length (poke m p b) = length m.
Proof. apply length_insert. Qed.

Lemma mem_at_poke_lt m p q b :
  0 <= p < q -> mem_at (poke m p b) q = mem_at m q.
Proof. intros H. unfold mem_at, poke. apply drop_insert_lt. lia. Qed.

Lemma length_encode_be n v : length (encode_be n v) = n.
Proof.
  revert v. induction n as [|n IH]; intros v; cbn; [reflexivity|].
  rewrite length_app, IH. cbn. lia.
Qed.

Lemma decode_be_snoc l b : decode_be (l ++ [b]) = decode_be l * 256 + b.
Proof. unfold decode_be. rewrite fold_left_app. reflexivity. Qed.

Lemma decode_encode_be n v : decode_be (encode_be n v) = v mod 256 ^ Z.of_nat n.
Proof.
  revert v. induction n as [|n IH]; intros v.
  - cbn. rewrite Z.mod_1_r. reflexivity.
  - cbn [encode_be]. rewrite decode_be_snoc, IH.
    rewrite Nat2Z.inj_succ, Z.pow_succ_r by lia.
    rewrite Z.rem_mul_r by (try lia; apply Z.pow_pos_nonneg; lia). lia.
Qed.

Lemma to_signed_mod (n : nat) (v : Z) :
  (0 < n)%nat -> - 2 ^ (8 * Z.of_nat n - 1) <= v < 2 ^ (8 * Z.of_nat n - 1) ->
  to_signed n (v mod 256 ^ Z.of_nat n) = v.
Proof.
  intros Hn Hv. unfold to_signed.
  assert (256 ^ Z.of_nat n = 2 ^ (8 * Z.of_nat n)) as ->.
  { change 256 with (2 ^ 8). rewrite <- Z.pow_mul_r by lia. reflexivity. }
  assert (2 ^ (8 * Z.of_nat n) = 2 * 2 ^ (8 * Z.of_nat n - 1)) as Hpow.
  { rewrite <- Z.pow_succ_r by lia. f_equal. lia. }
  assert (0 < 2 ^ (8 * Z.of_nat n - 1)) by (apply Z.pow_pos_nonneg; lia).
  destruct (Z.le_gt_cases 0 v) as [Hpos|Hneg].
  - rewrite Z.mod_small by lia.
    destruct (Z.ltb_spec v (2 ^ (8 * Z.of_nat n - 1))); lia.
  - replace (v mod 2 ^ (8 * Z.of_nat n)) with (v + 2 ^ (8 * Z.of_nat n)).
    + destruct (Z.ltb_spec (v + 2 ^ (8 * Z.of_nat n)) (2 ^ (8 * Z.of_nat n - 1))); lia.
    + apply Z.mod_unique with (q := -1); lia.
Qed.

(** Storing a scalar of the column's width and fetching it back. *)
Lemma fetch_store_byval a v rest :
  attbyval a = true -> att_wellformed a = true ->
  - 2 ^ (8 * attlen a - 1) <= v < 2 ^ (8 * attlen a - 1) ->
  fetchatt a (encode_be (Z.to_nat (attlen a)) v ++ rest) = DatumVal v.
Proof.
  intros Hbyval Hwf Hv. unfold fetchatt, fetch_att. rewrite Hbyval.
  unfold att_wellformed in Hwf. rewrite Hbyval in Hwf.
  assert (forall n : nat, (0 < n)%nat -> attlen a = Z.of_nat n ->
            to_signed n (decode_be (take n (encode_be (Z.to_nat (attlen a)) v ++ rest))) = v)
    as Hfetch.
  { intros n Hn Hlen. rewrite Hlen, Nat2Z.id.
    rewrite take_app_length' by (symmetry; apply length_encode_be).
    rewrite decode_encode_be. apply to_signed_mod; [exact Hn|].
    rewrite <- Hlen. exact Hv. }
  destruct (Z.eqb_spec (attlen a) 8); [rewrite (Hfetch 8%nat); [reflexivity|lia|lia]|].
  destruct (Z.eqb_spec (attlen a) 4); [rewrite (Hfetch 4%nat); [reflexivity|lia|lia]|].
  destruct (Z.eqb_spec (attlen a) 2); [rewrite (Hfetch 2%nat); [reflexivity|lia|lia]|].
  destruct (Z.eqb_spec (attlen a) 1); [rewrite (Hfetch 1%nat); [reflexivity|lia|lia]|].
  discriminate.
Qed.

(** ** What [fill_val] stores *)

Lemma strlen_nonneg s : 0 <= strlen s.
Proof. induction s as [|c s IH]; cbn; [lia|]. destruct (c =? 0); lia. Qed.

Lemma strlen_le_length s : strlen s <= Z.of_nat (length s).
Proof. induction s as [|c s IH]; cbn [strlen length]; [lia|]. destruct (c =? 0); lia. Qed.

Lemma VARTAG_SIZE_nonneg tag : 0 <= VARTAG_SIZE tag.
Proof.
  unfold VARTAG_SIZE. destruct (tag =? _); [lia|].
  destruct (VARTAG_IS_EXPANDED tag); [lia|]. destruct (tag =? _); lia.
Qed.

Lemma VARSIZE_EXTERNAL_ge p : 2 <= VARSIZE_EXTERNAL p.
Proof.
  unfold VARSIZE_EXTERNAL, VARHDRSZ_EXTERNAL.
  pose proof (VARTAG_SIZE_nonneg (VARTAG_EXTERNAL p)). lia.
Qed.

(** Under well-formedness the stored bytes are as many as the cursor
    advances, and at least one. *)
Lemma length_stored a d :
  att_wellformed a = true -> datum_wellformed a d = true ->
  Z.of_nat (length (stored a d)) = data_length_of a d /\ 0 < data_length_of a d.
Proof.
  unfold att_wellformed, datum_wellformed, stored, data_length_of, EOH_get_flat_size,
    DatumGetEOHP.
  intros Hatt Hd. destruct d as [v|m]; cbn [DatumGetPointer DatumGetValue].
  - (* a scalar *)
    apply andb_prop in Hd as [Hd _]. apply andb_prop in Hd as [Hbyval _].
    rewrite Hbyval in *. rewrite length_encode_be.
    repeat (apply orb_prop in Hatt as [Hatt|Hatt]); apply Z.eqb_eq in Hatt; lia.
  - apply andb_prop in Hd as [Hbyval Hd]. apply negb_true_iff in Hbyval.
    rewrite Hbyval in *.
    destruct (Z.eqb_spec (attlen a) (-1)) as [E1|Hne1].
    + destruct (VARATT_IS_EXTERNAL m) eqn:Hext.
      * destruct (VARATT_IS_EXTERNAL_EXPANDED m) eqn:Hexp.
        -- apply andb_prop in Hd as [Hd _]. apply Z.leb_le in Hd. lia.
        -- apply Z.leb_le in Hd. pose proof (VARSIZE_EXTERNAL_ge m).
           rewrite length_take. lia.
      * destruct (VARATT_IS_SHORT m) eqn:Hshort.
        -- apply andb_prop in Hd as [Hd1 Hd2]. apply Z.leb_le in Hd1, Hd2.
           rewrite length_take. lia.
        -- apply andb_prop in Hd as [Hd1 Hd2]. apply Z.leb_le in Hd1, Hd2.
           unfold VARHDRSZ in Hd1.
           destruct (VARLENA_ATT_IS_PACKABLE a && VARATT_CAN_MAKE_SHORT m).
           ++ unfold VARATT_CONVERTED_SHORT_SIZE, VARDATA, mem_at, VARHDRSZ, VARHDRSZ_SHORT.
              cbn [length]. rewrite length_take, length_drop. lia.
           ++ rewrite length_take. lia.
    + destruct (Z.eqb_spec (attlen a) (-2)) as [E2|Hne2].
      * apply Z.ltb_lt in Hd. pose proof (strlen_nonneg m).
        rewrite length_take. lia.
      * apply Z.leb_le in Hd. rewrite !orb_false_r in Hatt. apply Z.ltb_lt in Hatt.
        rewrite length_take. lia.
Qed.

Lemma fill_val_bits a bit_given st d isnull :
  fs_bit (fill_val a bit_given st d isnull) = (fill_bit_step bit_given st isnull).1.1 /\
  fs_bitmask (fill_val a bit_given st d isnull) = (fill_bit_step bit_given st isnull).1.2.
Proof.
  unfold fill_val, fill_bit_step.
  destruct bit_given, isnull; cbn [andb];
    repeat match goal with
           | |- context [if ?b then _ else _] =>
             destruct b eqn:?; cbn [fs_bit fs_bitmask fst snd]
           end; split; reflexivity.
Qed.

Lemma fill_val_infomask a bit_given st d isnull :
  fs_infomask (fill_val a bit_given st d isnull) =
  if bit_given && isnull then Z.lor (fs_infomask st) HEAP_HASNULL
  else Z.lor (fs_infomask st) (value_flags a d).
Proof.
  unfold fill_val, value_flags.
  destruct bit_given, isnull; cbn [andb];
    repeat match goal with
           | |- context [if ?b then _ else _] =>
             destruct b eqn:?; cbn [fs_infomask andb negb]
           end;
    rewrite ?Z.lor_0_r, ?Z.lor_assoc; try reflexivity; try discriminate.
Qed.

Lemma fill_val_mem_null a st d :
  fs_mem (fill_val a true st d true) = (fill_bit_step true st true).2.
Proof.
  unfold fill_val, fill_bit_step. cbn [andb].
  destruct (negb (fs_bitmask st =? HIGHBIT)); reflexivity.
Qed.

(** The block after [fill_val] has stored a non-null value: the stored
    bytes sit at [stored_start]. *)
Lemma fill_val_mem a bit_given st d :
  att_wellformed a = true -> datum_wellformed a d = true ->
  0 <= stored_start a d (fs_data st) ->
  stored_start a d (fs_data st) + data_length_of a d
    <= Z.of_nat (length (fill_bit_step bit_given st false).2) ->
  fs_mem (fill_val a bit_given st d false)
  = splice (fill_bit_step bit_given st false).2 (stored_start a d (fs_data st)) (stored a d).
Proof.
  intros Hatt Hd Hp Hroom.
  destruct (length_stored a d Hatt Hd) as [Hlen Hpos].
  set (m2 := (fill_bit_step bit_given st false).2) in *.
  assert (fill_val a bit_given st d false =
          fill_val a false (mk_fill (fill_bit_step bit_given st false).1.1
                                    (fill_bit_step bit_given st false).1.2
                                    (fs_data st) (fs_infomask st) m2) d false) as ->.
  { subst m2. unfold fill_val, fill_bit_step. destruct bit_given; cbn [andb]; [|reflexivity].
    destruct (negb (fs_bitmask st =? HIGHBIT)); reflexivity. }
  revert Hlen Hpos Hp Hroom.
  unfold fill_val, stored_start, stored_aligned, stored, data_length_of,
    store_att_byval, EOH_flatten_into, EOH_get_flat_size, DatumGetEOHP.
  cbn [andb fs_data fs_mem fs_infomask fs_bit fs_bitmask].
  set (data := fs_data st). clearbody m2 data.
  unfold att_wellformed in Hatt.
  destruct (attbyval a).
  { intros Hlen _ _ _. cbn [fs_mem]. rewrite memcpy_splice. f_equal.
    apply take_ge. rewrite length_encode_be.
    repeat (apply orb_prop in Hatt as [Hatt|Hatt]); apply Z.eqb_eq in Hatt; lia. }
  destruct (attlen a =? -1).
  - destruct (VARATT_IS_EXTERNAL (DatumGetPointer d)).
    + destruct (VARATT_IS_EXTERNAL_EXPANDED (DatumGetPointer d)); intros Hlen _ _ _;
        cbn [fs_mem]; rewrite memcpy_splice; [|reflexivity].
      f_equal. apply take_ge. lia.
    + destruct (VARATT_IS_SHORT (DatumGetPointer d)); [intros; reflexivity|].
      destruct (VARLENA_ATT_IS_PACKABLE a && VARATT_CAN_MAKE_SHORT (DatumGetPointer d));
        [|intros; reflexivity].
      intros Hlen Hpos Hp Hroom. cbn [fs_mem negb]. cbn [negb] in Hp, Hroom.
      rewrite memcpy_splice. unfold SET_VARSIZE_SHORT, poke, splice.
      set (payload := take _ (VARDATA _)).
      rewrite Z2Nat.inj_add by lia. change (Z.to_nat 1) with 1%nat.
      rewrite Nat.add_1_r.
      rewrite (take_S_r _ _ (Z.lor (VARATT_CONVERTED_SHORT_SIZE (DatumGetPointer d)) 128
                             mod 256)) by (apply list_lookup_insert_eq; lia).
      rewrite take_insert_ge by lia. rewrite drop_insert_lt by lia.
      rewrite <- app_assoc. cbn [app length].
      replace (S (Z.to_nat data) + length payload)%nat
        with (Z.to_nat data + S (length payload))%nat by lia.
      reflexivity.
  - destruct (attlen a =? -2); intros; reflexivity.
Qed.

Lemma length_poke_bit bit m f : length (poke_bit bit m f) = length m.
Proof. destruct bit; cbn; [apply length_poke|reflexivity]. Qed.

Lemma length_fill_bit_step bit_given st isnull :
  length (fill_bit_step bit_given st isnull).2 = length (fs_mem st).
Proof.
  unfold fill_bit_step. destruct bit_given; [|reflexivity].
  destruct (negb (fs_bitmask st =? HIGHBIT)), isnull; cbn [snd];
    rewrite ?length_poke_bit; reflexivity.
Qed.

(** After [fill_val] has stored a non-null value, the stored bytes are
    found at [stored_start] and the cursor is just behind them. *)
Lemma fill_val_stored_at a bit_given st d :
  att_wellformed a = true -> datum_wellformed a d = true ->
  0 <= fs_data st ->
  stored_start a d (fs_data st) + data_length_of a d <= Z.of_nat (length (fs_mem st)) ->
  let st' := fill_val a bit_given st d false in
  mem_at (fs_mem st') (stored_start a d (fs_data st))
  = stored a d
    ++ drop (Z.to_nat (stored_start a d (fs_data st)) + length (stored a d))
            (fill_bit_step bit_given st false).2 /\
  fs_data st' = stored_start a d (fs_data st) + Z.of_nat (length (stored a d)).
Proof.
  intros Hatt Hd Hdata Hroom st'. subst st'.
  destruct (length_stored a d Hatt Hd) as [Hlen Hpos].
  assert (fs_data st <= stored_start a d (fs_data st)) as Hge.
  { unfold stored_start. destruct (stored_aligned a d); [|lia].
    apply att_align_nominal_bounds. }
  split.
  - rewrite fill_val_mem by (rewrite ?length_fill_bit_step; first [assumption|lia]).
    rewrite mem_at_splice by (rewrite length_fill_bit_step; lia). reflexivity.
  - rewrite fill_val_data, andb_false_r, Hlen. reflexivity.
Qed.

(** ** The short-form threshold *)

Lemma short_header (s : Z) :
  1 <= s <= 127 -> Z.lor s 128 mod 256 = s + 128.
Proof.
  intros Hs.
  assert (Z.land s 128 = 0) as Hland.
  { change 128 with (2 ^ 7). rewrite (land_pow2_testbit s 7) by lia.
    replace (Z.testbit s 7) with false; [reflexivity|].
    symmetry. apply Z.testbit_false; [lia|]. rewrite Z.div_small by lia. reflexivity. }
  pose proof (Z.add_lor_land s 128) as Hadd. rewrite Hland in Hadd.
  rewrite Z.mod_small; lia.
Qed.

Lemma short_header_bits (s : Z) :
  1 <= s <= 127 ->
  Z.land (s + 128) 128 = 128 /\ Z.land (s + 128) 127 = s /\ s + 128 <> 0 /\ s + 128 <> 128.
Proof.
  intros Hs. repeat split; try lia.
  - change (Z.land (s + 128) 128) with (Z.land (s + 128) (2 ^ 7)).
    rewrite (land_pow2_testbit (s + 128) 7) by lia.
    replace (Z.testbit (s + 128) 7) with true; [reflexivity|].
    symmetry. apply Z.testbit_true; [lia|].
    replace ((s + 128) / 2 ^ 7) with 1; [reflexivity|]. change (2 ^ 7) with 128. div_lia.
  - change 127 with (Z.ones 7). rewrite Z.land_ones by lia. change (2 ^ 7) with 128. div_lia.
Qed.

Lemma byte0_cons (x : Z) (l : list Z) : byte0 (x :: l) = x.
Proof. reflexivity. Qed.

Lemma mem_at_cons_1 (x : Z) (l : list Z) : mem_at (x :: l) 1 = l.
Proof. reflexivity. Qed.

Lemma byte0_app_take (n : nat) (val rest : list Z) :
  (0 < n <= length val)%nat -> byte0 (take n val ++ rest) = byte0 val.
Proof.
  intros Hn. unfold byte0. destruct val as [|b val]; [cbn in Hn; lia|].
  destruct n; [lia|]. reflexivity.
Qed.

Lemma take_app_take (n : nat) (val rest : list Z) :
  (n <= length val)%nat -> take n (take n val ++ rest) = take n val.
Proof.
  intros Hn. rewrite take_app_length'; [reflexivity|]. rewrite length_take. lia.
Qed.

(** C5, as amended: how [fill_val] writes a non-null variable-length value.
    A value supplied in plain 4-byte-header form is written in
    1-byte-header short form, without padding, exactly when the column is
    packable and the short form (payload plus one header byte) is at most
    127 bytes; otherwise it is copied with its 4-byte header at the aligned
    position.  A value that is already in 1-byte-header form (short, or an
    external reference that is not an expanded object) is copied as it is,
    unaligned, whatever the column's storage policy.  A compressed 4-byte
    value is copied aligned, and an expanded object is flattened at the
    aligned position. *)
Theorem fill_val_varlena_form (a : FormData_pg_attribute) (bit_given : bool)
    (st : fill_state) (val : list Z) :
  attlen a = -1 ->
  att_wellformed a = true ->
  datum_wellformed a (DatumPtr val) = true ->
  0 <= fs_data st ->
  att_align_nominal (fs_data st) (attalign a) + data_length_of a (DatumPtr val)
    <= Z.of_nat (length (fs_mem st)) ->
  let st' := fill_val a bit_given st (DatumPtr val) false in
  let data := fs_data st in
  let aligned := att_align_nominal data (attalign a) in
  if VARATT_IS_4B_U val then
    if VARLENA_ATT_IS_PACKABLE a && (VARSIZE val - VARHDRSZ + VARHDRSZ_SHORT <=? 127) then
      let short_size := VARSIZE val - VARHDRSZ + VARHDRSZ_SHORT in
      VARATT_IS_1B (mem_at (fs_mem st') data) = true /\
      VARATT_IS_1B_E (mem_at (fs_mem st') data) = false /\
      VARSIZE_1B (mem_at (fs_mem st') data) = short_size /\
      take (Z.to_nat (short_size - 1)) (mem_at (fs_mem st') (data + 1))
        = take (Z.to_nat (short_size - 1)) (VARDATA val) /\
      fs_data st' = data + short_size
    else
      VARATT_IS_4B_U (mem_at (fs_mem st') aligned) = true /\
      take (Z.to_nat (VARSIZE val)) (mem_at (fs_mem st') aligned)
        = take (Z.to_nat (VARSIZE val)) val /\
      fs_data st' = aligned + VARSIZE val
  else if VARATT_IS_1B val && negb (VARATT_IS_EXTERNAL_EXPANDED val) then
    VARATT_IS_1B (mem_at (fs_mem st') data) = true /\
    take (Z.to_nat (VARSIZE_ANY val)) (mem_at (fs_mem st') data)
      = take (Z.to_nat (VARSIZE_ANY val)) val /\
    fs_data st' = data + VARSIZE_ANY val
  else if VARATT_IS_EXTERNAL_EXPANDED val then
    take (length (EOH_flat val)) (mem_at (fs_mem st') aligned) = EOH_flat val /\
    fs_data st' = aligned + EOH_get_flat_size val
  else
    VARATT_IS_4B_C (mem_at (fs_mem st') aligned) = VARATT_IS_4B_C val /\
    take (Z.to_nat (VARSIZE val)) (mem_at (fs_mem st') aligned)
      = take (Z.to_nat (VARSIZE val)) val /\
    fs_data st' = aligned + VARSIZE val.
Proof.
  intros Hvar Hatt Hd Hdata Hroom. cbv zeta.
  set (st' := fill_val a bit_given st (DatumPtr val) false).
  set (data := fs_data st) in *.
  set (aligned := att_align_nominal data (attalign a)) in *.
  pose proof (att_align_nominal_bounds data (attalign a)) as Hal. fold aligned in Hal.
  assert (stored_start a (DatumPtr val) data + data_length_of a (DatumPtr val)
          <= Z.of_nat (length (fs_mem st))) as Hroom'.
  { unfold stored_start. destruct (stored_aligned _ _); fold aligned; lia. }
  fold data in Hroom'.
  destruct (fill_val_stored_at a bit_given st (DatumPtr val) Hatt Hd Hdata Hroom')
    as [Hmem Hcur].
  destruct (length_stored a (DatumPtr val) Hatt Hd) as [Hlen Hpos].
  fold data st' in Hmem, Hcur. rewrite Hlen in Hcur.
  set (rest := drop _ _) in Hmem. clearbody rest.
  revert Hmem Hcur Hlen Hpos. clear Hroom Hroom'.
  unfold datum_wellformed in Hd.
  apply andb_prop in Hd as [Hbyval Hd]. apply negb_true_iff in Hbyval.
  unfold stored_start, stored_aligned, stored, data_length_of, DatumGetEOHP,
    VARATT_IS_EXTERNAL_EXPANDED, VARSIZE_ANY, VARATT_CAN_MAKE_SHORT,
    VARATT_CONVERTED_SHORT_SIZE, VARATT_IS_EXTERNAL, VARATT_IS_SHORT in *.
  rewrite Hbyval, Hvar in *. change (-1 =? -1) with true in *.
  cbn [DatumGetPointer] in *. cbv iota in *.
  destruct (VARATT_IS_4B_U val) eqn:H4bu.
  - destruct (varlena_4B_U_not_1B _ H4bu) as [H1b H1be].
    rewrite H1b, H1be in *. cbn [andb].
    apply andb_prop in Hd as [Hd1 Hd2]. apply Z.leb_le in Hd1, Hd2.
    unfold VARHDRSZ, VARHDRSZ_SHORT, VARATT_SHORT_MAX in *.
    destruct (VARLENA_ATT_IS_PACKABLE a && (VARSIZE val - 4 + 1 <=? 127)) eqn:Hpack;
      cbn [negb]; fold aligned; intros Hmem Hcur Hlen Hpos.
    + apply andb_prop in Hpack as [_ Hle]. apply Z.leb_le in Hle.
      rewrite short_header in Hmem by lia.
      destruct (short_header_bits (VARSIZE val - 4 + 1) ltac:(lia)) as (Hb1 & Hb2 & Hb3 & Hb4).
      unfold VARATT_IS_1B, VARATT_IS_1B_E, VARSIZE_1B. rewrite Hmem.
      rewrite <- app_comm_cons, !byte0_cons, Hb1, Hb2.
      repeat split; try reflexivity; [apply Z.eqb_neq; exact Hb4| |exact Hcur].
      replace (mem_at (fs_mem st') (data + 1)) with (mem_at (mem_at (fs_mem st') data) 1)
        by (apply mem_at_mem_at; lia).
      rewrite Hmem, <- app_comm_cons, mem_at_cons_1.
      apply take_app_take. unfold VARDATA, mem_at, VARHDRSZ. rewrite length_drop. lia.
    + rewrite Hmem. unfold VARATT_IS_4B_U at 1.
      rewrite byte0_app_take by lia. fold (VARATT_IS_4B_U val).
      rewrite take_app_take by lia. auto.
  - destruct (VARATT_IS_1B val) eqn:H1b; cbn [andb].
    + destruct (VARATT_IS_1B_E val) eqn:H1be; cbn [andb].
      * destruct (VARTAG_IS_EXPANDED (VARTAG_EXTERNAL val)) eqn:Hexp; cbn [negb];
          fold aligned; intros Hmem Hcur Hlen Hpos.
        -- rewrite Hmem. rewrite take_app_length. auto.
        -- pose proof (VARSIZE_EXTERNAL_ge val). apply Z.leb_le in Hd.
           rewrite Hmem. unfold VARATT_IS_1B at 1.
           rewrite byte0_app_take by lia. fold (VARATT_IS_1B val).
           rewrite take_app_take by lia. auto.
      * cbn [negb]. intros Hmem Hcur Hlen Hpos.
        apply andb_prop in Hd as [Hd1 Hd2]. apply Z.leb_le in Hd1, Hd2.
        rewrite Hmem. unfold VARATT_IS_1B at 1.
        rewrite byte0_app_take by lia. fold (VARATT_IS_1B val).
        rewrite take_app_take by lia. auto.
    + assert (VARATT_IS_1B_E val = false) as H1be.
      { destruct (VARATT_IS_1B_E val) eqn:E; [|reflexivity].
        apply varlena_1B_E_is_1B in E. congruence. }
      rewrite H1be in *. cbn [andb negb]. rewrite !andb_false_r. cbn [negb].
      intros Hmem Hcur Hlen Hpos. fold aligned in Hmem, Hcur.
      apply andb_prop in Hd as [Hd1 Hd2]. apply Z.leb_le in Hd1, Hd2.
      unfold VARHDRSZ in *.
      rewrite Hmem. unfold VARATT_IS_4B_C at 1.
      rewrite byte0_app_take by lia. fold (VARATT_IS_4B_C val).
      rewrite take_app_take by lia. auto.
Qed.

(** ** The null bitmap *)

Lemma testbit_lor_pow2_mod (b e k : Z) :
  0 <= e < 8 -> 0 <= k < 8 ->
  Z.testbit (Z.lor b (2 ^ e) mod 256) k = Z.testbit b k || (k =? e).
Proof.
  intros He Hk. change 256 with (2 ^ 8).
  rewrite Z.mod_pow2_bits_low by lia.
  rewrite Z.lor_spec, Z.pow2_bits_eqb by lia.
  f_equal. apply Z.eqb_sym.
Qed.

Lemma pow2_lt8_cases (e : Z) :
  0 <= e < 8 ->
  (2 ^ e =? HIGHBIT) = (e =? 7) /\ Z.shiftl (2 ^ e) 1 = 2 ^ (e + 1).
Proof.
  intros He. split.
  - assert (e = 0 \/ e = 1 \/ e = 2 \/ e = 3 \/ e = 4 \/ e = 5 \/ e = 6 \/ e = 7) as Hcases
      by lia.
    repeat (destruct Hcases as [->|Hcases]; [reflexivity|]). subst. reflexivity.
  - rewrite Z.shiftl_mul_pow2, Z.pow_add_r by lia. reflexivity.
Qed.

(** The bitmap part of [fill_val] maintains [bits_inv]. *)
Lemma fill_bit_step_inv isnull b0 (i : nat) st :
  0 <= b0 -> b0 + Z.of_nat i / 8 < Z.of_nat (length (fs_mem st)) ->
  bits_inv isnull b0 i (fs_bit st) (fs_bitmask st) (fs_mem st) ->
  bits_inv isnull b0 (S i)
    (fill_bit_step true st (isnull !!! i)).1.1
    (fill_bit_step true st (isnull !!! i)).1.2
    (fill_bit_step true st (isnull !!! i)).2.
Proof.
  intros Hb0 Hlen (Hbit & Hmask & Hbits). unfold fill_bit_step, bits_inv.
  rewrite Hbit, Hmask. rewrite Nat2Z.inj_succ.
  set (z := Z.of_nat i) in *. assert (0 <= z) as Hz by lia.
  destruct (pow2_lt8_cases ((z + 7) mod 8) ltac:(div_lia)) as [Hhigh Hshift].
  rewrite Hhigh, Hshift.
  destruct (Z.eqb_spec ((z + 7) mod 8) 7) as [Hnew|Hsame]; cbn [negb fmap option_fmap option_map].
  - (* a new bitmap byte *)
    assert (z mod 8 = 0) as Hz0 by div_lia.
    assert (b0 + (z + 7) / 8 - 1 + 1 = b0 + z / 8) as Hidx by div_lia.
    assert (forall j, 0 <= j < 8 * ((Z.succ z + 7) / 8) ->
              Z.testbit (peek (poke (fs_mem st) (b0 + z / 8) 0) (b0 + j / 8)) (j mod 8)
              = (j <? z) && negb (isnull !!! Z.to_nat j)) as Hzero.
    { intros j Hj. destruct (Z.eq_dec (j / 8) (z / 8)) as [Heq|Hne].
      - rewrite Heq, peek_poke_eq by div_lia. rewrite Z.bits_0.
        destruct (Z.ltb_spec j z); [div_lia|reflexivity].
      - rewrite peek_poke_ne by div_lia. apply Hbits. div_lia. }
    destruct (isnull !!! i) eqn:Hnull; cbn [fst snd poke_bit]; rewrite Hidx;
      change (0 mod 256) with 0.
    + split; [f_equal; div_lia|].
      split; [replace ((Z.succ z + 7) mod 8) with 0 by div_lia; reflexivity|].
      intros j Hj. rewrite Hzero by exact Hj.
      destruct (Z.ltb_spec j z), (Z.ltb_spec j (Z.succ z)); try lia; try reflexivity.
      assert (j = z) as -> by lia. subst z. rewrite Nat2Z.id, Hnull. reflexivity.
    + split; [f_equal; div_lia|].
      split; [replace ((Z.succ z + 7) mod 8) with 0 by div_lia; reflexivity|].
      intros j Hj. rewrite peek_poke_eq by (rewrite ?length_poke; div_lia).
      destruct (Z.eq_dec (j / 8) (z / 8)) as [Heq|Hne].
      * rewrite Heq, peek_poke_eq by (rewrite ?length_poke; div_lia).
        change 1 with (2 ^ 0) at 1. rewrite testbit_lor_pow2_mod by div_lia.
        rewrite Z.bits_0. cbn [orb].
        destruct (Z.eqb_spec (j mod 8) 0), (Z.ltb_spec j (Z.succ z));
          try reflexivity; try div_lia.
        assert (j = z) as -> by div_lia. subst z. rewrite Nat2Z.id, Hnull. reflexivity.
      * rewrite peek_poke_ne by div_lia. rewrite Hzero by exact Hj.
        destruct (Z.ltb_spec j z), (Z.ltb_spec j (Z.succ z)); try div_lia; reflexivity.
  - (* the same bitmap byte *)
    assert (z mod 8 <> 0) as Hz0 by div_lia.
    assert (b0 + (z + 7) / 8 - 1 = b0 + z / 8) as Hidx by div_lia.
    destruct (isnull !!! i) eqn:Hnull; cbn [fst snd poke_bit].
    + split; [f_equal; div_lia|]. split; [f_equal; div_lia|].
      intros j Hj. rewrite Hbits by div_lia.
      destruct (Z.ltb_spec j z), (Z.ltb_spec j (Z.succ z)); try lia; try reflexivity.
      assert (j = z) as -> by lia. subst z. rewrite Nat2Z.id, Hnull. reflexivity.
    + split; [f_equal; div_lia|]. split; [f_equal; div_lia|].
      intros j Hj. rewrite Hidx.
      destruct (Z.eq_dec (j / 8) (z / 8)) as [Heq|Hne].
      * rewrite Heq, peek_poke_eq by div_lia.
        rewrite testbit_lor_pow2_mod by div_lia.
        rewrite <- Heq, Hbits by div_lia.
        destruct (Z.eqb_spec (j mod 8) ((z + 7) mod 8 + 1)), (Z.ltb_spec j z),
          (Z.ltb_spec j (Z.succ z)); try div_lia; cbn [andb orb]; try reflexivity.
        -- assert (j = z) as -> by div_lia. subst z. rewrite Nat2Z.id, Hnull. reflexivity.
        -- rewrite orb_false_r. reflexivity.
      * rewrite peek_poke_ne by div_lia. rewrite Hbits by div_lia.
        destruct (Z.ltb_spec j z), (Z.ltb_spec j (Z.succ z)); try div_lia; reflexivity.
Qed.

(** ** The loop of heap_fill_tuple *)

Lemma mem_at_splice_ge m p bytes h :
  0 <= h <= p -> p <= Z.of_nat (length m) ->
  mem_at (splice m p bytes) h = splice (mem_at m h) (p - h) bytes.
Proof.
  intros Hh Hp. unfold mem_at, splice.
  rewrite drop_app_le by (rewrite length_take; lia).
  rewrite take_drop_commute, drop_drop.
  replace (Z.to_nat h + Z.to_nat (p - h))%nat with (Z.to_nat p) by lia.
  replace (Z.to_nat h + (Z.to_nat (p - h) + length bytes))%nat
    with (Z.to_nat p + length bytes)%nat by lia.
  reflexivity.
Qed.

Lemma splice_app_zeros (img : list Z) (z pad : nat) (bytes : list Z) (p : Z) :
  Z.to_nat p = (length img + pad)%nat -> (pad + length bytes <= z)%nat ->
  splice (img ++ replicate z 0) p bytes
  = (img ++ replicate pad 0 ++ bytes) ++ replicate (z - pad - length bytes) 0.
Proof.
  intros Hp Hroom. unfold splice. rewrite Hp.
  rewrite take_app_add', take_replicate by reflexivity.
  rewrite <- Nat.add_assoc, drop_app_add', drop_replicate by reflexivity.
  rewrite <- !app_assoc.
  replace (z - (pad + length bytes))%nat with (z - pad - length bytes)%nat by lia.
  replace (pad `min` z)%nat with pad by lia.
  reflexivity.
Qed.

Section FillLoop.

Variables (att : list FormData_pg_attribute) (values : list Datum) (isnull : list bool).
Variables (hasbit : bool) (b0 hoff L im0 : Z) (n_atts : nat).

Hypothesis att_wf : forall j, (j < n_atts)%nat -> att_wellformed (att !!! j) = true.
Hypothesis values_wf : forall j, (j < n_atts)%nat -> isnull !!! j = false ->
  datum_wellformed (att !!! j) (values !!! j) = true.
Hypothesis nulls_have_bitmap : hasbit = false ->
  forall j, (j < n_atts)%nat -> isnull !!! j = false.

Lemma data_end_step k :
  (k < n_atts)%nat ->
  data_end att values isnull hoff k <= data_end att values isnull hoff (S k).
Proof.
  intros Hk. cbn [data_end]. destruct (isnull !!! k) eqn:Hnull; [lia|].
  destruct (length_stored _ _ (att_wf k Hk) (values_wf k Hk Hnull)) as [_ Hpos].
  unfold stored_start. destruct (stored_aligned _ _); [|lia].
  pose proof (att_align_nominal_bounds (data_end att values isnull hoff k)
                (attalign (att !!! k))). lia.
Qed.

Lemma data_end_mono k k' :
  (k <= k' <= n_atts)%nat ->
  data_end att values isnull hoff k <= data_end att values isnull hoff k'.
Proof.
  intros [Hle Hk']. induction Hle as [|k' Hle IH]; [lia|].
  etransitivity; [apply IH; lia|]. apply data_end_step. lia.
Qed.

Lemma data_end_ge k :
  (k <= n_atts)%nat -> hoff <= data_end att values isnull hoff k.
Proof. intros Hk. apply (data_end_mono 0 k). lia. Qed.

Lemma stored_start_bounds a d p :
  p <= stored_start a d p < p + 8.
Proof.
  unfold stored_start. destruct (stored_aligned a d); [|lia].
  apply att_align_nominal_bounds.
Qed.

Lemma length_data_image k :
  (k <= n_atts)%nat ->
  Z.of_nat (length (data_image att values isnull hoff k))
  = data_end att values isnull hoff k - hoff.
Proof.
  induction k as [|k IH]; intros Hk; cbn [data_image data_end length]; [lia|].
  rewrite length_app, Nat2Z.inj_add, IH by lia.
  destruct (isnull !!! k) eqn:Hnull; [cbn; lia|].
  destruct (length_stored _ _ (att_wf k ltac:(lia)) (values_wf k ltac:(lia) Hnull))
    as [Hlen _].
  pose proof (stored_start_bounds (att !!! k) (values !!! k)
                (data_end att values isnull hoff k)).
  rewrite length_app, length_replicate, Nat2Z.inj_add, Hlen. lia.
Qed.

Hypothesis hoff_nonneg : 0 <= hoff.
Hypothesis bitmap_before_data :
  hasbit = true -> 0 <= b0 /\ b0 + BITMAPLEN (Z.of_nat n_atts) <= hoff.
Hypothesis room : data_end att values isnull hoff n_atts <= L.

Lemma fill_val_inv (i : nat) (st : fill_state) :
  (i < n_atts)%nat ->
  fill_inv att values isnull hasbit b0 hoff L im0 i st ->
  fill_inv att values isnull hasbit b0 hoff L im0 (S i)
    (fill_val (att !!! i) (bool_decide (is_Some (fs_bit st))) st
              (values !!! i) (isnull !!! i)).
Proof.
  intros Hi (Hdata & Hlen & Himg & Hflags & Hbits).
  pose proof (data_end_ge i ltac:(lia)) as Hge.
  pose proof (data_end_step i Hi) as Hstep.
  pose proof (data_end_mono (S i) n_atts ltac:(lia)) as Hmono.
  pose proof (length_data_image i ltac:(lia)) as Hlimg.
  assert (bool_decide (is_Some (fs_bit st)) = hasbit) as Hgiven.
  { destruct hasbit.
    - destruct Hbits as (-> & _). apply bool_decide_eq_true. eauto.
    - rewrite Hbits. apply bool_decide_eq_false. intros [? [=]]. }
  rewrite Hgiven.
  assert (0 <= Z.of_nat i / 8 < BITMAPLEN (Z.of_nat n_atts)) as Hbyte
    by (unfold BITMAPLEN; div_lia).
  assert (hasbit = true ->
          bits_inv isnull b0 (S i) (fill_bit_step hasbit st (isnull !!! i)).1.1
                   (fill_bit_step hasbit st (isnull !!! i)).1.2
                   (fill_bit_step hasbit st (isnull !!! i)).2) as Hbits'.
  { intros ->. destruct (bitmap_before_data eq_refl) as [Hb0 Hbefore].
    apply fill_bit_step_inv; [exact Hb0|lia|exact Hbits]. }
  assert (mem_at (fill_bit_step hasbit st (isnull !!! i)).2 hoff = mem_at (fs_mem st) hoff)
    as Hsame.
  { unfold fill_bit_step. destruct hasbit; [|reflexivity].
    destruct (bitmap_before_data eq_refl) as [Hb0 Hbefore].
    destruct Hbits as (Hb & Hm & _). rewrite Hb.
    destruct (negb (fs_bitmask st =? HIGHBIT)) eqn:Hhigh;
      destruct (isnull !!! i); cbn [fst snd poke_bit fmap option_fmap option_map];
      rewrite ?mem_at_poke_lt; try reflexivity.
    all: rewrite Hm in Hhigh;
      destruct (pow2_lt8_cases ((Z.of_nat i + 7) mod 8) ltac:(div_lia)) as [Hh _];
      rewrite Hh in Hhigh;
      destruct (Z.eqb_spec ((Z.of_nat i + 7) mod 8) 7); try discriminate;
      unfold BITMAPLEN in *; div_lia. }
  unfold fill_inv. cbn [data_end data_image row_flags].
  rewrite fill_val_data, fill_val_infomask, Hdata, Hflags.
  destruct (fill_val_bits (att !!! i) hasbit st (values !!! i) (isnull !!! i)) as [-> ->].
  destruct (isnull !!! i) eqn:Hnull.
  - (* a null column: only the bitmap moves *)
    assert (hasbit = true) as ->.
    { destruct hasbit; [reflexivity|]. rewrite nulls_have_bitmap in Hnull; congruence. }
    cbn [andb]. rewrite fill_val_mem_null, length_fill_bit_step, Hsame, Himg, app_nil_r.
    rewrite Z.lor_assoc. repeat split; try assumption; try reflexivity.
    all: apply Hbits'; reflexivity.
  - rewrite andb_false_r.
    pose proof (att_wf i Hi) as Hatt. pose proof (values_wf i Hi Hnull) as Hval.
    destruct (length_stored _ _ Hatt Hval) as [Hslen Hpos].
    pose proof (stored_start_bounds (att !!! i) (values !!! i)
                  (data_end att values isnull hoff i)) as Hstart.
    cbn [data_end] in Hstep, Hmono. rewrite Hnull in Hstep, Hmono.
    set (p := stored_start (att !!! i) (values !!! i) (data_end att values isnull hoff i)) in *.
    rewrite fill_val_mem; rewrite ?Hdata; fold p;
      rewrite ?length_fill_bit_step; try assumption; try lia.
    rewrite length_splice by (rewrite length_fill_bit_step; lia).
    rewrite length_fill_bit_step, Z.lor_assoc.
    repeat split; try assumption; try reflexivity.
    + rewrite mem_at_splice_ge by (rewrite ?length_fill_bit_step; lia).
      rewrite Hsame, Himg.
      rewrite (splice_app_zeros _ _ (Z.to_nat (p - data_end att values isnull hoff i)))
        by lia.
      rewrite <- !app_assoc. repeat f_equal. lia.
    + destruct hasbit; [|exact Hbits].
      destruct (bitmap_before_data eq_refl) as [Hb0 Hbefore].
      destruct (Hbits' eq_refl) as (Hb1 & Hm1 & Hbit1). split; [exact Hb1|].
      split; [exact Hm1|]. intros j Hj.
      rewrite peek_splice_lt; [apply Hbit1; exact Hj| |].
      * unfold BITMAPLEN in *. div_lia.
      * rewrite length_fill_bit_step. unfold BITMAPLEN in *. div_lia.
Qed.

Lemma heap_fill_tuple_loop_inv (n i : nat) (st : fill_state) :
  (i + n <= n_atts)%nat ->
  fill_inv att values isnull hasbit b0 hoff L im0 i st ->
  fill_inv att values isnull hasbit b0 hoff L im0 (i + n)
    (heap_fill_tuple_loop att (Some values) (Some isnull) i n st).
Proof.
  revert i st. induction n as [|n IH]; intros i st Hn Hinv; cbn [heap_fill_tuple_loop].
  - rewrite Nat.add_0_r. exact Hinv.
  - replace (i + S n)%nat with (S i + n)%nat by lia.
    apply IH; [lia|]. apply fill_val_inv; [lia|exact Hinv].
Qed.

End FillLoop.

(** ** heap_form_tuple *)

Lemma check_for_nulls_snoc isnull i n :
  check_for_nulls isnull i (S n)
  = check_for_nulls isnull i n || (isnull !!! (i + n)%nat).
Proof.
  revert i. induction n as [|n IH]; intros i.
  - cbn [check_for_nulls]. rewrite Nat.add_0_r. destruct (isnull !!! i); reflexivity.
  - change (check_for_nulls isnull i (S (S n)))
      with (if (isnull !!! i : bool) then true else check_for_nulls isnull (S i) (S n)).
    rewrite IH. cbn [check_for_nulls].
    replace (S i + n)%nat with (i + S n)%nat by lia.
    destruct (isnull !!! i); reflexivity.
Qed.

Lemma check_for_nulls_false isnull n :
  check_for_nulls isnull 0 n = false -> forall j, (j < n)%nat -> isnull !!! j = false.
Proof.
  induction n as [|n IH]; intros Hc j Hj; [lia|].
  rewrite check_for_nulls_snoc in Hc. apply orb_false_elim in Hc as [Hc Hn].
  destruct (Nat.eq_dec j n) as [->|Hne]; [exact Hn|]. apply IH; [exact Hc|lia].
Qed.

Lemma check_for_nulls_true isnull n :
  check_for_nulls isnull 0 n = true -> exists j, (j < n)%nat /\ isnull !!! j = true.
Proof.
  induction n as [|n IH]; intros Hc; [discriminate|].
  rewrite check_for_nulls_snoc in Hc. apply orb_prop in Hc as [Hc|Hn].
  - destruct (IH Hc) as (j & Hj & Hnull). exists j. split; [lia|exact Hnull].
  - exists n. split; [lia|exact Hn].
Qed.

Lemma value_flags_bit0 a d : Z.testbit (value_flags a d) 0 = false.
Proof.
  unfold value_flags.
  repeat match goal with |- context [if ?b then _ else _] => destruct b end; reflexivity.
Qed.

Lemma row_flags_bit0 att values isnull k :
  Z.testbit (row_flags att values isnull k) 0 = check_for_nulls isnull 0 k.
Proof.
  induction k as [|k IH]; [reflexivity|].
  rewrite check_for_nulls_snoc. cbn [row_flags]. rewrite Z.lor_spec, IH. f_equal.
  destruct (isnull !!! k); [reflexivity|apply value_flags_bit0].
Qed.

Lemma formed_infomask0_bit0 td : Z.testbit (formed_infomask0 td) 0 = false.
Proof. unfold formed_infomask0. destruct (tdhasoid td); reflexivity. Qed.

Lemma formed_infomask0_eq td :
  formed_infomask0 td = if tdhasoid td then HEAP_HASOID else 0.
Proof. unfold formed_infomask0. destruct (tdhasoid td); reflexivity. Qed.

Lemma BITMAPLEN_mono x y : x <= y -> BITMAPLEN x <= BITMAPLEN y.
Proof. unfold BITMAPLEN. intros H. div_lia. Qed.

Lemma formed_hoff_bounds td isnull :
  0 <= natts td <= MaxTupleAttributeNumber ->
  0 <= formed_hoff td isnull <= 255 /\ formed_hoff td isnull mod 8 = 0 /\
  t_bits_off + (if tdhasoid td then sizeof_Oid else 0) <= formed_hoff td isnull /\
  (check_for_nulls isnull 0 (Z.to_nat (natts td)) = true ->
   t_bits_off + BITMAPLEN (natts td) <= formed_hoff td isnull).
Proof.
  intros Hn. unfold formed_hoff.
  set (len := if tdhasoid td then _ else _).
  pose proof (BITMAPLEN_mono _ _ (proj2 Hn)) as Hb.
  assert (0 <= BITMAPLEN (natts td)) as Hb0 by (unfold BITMAPLEN; div_lia).
  assert (t_bits_off <= len <= t_bits_off + BITMAPLEN MaxTupleAttributeNumber + sizeof_Oid)
    as Hlen.
  { subst len. unfold sizeof_Oid.
    destruct (check_for_nulls _ _ _), (tdhasoid td); lia. }
  pose proof (MAXALIGN_bounds len) as [Hal Hmod].
  pose proof (MAXALIGN_mono _ _ (proj2 Hlen)).
  repeat split; try lia.
  - subst len. unfold sizeof_Oid in *.
    destruct (check_for_nulls _ _ _), (tdhasoid td); lia.
  - intros Hnull. subst len. rewrite Hnull in *. unfold sizeof_Oid in *.
    destruct (tdhasoid td); lia.
Qed.

(** What heap_form_tuple_shard returns when it returns a tuple: the header
    fields, and a block that the loop of heap_fill_tuple has left in the
    state [fill_inv] describes. *)
Lemma heap_form_tuple_shard_inv td values isnull sflag diskey secdiskey relid sid tuple :
  desc_wellformed td -> arrays_wellformed td values isnull ->
  heap_form_tuple_shard td values isnull sflag diskey secdiskey relid sid = OK tuple ->
  exists hd st,
    t_data tuple = Some hd /\
    t_hoff hd = formed_hoff td isnull /\
    t_infomask2 hd = natts td /\
    t_infomask hd = fs_infomask st /\
    t_bytes hd = fs_mem st /\
    t_len tuple = formed_hoff td isnull + heap_compute_data_size td values isnull /\
    t_self tuple = ItemPointerSetInvalid /\ t_tableOid tuple = InvalidOid /\
    t_ctid hd = ItemPointerSetInvalid /\
    fill_inv (desc_att td) values isnull
      (check_for_nulls isnull 0 (Z.to_nat (natts td))) t_bits_off (formed_hoff td isnull)
      (formed_hoff td isnull + heap_compute_data_size td values isnull)
      (formed_infomask0 td) (Z.to_nat (natts td)) st.
Proof.
  intros (Hnatts & Hmax & Hatt) (Hlv & Hln & Hval) Hform.
  assert (0 <= natts td <= MaxTupleAttributeNumber) as Hrange by lia.
  destruct (formed_hoff_bounds td isnull Hrange) as (Hhoff & Hmod & Hoid & Hbitmap).
  set (n := Z.to_nat (natts td)) in *.
  assert (n = length (desc_att td)) as Hn by lia.
  assert (forall j, (j < n)%nat -> att_wellformed (desc_att td !!! j) = true) as Hatt'.
  { intros j Hj. destruct (lookup_lt_is_Some_2 (desc_att td) j ltac:(lia)) as [a Ha].
    rewrite (list_lookup_total_correct _ _ _ Ha). eauto. }
  assert (forall j, (j < n)%nat -> isnull !!! j = false ->
            datum_wellformed (desc_att td !!! j) (values !!! j) = true) as Hval'.
  { intros j Hj Hnull.
    destruct (lookup_lt_is_Some_2 (desc_att td) j ltac:(lia)) as [a Ha].
    destruct (lookup_lt_is_Some_2 values j ltac:(lia)) as [d Hd].
    destruct (lookup_lt_is_Some_2 isnull j ltac:(lia)) as [b Hb].
    rewrite (list_lookup_total_correct _ _ _ Ha), (list_lookup_total_correct _ _ _ Hd).
    rewrite (list_lookup_total_correct _ _ _ Hb) in Hnull. subst b. eauto. }
  assert (heap_compute_data_size td values isnull
          = data_end (desc_att td) values isnull 0 n) as Hsize.
  { unfold heap_compute_data_size. fold n.
    rewrite (heap_compute_data_size_loop_end _ _ _ 0 n 0); [reflexivity|..].
    - intros j Hj. apply Hatt'. lia.
    - reflexivity. }
  set (st := heap_fill_tuple_loop (desc_att td) (Some values) (Some isnull) 0 n
               (mk_fill (if check_for_nulls isnull 0 n then Some (t_bits_off - 1) else None)
                        (if check_for_nulls isnull 0 n then HIGHBIT else 0)
                        (formed_hoff td isnull) (formed_infomask0 td)
                        (palloc0 (formed_hoff td isnull
                                  + heap_compute_data_size td values isnull)))).
  assert (exists shard,
            tuple = mk_tuple (formed_hoff td isnull + heap_compute_data_size td values isnull)
                      ItemPointerSetInvalid InvalidOid 0
                      (Some (HeapTupleHeaderSetShardId shard
                         (mk_header (Z.land (formed_hoff td isnull
                                             + heap_compute_data_size td values isnull)
                                            1073741823)
                                    (tdtypmod td) (tdtypeid td) ItemPointerSetInvalid 0 0 0
                                    (Z.lor (Z.land 0 (Z.lnot HEAP_NATTS_MASK)) (natts td))
                                    (fs_infomask st) (formed_hoff td isnull mod 256)
                                    (fs_mem st))))) as [shard ->].
  { revert Hform. unfold heap_form_tuple_shard, heap_fill_tuple.
    destruct (Z.ltb_spec MaxTupleAttributeNumber (natts td)); [lia|].
    fold n. change (formed_hoff td isnull) with
      (MAXALIGN (if tdhasoid td
                 then (if check_for_nulls isnull 0 n
                       then t_bits_off + BITMAPLEN (natts td) else t_bits_off) + sizeof_Oid
                 else (if check_for_nulls isnull 0 n
                       then t_bits_off + BITMAPLEN (natts td) else t_bits_off))) in *.
    subst st. unfold formed_infomask0.
    destruct (check_for_nulls isnull 0 n); cbv beta iota zeta;
      destruct sflag;
      repeat match goal with
             | |- context [if ?b then Err _ else _] => destruct b
             | |- context [if ?b then (_, _, _) else _] => destruct b
             end;
      try discriminate; intros [= <-]; eexists; reflexivity. }
  eexists _, st. split; [reflexivity|].
  cbn [t_data t_hoff t_infomask t_infomask2 t_bytes t_len t_self t_tableOid
       t_ctid HeapTupleHeaderSetShardId].
  split; [apply Z.mod_small; lia|].
  split; [rewrite Z.land_0_l, Z.lor_0_l; reflexivity|].
  do 6 (split; [reflexivity|]).
  subst st. apply (heap_fill_tuple_loop_inv _ _ _ _ _ _ _ _ n Hatt' Hval') with (i := 0%nat).
  - intros Hc j Hj. apply (check_for_nulls_false _ _ Hc). exact Hj.
  - lia.
  - intros Hc. split; [exact t_bits_off_nonneg|]. subst n. rewrite Z2Nat.id by lia.
    apply Hbitmap. exact Hc.
  - rewrite data_end_shift by exact Hmod. lia.
  - lia.
  - unfold fill_inv. cbn [fs_data fs_mem fs_infomask fs_bit fs_bitmask data_end
                            data_image row_flags].
      unfold palloc0, mem_at. rewrite length_replicate, drop_replicate, Z.lor_0_r.
      pose proof (data_end_ge (desc_att td) values isnull (formed_hoff td isnull) n
                    Hatt' Hval' n ltac:(lia)) as Hge.
      rewrite data_end_shift in Hge by exact Hmod.
      split; [reflexivity|]. split; [lia|].
      split; [cbn [app]; f_equal; lia|]. split; [reflexivity|].
      destruct (check_for_nulls isnull 0 n); [|reflexivity].
      unfold bits_inv. change ((Z.of_nat 0 + 7) / 8) with 0.
      split; [f_equal; lia|]. split; [reflexivity|]. intros j Hj. lia.
Qed.

Lemma peek_mem_at m p q :
  0 <= p -> 0 <= q -> peek (mem_at m p) q = peek m (p + q).
Proof.
  intros Hp Hq. unfold peek, mem_at. rewrite lookup_drop. do 2 f_equal. lia.
Qed.

Lemma heap_form_tuple_returns td values isnull :
  natts td <= MaxTupleAttributeNumber ->
  exists tuple, heap_form_tuple td values isnull = OK tuple.
Proof.
  intros Hmax. unfold heap_form_tuple, heap_form_tuple_shard.
  destruct (Z.ltb_spec MaxTupleAttributeNumber (natts td)); [lia|].
  cbv zeta. destruct (heap_fill_tuple _ _ _ _ _ _ _ _) as [[im block] cursor].
  eexists. reflexivity.
Qed.

Lemma heap_fill_tuple_loop_infomask att values isnull im0 i n st :
  (fs_bit st = None -> forall j, (i <= j < i + n)%nat -> isnull !!! j = false) ->
  fs_infomask st = Z.lor im0 (row_flags att values isnull i) ->
  fs_infomask (heap_fill_tuple_loop att (Some values) (Some isnull) i n st)
  = Z.lor im0 (row_flags att values isnull (i + n)).
Proof.
  revert i st. induction n as [|n IH]; intros i st Hbit Hst; cbn [heap_fill_tuple_loop].
  - rewrite Nat.add_0_r. exact Hst.
  - replace (i + S n)%nat with (S i + n)%nat by lia. apply IH.
    + intros Hnone j Hj. apply Hbit; [|lia].
      destruct (fs_bit st) eqn:Hb; [|reflexivity].
      exfalso.
      assert (is_Some (fs_bit (fill_val (att !!! i) (bool_decide (is_Some (Some z))) st
                                        (values !!! i) (isnull !!! i)))) as [x Hx].
      { apply fill_val_bit_given. rewrite Hb. eauto. }
      congruence.
    + rewrite fill_val_infomask, Hst. cbn [row_flags]. rewrite Z.lor_assoc.
      destruct (isnull !!! i) eqn:Hnull.
      * case_bool_decide as Hsome; [reflexivity|].
        exfalso. assert (fs_bit st = None) as Hnone.
        { destruct (fs_bit st); [exfalso; apply Hsome; eauto|reflexivity]. }
        specialize (Hbit Hnone i ltac:(lia)). congruence.
      * rewrite andb_false_r. reflexivity.
Qed.

(** C6, as amended: in the tuple heap_form_tuple builds, HEAP_HASNULL is
    set exactly when some entry of isnull is true.  If so, the header has
    room for a bitmap of BITMAPLEN(natts) bytes in which bit i (low to high
    within each byte) is set exactly when isnull[i] is false, so that
    att_isnull reads isnull[i] back; if no entry is null the header has no
    room for a bitmap.  The three content flags are those of the row,
    whatever the infomask held before: heap_fill_tuple clears them first. *)
Theorem heap_form_tuple_null_bitmap (td : TupleDesc) (values : list Datum)
    (isnull : list bool) (sflag : SetShardFlag) (diskey secdiskey relid sid : Z)
    (tuple : HeapTupleData) :
  desc_wellformed td -> arrays_wellformed td values isnull ->
  heap_form_tuple_shard td values isnull sflag diskey secdiskey relid sid = OK tuple ->
  let tup := tup_of tuple in
  let n := Z.to_nat (natts td) in
  let hasnull := check_for_nulls isnull 0 n in
  let oid_len := if tdhasoid td then sizeof_Oid else 0 in
  HeapTupleHasNulls tuple = hasnull /\
  t_infomask tup
  = Z.lor (if tdhasoid td then HEAP_HASOID else 0) (row_flags (desc_att td) values isnull n) /\
  (forall stale data data_size bit m,
     (bit = None -> hasnull = false) ->
     (heap_fill_tuple td (Some values) (Some isnull) data data_size stale bit m).1.1
     = Z.lor (Z.land stale (Z.lnot (Z.lor (Z.lor HEAP_HASNULL HEAP_HASVARWIDTH)
                                          HEAP_HASEXTERNAL)))
             (row_flags (desc_att td) values isnull n)) /\
  if hasnull then
    t_hoff tup = MAXALIGN (t_bits_off + BITMAPLEN (natts td) + oid_len) /\
    forall i, (i < n)%nat ->
      Z.testbit (peek (t_bytes tup) (t_bits_off + Z.of_nat i / 8)) (Z.of_nat i mod 8)
      = negb (isnull !!! i) /\
      att_isnull (Z.of_nat i) (mem_at (t_bytes tup) t_bits_off) = isnull !!! i
  else t_hoff tup = MAXALIGN (t_bits_off + oid_len).
Proof.
  intros Hdesc Harr Hform. cbv zeta.
  destruct (heap_form_tuple_shard_inv _ _ _ _ _ _ _ _ _ Hdesc Harr Hform)
    as (hd & st & Hdata & Hhoff & _ & Him & Hbytes & _ & _ & _ & _ & Hinv).
  destruct Hinv as (_ & _ & _ & Hflags & Hbits).
  unfold HeapTupleHasNulls, tup_of. rewrite Hdata. cbn [from_option]. unfold id.
  rewrite Him, Hflags, Hhoff, Hbytes. rewrite formed_infomask0_eq.
  split; [|split; [reflexivity|split]].
  - change HEAP_HASNULL with (2 ^ 0). rewrite land_pow2_eq0 by lia.
    rewrite negb_involutive, Z.lor_spec, row_flags_bit0.
    destruct (tdhasoid td); reflexivity.
  - intros stale data data_size bit m Hbit. unfold heap_fill_tuple.
    destruct bit as [b|]; cbn [fst snd];
      rewrite (heap_fill_tuple_loop_infomask _ _ _
                 (Z.land stale (Z.lnot (Z.lor (Z.lor HEAP_HASNULL HEAP_HASVARWIDTH)
                                              HEAP_HASEXTERNAL))) 0);
      cbn [fs_bit fs_infomask row_flags Nat.add]; try reflexivity;
      try (rewrite Z.lor_0_r; reflexivity); try discriminate.
    intros _ j Hj. apply (check_for_nulls_false _ _ (Hbit eq_refl)). lia.
  - unfold formed_hoff.
    destruct (check_for_nulls isnull 0 (Z.to_nat (natts td))) eqn:Hnull.
    + split; [destruct (tdhasoid td); f_equal; lia|].
      destruct Hbits as (_ & _ & Hbits). intros i Hi.
      assert (Z.testbit (peek (fs_mem st) (t_bits_off + Z.of_nat i / 8)) (Z.of_nat i mod 8)
              = negb (isnull !!! i)) as Hbit.
      { rewrite Hbits by div_lia. rewrite Nat2Z.id.
        destruct (Z.ltb_spec (Z.of_nat i) (Z.of_nat (Z.to_nat (natts td)))); [reflexivity|lia]. }
      split; [exact Hbit|].
      rewrite att_isnull_testbit by lia.
      rewrite peek_mem_at by (try exact t_bits_off_nonneg; div_lia).
      rewrite Hbit. apply negb_involutive.
    + destruct (tdhasoid td); f_equal; lia.
Qed.

(** ** The offset cache: descriptors that differ in cached offsets only *)

Lemma shape_fields a b :
  att_shape a = att_shape b ->
  attlen a = attlen b /\ attalign a = attalign b /\ attbyval a = attbyval b /\
  atthasmissing a = atthasmissing b /\ attisdropped a = attisdropped b.
Proof.
  destruct a, b. unfold att_shape, set_attcacheoff. cbn.
  intros [= -> -> -> -> -> -> ->]. auto.
Qed.

Lemma same_shape_refl att : same_shape att att.
Proof. split; reflexivity. Qed.

Lemma same_shape_sym a b : same_shape a b -> same_shape b a.
Proof. intros [Hl H]. split; [done|]. intros j. symmetry. apply H. Qed.

Lemma same_shape_trans a b c : same_shape a b -> same_shape b c -> same_shape a c.
Proof.
  intros [Hl1 H1] [Hl2 H2]. split; [congruence|].
  intros j. rewrite H1. apply H2.
Qed.

Lemma same_shape_alter att i off : same_shape att (alter (set_attcacheoff off) i att).
Proof.
  split; [by rewrite length_alter|].
  intros j. rewrite list_lookup_total_alter.
  case_decide as Hd; [|done]. destruct Hd as [-> _]. reflexivity.
Qed.

Lemma cache_grows_refl att : cache_grows att att.
Proof. intros j _. reflexivity. Qed.

Lemma cache_grows_trans a b c : cache_grows a b -> cache_grows b c -> cache_grows a c.
Proof.
  intros H1 H2 j Hj. rewrite (H2 j); [by apply H1|]. rewrite (H1 j Hj). exact Hj.
Qed.

Lemma cache_grows_alter att i off :
  attcacheoff (att !!! i) < 0 -> cache_grows att (alter (set_attcacheoff off) i att).
Proof.
  intros Hi j Hj. rewrite list_lookup_total_alter.
  case_decide as Hd; [|done]. destruct Hd as [-> _]. lia.
Qed.

Lemma bytewalk_step_shape a b tup hasnulls i off :
  same_shape a b -> bytewalk_step a tup hasnulls i off = bytewalk_step b tup hasnulls i off.
Proof.
  intros [_ H]. destruct (shape_fields _ _ (H i)) as (Hl & Ha & Hb & _).
  unfold bytewalk_step, fetchatt. cbv zeta. rewrite Hl, Ha, Hb. reflexivity.
Qed.

Lemma bytewalk_off_shape a b tup hasnulls k :
  same_shape a b -> bytewalk_off a tup hasnulls k = bytewalk_off b tup hasnulls k.
Proof.
  intros H. induction k as [|k IH]; [done|].
  cbn [bytewalk_off]. rewrite IH, (bytewalk_step_shape a b) by done. reflexivity.
Qed.

Lemma bytewalk_value_shape a b tup hasnulls k :
  same_shape a b -> bytewalk_value a tup hasnulls k = bytewalk_value b tup hasnulls k.
Proof.
  intros H. unfold bytewalk_value.
  rewrite (bytewalk_off_shape a b), (bytewalk_step_shape a b) by done. reflexivity.
Qed.

Lemma walk_slow_shape a b tup hasnulls k :
  same_shape a b -> walk_slow a tup hasnulls k = walk_slow b tup hasnulls k.
Proof.
  intros H. induction k as [|k IH]; [done|].
  cbn [walk_slow]. rewrite IH.
  destruct H as [_ H]. destruct (shape_fields _ _ (H k)) as (-> & _). reflexivity.
Qed.

Lemma fixed_end_shape a b k : same_shape a b -> fixed_end a k = fixed_end b k.
Proof.
  intros H. induction k as [|k IH]; [done|].
  cbn [fixed_end]. rewrite IH.
  destruct H as [_ H]. destruct (shape_fields _ _ (H k)) as (-> & -> & _). reflexivity.
Qed.

Lemma prefix_fixed_shape a b k : same_shape a b -> prefix_fixed a k -> prefix_fixed b k.
Proof.
  intros [_ H] Hp j Hj. destruct (shape_fields _ _ (H j)) as (<- & _). by apply Hp.
Qed.

Lemma bytewalk_fill_shape a b tup hasnulls i n values isnull :
  same_shape a b ->
  bytewalk_fill a tup hasnulls i n values isnull
  = bytewalk_fill b tup hasnulls i n values isnull.
Proof.
  intros H. revert i values isnull.
  induction n as [|n IH]; intros i values isnull; [done|].
  cbn [bytewalk_fill]. rewrite (bytewalk_value_shape a b) by done. apply IH.
Qed.

(** ** The offset cache: the invariant *)

Lemma fixed_end_nonneg att k : prefix_fixed att k -> 0 <= fixed_end att k.
Proof.
  induction k as [|k IH]; intros Hp; [done|].
  cbn [fixed_end].
  assert (0 <= fixed_end att k) by (apply IH; intros j Hj; apply Hp; lia).
  pose proof (att_align_nominal_bounds (fixed_end att k) (attalign (att !!! k))).
  pose proof (Hp k ltac:(lia)). lia.
Qed.

(** A descriptor none of whose offsets is cached. *)
Lemma cache_ok_fresh att : (forall i, attcacheoff (att !!! i) < 0) -> cache_ok att.
Proof. intros H i _ Hi. specialize (H i). lia. Qed.

(** Writing the true offset of column [i], when every column before it is
    cached, keeps the cache sound. *)
Lemma cache_ok_alter att i off :
  cache_ok att -> (i < length att)%nat -> prefix_fixed att i ->
  (forall j, (j < i)%nat -> 0 <= attcacheoff (att !!! j)) ->
  off = att_align_nominal (fixed_end att i) (attalign (att !!! i)) ->
  (attlen (att !!! i) = -1 -> off = fixed_end att i) ->
  cache_ok (alter (set_attcacheoff off) i att).
Proof.
  intros Hok Hi Hp Hc Hoff Hvar.
  pose proof (same_shape_alter att i off) as Hs.
  assert (0 <= off) as Hoff0.
  { pose proof (fixed_end_nonneg att i Hp).
    pose proof (att_align_nominal_bounds (fixed_end att i) (attalign (att !!! i))). lia. }
  assert (forall j, 0 <= attcacheoff (att !!! j) ->
            0 <= attcacheoff (alter (set_attcacheoff off) i att !!! j)) as Hkeep.
  { intros j Hj. rewrite list_lookup_total_alter. case_decide; [cbn; lia|done]. }
  intros k Hk Hck. rewrite length_alter in Hk.
  rewrite <- (fixed_end_shape att) by done.
  destruct Hs as [_ Hs]. destruct (shape_fields _ _ (Hs k)) as (Hl & Ha & _).
  rewrite <- Hl, <- Ha.
  rewrite list_lookup_total_alter in Hck |- *.
  case_decide as Hd.
  - destruct Hd as [-> _]. cbn [attcacheoff set_attcacheoff].
    split; [eapply prefix_fixed_shape; [apply same_shape_alter|done]|].
    split; [done|]. split; [done|].
    intros j Hj. apply Hkeep. by apply Hc.
  - destruct (Hok k Hk Hck) as (H1 & H2 & H3 & H4).
    split; [eapply prefix_fixed_shape; [apply same_shape_alter|done]|].
    split; [done|]. split; [done|].
    intros j Hj. apply Hkeep. by apply H4.
Qed.

(** While the walk has met neither a null nor a variable-width column, its
    offset is a function of the descriptor alone. *)
Lemma walk_fast att tup hasnulls k :
  walk_slow att tup hasnulls k = false ->
  bytewalk_off att tup hasnulls k = fixed_end att k /\ prefix_fixed att k /\
  forall j, (j < k)%nat ->
    hasnulls && att_isnull (Z.of_nat j) (mem_at (t_bytes tup) t_bits_off) = false.
Proof.
  induction k as [|k IH]; intros Hs.
  - split; [done|]. split; intros j Hj; lia.
  - cbn [walk_slow] in Hs.
    apply orb_false_iff in Hs as [Hs Hlen]. apply orb_false_iff in Hs as [Hs Hnull].
    destruct (IH Hs) as (Hoff & Hp & Hn).
    apply Z.leb_gt in Hlen.
    split; [|split].
    + cbn [bytewalk_off fixed_end]. rewrite Hoff. unfold bytewalk_step. rewrite Hnull.
      cbv zeta. unfold att_addlength_pointer.
      destruct (Z.eqb_spec (attlen (att !!! k)) (-1)) as [E|_]; [lia|].
      destruct (Z.ltb_spec 0 (attlen (att !!! k))); [done|lia].
    + intros j Hj. destruct (decide (j = k)) as [->|]; [done|]. apply Hp. lia.
    + intros j Hj. destruct (decide (j = k)) as [->|]; [done|]. apply Hn. lia.
Qed.

(** ** The offset cache: one column of a deforming loop *)

Lemma att_align_pointer_aligned off c p :
  off = att_align_nominal off c -> att_align_pointer off c (-1) p = off.
Proof.
  intros H. unfold att_align_pointer. destruct (_ && _); [reflexivity|]. by rewrite <- H.
Qed.

Lemma deform_attr_inv att0 tup hasnulls i st :
  deform_inv att0 tup hasnulls i (ds_att st) (ds_off st) (ds_slow st) ->
  (i < length att0)%nat ->
  deform_inv att0 tup hasnulls (S i) (ds_att (deform_attr tup hasnulls i st))
    (ds_off (deform_attr tup hasnulls i st)) (ds_slow (deform_attr tup hasnulls i st)) /\
  ds_values (deform_attr tup hasnulls i st)
  = <[i := (bytewalk_value att0 tup hasnulls i).1]> (ds_values st) /\
  ds_isnull (deform_attr tup hasnulls i st)
  = <[i := (bytewalk_value att0 tup hasnulls i).2]> (ds_isnull st).
Proof.
  destruct st as [att values isnull off slow]. cbn [ds_att ds_off ds_slow ds_values ds_isnull].
  intros (Hsh & Hg & Hok & Hoff & Hslow & Hpre) Hi.
  assert (i < length att)%nat as Hi' by (destruct Hsh as [<- _]; done).
  destruct (shape_fields _ _ (proj2 Hsh i)) as (Hl & Ha & Hb & _).
  unfold deform_inv, deform_attr, bytewalk_value, bytewalk_step, fetchatt.
  cbn [bytewalk_off walk_slow ds_att ds_off ds_slow ds_values ds_isnull].
  unfold bytewalk_step, fetchatt. cbv zeta.
  rewrite <- Hoff, <- Hslow, Hl, Ha, Hb.
  destruct (hasnulls && att_isnull (Z.of_nat i) (mem_at (t_bytes tup) t_bits_off)) eqn:Hnull.
  { cbn [ds_att ds_off ds_slow ds_values ds_isnull fst snd].
    rewrite orb_true_r. cbn [orb]. split; [|done]. repeat (split; [done|]).
    discriminate. }
  rewrite orb_false_r.
  destruct slow.
  { (* the slow path never touches the cache *)
    cbn [negb andb].
    destruct (attlen (att !!! i) =? -1);
      cbn [ds_att ds_off ds_slow ds_values ds_isnull fst snd];
      (split; [|done]); repeat (split; [done|]);
      (split; by destruct (attlen (att !!! i) <=? 0)). }
  (* the fast path *)
  cbn [negb andb orb].
  destruct (walk_fast att0 tup hasnulls i (eq_sym Hslow)) as (Hfix & Hp & _).
  rewrite (fixed_end_shape att0 att), <- Hoff in Hfix by done.
  apply (prefix_fixed_shape att0 att) in Hp; [|done].
  specialize (Hpre eq_refl).
  assert (forall off' att',
    off' = att_align_nominal (fixed_end att i) (attalign (att !!! i)) ->
    (attlen (att !!! i) = -1 -> off' = fixed_end att i) ->
    same_shape att att' -> cache_grows att att' -> cache_ok att' ->
    attcacheoff (att' !!! i) = off' ->
    same_shape att0 att' /\ cache_grows att0 att' /\ cache_ok att' /\
    ((if attlen (att !!! i) <=? 0 then true else false) = false ->
     forall j, (j < S i)%nat -> 0 <= attcacheoff (att' !!! j))) as Hstep.
  { intros off' att' Ho Hv Hs' Hg' Hok' Hc'.
    split; [by eapply same_shape_trans|]. split; [by eapply cache_grows_trans|].
    split; [done|]. intros _ j Hj.
    destruct (decide (j = i)) as [->|Hne].
    - rewrite Hc', Ho.
      pose proof (fixed_end_nonneg att i Hp).
      pose proof (att_align_nominal_bounds (fixed_end att i) (attalign (att !!! i))). lia.
    - rewrite (Hg' j); apply Hpre; lia. }
  destruct (Z.leb_spec 0 (attcacheoff (att !!! i))) as [Hc|Hc].
  { (* a cached offset *)
    destruct (Hok i Hi' Hc) as (_ & Hc1 & Hc2 & _).
    cbn [ds_att ds_off ds_slow ds_values ds_isnull fst snd].
    assert ((if attlen (att !!! i) =? -1
             then att_align_pointer off (attalign (att !!! i)) (-1)
                    (mem_at (mem_at (t_bytes tup) (t_hoff tup)) off)
             else att_align_nominal off (attalign (att !!! i)))
            = attcacheoff (att !!! i)) as ->.
    { destruct (Z.eqb_spec (attlen (att !!! i)) (-1)) as [E|E].
      - pose proof (Hc2 E). rewrite att_align_pointer_aligned; congruence.
      - congruence. }
    split; [|done].
    destruct (Hstep (attcacheoff (att !!! i)) att Hc1 Hc2 (same_shape_refl _)
                (cache_grows_refl _) Hok eq_refl) as (H1 & H2 & H3 & H4).
    repeat (split; [done|]). split; [by destruct (attlen (att !!! i) <=? 0)|].
    intros Hs. apply H4. by destruct (attlen (att !!! i) <=? 0). }
  destruct (Z.eqb_spec (attlen (att !!! i)) (-1)) as [E|E].
  - (* a varlena column: cached only when its offset needs no padding *)
    destruct (Z.eqb_spec off (att_align_nominal off (attalign (att !!! i)))) as [Hal|Hal].
    + cbn [ds_att ds_off ds_slow ds_values ds_isnull fst snd].
      rewrite att_align_pointer_aligned by done.
      split; [|done].
      destruct (Hstep off (alter (set_attcacheoff off) i att)) as (H1 & H2 & H3 & H4).
      * congruence.
      * done.
      * apply same_shape_alter.
      * by apply cache_grows_alter.
      * apply cache_ok_alter; try done; congruence.
      * by rewrite list_lookup_total_alter_eq.
      * repeat (split; [done|]). rewrite E. cbn. split; [done|discriminate].
    + cbn [ds_att ds_off ds_slow ds_values ds_isnull fst snd].
      split; [|done]. repeat (split; [done|]). rewrite E. cbn. split; [done|discriminate].
  - (* not varlena, so safe to use att_align_nominal *)
    cbn [ds_att ds_off ds_slow ds_values ds_isnull fst snd].
    split; [|done].
    destruct (Hstep (att_align_nominal off (attalign (att !!! i)))
                (alter (set_attcacheoff (att_align_nominal off (attalign (att !!! i)))) i att))
      as (H1 & H2 & H3 & H4).
    * congruence.
    * done.
    * apply same_shape_alter.
    * by apply cache_grows_alter.
    * apply cache_ok_alter; try done; congruence.
    * by rewrite list_lookup_total_alter_eq.
    * repeat (split; [done|]). split; [by destruct (attlen (att !!! i) <=? 0)|].
      intros Hs. apply H4. by destruct (attlen (att !!! i) <=? 0).
Qed.

(** ** The offset cache: the deforming loop *)

Lemma deform_loop_inv att0 tup hasnulls n : forall i st,
  deform_inv att0 tup hasnulls i (ds_att st) (ds_off st) (ds_slow st) ->
  (i + n <= length att0)%nat ->
  deform_inv att0 tup hasnulls (i + n) (ds_att (deform_loop tup hasnulls i n st))
    (ds_off (deform_loop tup hasnulls i n st)) (ds_slow (deform_loop tup hasnulls i n st)) /\
  (ds_values (deform_loop tup hasnulls i n st), ds_isnull (deform_loop tup hasnulls i n st))
  = bytewalk_fill att0 tup hasnulls i n (ds_values st) (ds_isnull st).
Proof.
  induction n as [|n IH]; intros i st Hinv Hlen.
  - rewrite Nat.add_0_r. done.
  - cbn [deform_loop bytewalk_fill].
    destruct (deform_attr_inv att0 tup hasnulls i st Hinv ltac:(lia)) as (Hinv' & Hv & Hn).
    destruct (IH (S i) _ Hinv' ltac:(lia)) as (Hinv'' & Hfill).
    replace (i + S n)%nat with (S i + n)%nat by lia.
    split; [done|]. by rewrite Hfill, Hv, Hn.
Qed.

Lemma deform_inv_start att tup hasnulls :
  cache_ok att -> deform_inv att tup hasnulls 0 att 0 false.
Proof.
  intros Hok. split; [apply same_shape_refl|]. split; [apply cache_grows_refl|].
  split; [done|]. split; [done|]. split; [done|]. intros _ j Hj. lia.
Qed.

Lemma bytewalk_fill_app att tup hasnulls n m : forall i values isnull,
  bytewalk_fill att tup hasnulls i (n + m) values isnull
  = bytewalk_fill att tup hasnulls (i + n) m
      (bytewalk_fill att tup hasnulls i n values isnull).1
      (bytewalk_fill att tup hasnulls i n values isnull).2.
Proof.
  induction n as [|n IH]; intros i values isnull.
  - cbn. by rewrite Nat.add_0_r.
  - cbn [Nat.add bytewalk_fill]. rewrite IH. by replace (S i + n)%nat with (i + S n)%nat by lia.
Qed.

(** The walk over columns [i ..] leaves the entries before [i] alone. *)
Lemma bytewalk_fill_take att tup hasnulls n : forall i k values isnull,
  (k <= i)%nat ->
  take k (bytewalk_fill att tup hasnulls i n values isnull).1 = take k values /\
  take k (bytewalk_fill att tup hasnulls i n values isnull).2 = take k isnull.
Proof.
  induction n as [|n IH]; intros i k values isnull Hk; [done|].
  cbn [bytewalk_fill].
  destruct (IH (S i) k (<[i := (bytewalk_value att tup hasnulls i).1]> values)
              (<[i := (bytewalk_value att tup hasnulls i).2]> isnull) ltac:(lia)) as [-> ->].
  by rewrite !take_insert_ge by lia.
Qed.

Lemma length_bytewalk_fill att tup hasnulls n : forall i values isnull,
  length (bytewalk_fill att tup hasnulls i n values isnull).1 = length values /\
  length (bytewalk_fill att tup hasnulls i n values isnull).2 = length isnull.
Proof.
  induction n as [|n IH]; intros i values isnull; [done|].
  cbn [bytewalk_fill].
  destruct (IH (S i) (<[i := (bytewalk_value att tup hasnulls i).1]> values)
              (<[i := (bytewalk_value att tup hasnulls i).2]> isnull)) as [-> ->].
  by rewrite !length_insert.
Qed.

(** Entry [j] of the decoded arrays is the value of column [j]. *)
Lemma bytewalk_fill_lookup att tup hasnulls n : forall i j values isnull,
  (i <= j < i + n)%nat -> (j < length values)%nat -> (j < length isnull)%nat ->
  (bytewalk_fill att tup hasnulls i n values isnull).1 !!! j
  = (bytewalk_value att tup hasnulls j).1 /\
  (bytewalk_fill att tup hasnulls i n values isnull).2 !!! j
  = (bytewalk_value att tup hasnulls j).2.
Proof.
  induction n as [|n IH]; intros i j values isnull Hj Hv Hn; [lia|].
  cbn [bytewalk_fill].
  destruct (decide (j = i)) as [->|Hne].
  - pose proof (bytewalk_fill_take att tup hasnulls n (S i) (S i)
                  (<[i := (bytewalk_value att tup hasnulls i).1]> values)
                  (<[i := (bytewalk_value att tup hasnulls i).2]> isnull) ltac:(lia)) as [H1 H2].
    split.
    + rewrite <- (lookup_total_take_lt _ (S i)) by lia. rewrite H1.
      rewrite lookup_total_take_lt by lia. by rewrite list_lookup_total_insert_eq.
    + rewrite <- (lookup_total_take_lt _ (S i)) by lia. rewrite H2.
      rewrite lookup_total_take_lt by lia. by rewrite list_lookup_total_insert_eq.
  - apply IH; rewrite ?length_insert; lia.
Qed.

(** ** The offset cache: descriptors *)

Lemma desc_att_set_desc_att td att : desc_att (set_desc_att td att) = att.
Proof. unfold desc_att, set_desc_att. by destruct (transp_crypt_attrs_ext td) eqn:E; cbn; rewrite ?E. Qed.

Lemma natts_set_desc_att td att : natts (set_desc_att td att) = natts td.
Proof. unfold set_desc_att. by destruct (transp_crypt_attrs_ext td). Qed.

Lemma desc_same_refl td : desc_same td td.
Proof.
  unfold desc_same. auto 10 using same_shape_refl, cache_grows_refl.
Qed.

Lemma desc_same_trans a b c : desc_same a b -> desc_same b c -> desc_same a c.
Proof.
  intros (H1 & H2 & H3 & H4 & H5 & H6) (G1 & G2 & G3 & G4 & G5 & G6).
  split; [congruence|]. split; [congruence|]. split; [congruence|].
  split; [by eapply same_shape_trans|]. split; [by eapply same_shape_trans|].
  by eapply cache_grows_trans.
Qed.

Lemma desc_same_set_desc_att td att :
  same_shape (desc_att td) att -> cache_grows (desc_att td) att ->
  desc_same td (set_desc_att td att).
Proof.
  intros Hs Hg. unfold desc_same. rewrite desc_att_set_desc_att.
  unfold desc_att, set_desc_att in *.
  destruct (transp_crypt_attrs_ext td) eqn:E; cbn; rewrite ?E;
    do 3 (split; [reflexivity|]);
    (split; [first [assumption|apply same_shape_refl]|]);
    (split; [first [assumption|apply same_shape_refl]|]); assumption.
Qed.

Lemma desc_same_desc_att a b : desc_same a b -> same_shape (desc_att a) (desc_att b).
Proof.
  intros (_ & _ & Hf & H1 & H2 & _). unfold desc_att. rewrite Hf.
  destruct (transp_crypt_attrs_ext a); assumption.
Qed.

Lemma getmissingattr_desc_same a b attnum :
  desc_same a b -> getmissingattr b attnum = getmissingattr a attnum.
Proof.
  intros (_ & Hc & _ & [_ H1] & _).
  unfold getmissingattr, TupleDescAttr, attrmiss_of. rewrite Hc.
  destruct (shape_fields _ _ (H1 (Z.to_nat (attnum - 1)))) as (_ & _ & _ & -> & ->).
  reflexivity.
Qed.

Lemma heap_deform_missing_loop_desc_same a b n :
  desc_same a b -> forall i values isnull,
  heap_deform_missing_loop b i n values isnull = heap_deform_missing_loop a i n values isnull.
Proof.
  intros H. induction n as [|n IH]; intros i values isnull; [done|].
  cbn [heap_deform_missing_loop]. rewrite (getmissingattr_desc_same a b) by done.
  destruct (getmissingattr a (Z.of_nat i + 1)). apply IH.
Qed.

(** heap_deform_tuple decodes what the cache-free walk decodes, whatever
    the state of a sound cache, and leaves a sound cache. *)
Lemma heap_deform_tuple_bytewalk tuple td values isnull :
  cache_ok (desc_att td) -> (Z.to_nat (natts td) <= length (desc_att td))%nat ->
  ((heap_deform_tuple tuple td values isnull).1.2, (heap_deform_tuple tuple td values isnull).2)
  = bytewalk_deform tuple td values isnull /\
  desc_same td (heap_deform_tuple tuple td values isnull).1.1 /\
  cache_ok (desc_att (heap_deform_tuple tuple td values isnull).1.1).
Proof.
  intros Hok Hlen. unfold heap_deform_tuple, bytewalk_deform. cbv zeta.
  set (n := Z.to_nat (Z.min (HeapTupleHeaderGetNatts (tup_of tuple)) (natts td))).
  destruct (deform_loop_inv (desc_att td) (tup_of tuple) (HeapTupleHasNulls tuple) n 0%nat
              (mk_deform (desc_att td) values isnull 0 false)
              (deform_inv_start _ _ _ Hok) ltac:(subst n; lia))
    as ((Hs & Hg & Hok' & _) & Hfill).
  cbn [ds_values ds_isnull] in Hfill. rewrite <- Hfill.
  set (st := deform_loop _ _ _ _ _) in *.
  pose proof (desc_same_set_desc_att td (ds_att st) Hs Hg) as Hsame.
  rewrite (heap_deform_missing_loop_desc_same td) by done.
  destruct (heap_deform_missing_loop td n _ (ds_values st) (ds_isnull st)) as [v b].
  cbn [fst snd]. split; [done|]. split; [done|]. by rewrite desc_att_set_desc_att.
Qed.

(** ** The offset cache: slot_deform_tuple *)

Lemma slot_inv_desc_same att0 slot0 td td' slot :
  slot_inv att0 slot0 td slot -> desc_same td td' -> slot_inv att0 slot0 td' slot.
Proof.
  intros (Ht & Hn & Hv & Hst) (_ & _ & _ & _ & _ & Hg).
  split; [done|]. split; [done|]. split; [done|].
  intros Hnz. destruct (Hst Hnz) as (Ho & Hs & Hc).
  split; [done|]. split; [done|].
  intros Hslow j Hj. rewrite (Hg j); by apply Hc.
Qed.

Lemma slot_inv_fresh att0 slot0 td : tts_nvalid slot0 = 0 -> slot_inv att0 slot0 td slot0.
Proof.
  intros H0. unfold slot_inv. rewrite H0. cbn.
  split; [done|]. split; [lia|]. split; [done|]. done.
Qed.

(** slot_deform_tuple resumes the walk where the previous call stopped:
    the slot then holds the cache-free decoding of its first
    [max tts_nvalid natts] columns. *)
Lemma slot_deform_tuple_inv att0 slot0 td slot k :
  same_shape att0 (desc_att td) -> cache_ok (desc_att td) ->
  slot_inv att0 slot0 td slot -> k <= Z.of_nat (length att0) ->
  desc_same td (slot_deform_tuple td slot k).1 /\
  cache_ok (desc_att (slot_deform_tuple td slot k).1) /\
  slot_inv att0 slot0 (slot_deform_tuple td slot k).1 (slot_deform_tuple td slot k).2 /\
  tts_nvalid (slot_deform_tuple td slot k).2 = Z.max (tts_nvalid slot) k.
Proof.
  intros Hsh Hok (Ht & Hn & Hv & Hst) Hk.
  unfold slot_deform_tuple. cbv zeta.
  fold (slot_tuple slot).
  assert (slot_tuple slot = slot_tuple slot0) as -> by (unfold slot_tuple; by rewrite Ht).
  set (tup := tup_of (slot_tuple slot0)) in *.
  set (hasnulls := HeapTupleHasNulls (slot_tuple slot0)) in *.
  set (nv := Z.to_nat (tts_nvalid slot)) in *.
  set (n := Z.to_nat (k - tts_nvalid slot)).
  assert (exists off slow,
    (if tts_nvalid slot =? 0 then (0, false) else (tts_off slot, tts_slow slot)) = (off, slow) /\
    deform_inv (desc_att td) tup hasnulls nv (desc_att td) off slow) as (off & slow & -> & Hinv).
  { destruct (Z.eqb_spec (tts_nvalid slot) 0) as [E|E].
    - exists 0, false. split; [done|].
      replace nv with 0%nat by (subst nv; lia). by apply deform_inv_start.
    - destruct (Hst E) as (Ho & Hs & Hc).
      exists (tts_off slot), (tts_slow slot). split; [done|].
      split; [apply same_shape_refl|]. split; [apply cache_grows_refl|]. split; [done|].
      split; [by rewrite <- (bytewalk_off_shape att0)|].
      split; [by rewrite <- (walk_slow_shape att0)|]. done. }
  destruct (deform_loop_inv (desc_att td) tup hasnulls n nv
              (mk_deform (desc_att td) (tts_values slot) (tts_isnull slot) off slow) Hinv)
    as ((Hs' & Hg' & Hok' & Hoff' & Hslow' & Hpre') & Hfill).
  { destruct Hsh as [<- _]. subst n nv. lia. }
  set (st := deform_loop _ _ _ _ _) in *.
  cbn [fst snd tts_nvalid tts_tuple tts_values tts_isnull tts_off tts_slow
       ds_values ds_isnull] in *.
  assert (Z.to_nat (Z.max (tts_nvalid slot) k) = (nv + n)%nat) as Hmax
    by (subst nv n; lia).
  split; [by apply desc_same_set_desc_att|].
  rewrite desc_att_set_desc_att.
  split; [done|]. split; [|done].
  unfold slot_inv. cbn [tts_nvalid tts_tuple tts_values tts_isnull tts_off tts_slow].
  fold tup hasnulls. rewrite Hmax, desc_att_set_desc_att.
  split; [done|]. split; [lia|].
  split.
  - rewrite bytewalk_fill_app, <- Hv. cbn [fst snd Nat.add].
    rewrite Hfill. by apply bytewalk_fill_shape, same_shape_sym.
  - intros _. split; [by rewrite (bytewalk_off_shape att0 (desc_att td))|].
    split; [by rewrite (walk_slow_shape att0 (desc_att td))|]. done.
Qed.

(** ** The offset cache: nocachegetattr *)

Lemma nocache_earlier_bytes_false bp n : forall i,
  nocache_earlier_bytes bp i n = false ->
  forall m, (i <= m < i + n)%nat -> peek bp (Z.of_nat m) = 255.
Proof.
  induction n as [|n IH]; intros i H m Hm; [lia|].
  cbn [nocache_earlier_bytes] in H.
  destruct (Z.eqb_spec (peek bp (Z.of_nat i)) 255) as [E|E]; [|discriminate].
  cbn [negb] in H.
  destruct (decide (m = i)) as [->|Hne]; [done|].
  apply (IH (S i) H). lia.
Qed.

(** The test for nulls before the target of nocachegetattr. *)
Lemma nocache_no_nulls_before bp (k : nat) :
  (if negb (Z.land (Z.lnot (peek bp (Z.shiftr (Z.of_nat k) 3)))
                   (Z.shiftl 1 (Z.land (Z.of_nat k) 7) - 1) =? 0)
   then true
   else nocache_earlier_bytes bp 0 (Z.to_nat (Z.shiftr (Z.of_nat k) 3))) = false ->
  forall j, (j < k)%nat -> att_isnull (Z.of_nat j) bp = false.
Proof.
  rewrite Z.shiftr_div_pow2 by lia. change (2 ^ 3) with 8.
  change 7 with (Z.ones 3). rewrite Z.land_ones by lia. change (2 ^ 3) with 8.
  rewrite Z.shiftl_1_l.
  replace (2 ^ (Z.of_nat k mod 8) - 1) with (Z.ones (Z.of_nat k mod 8))
    by (rewrite Z.ones_equiv; lia).
  intros H j Hj.
  destruct (Z.eqb_spec (Z.land (Z.lnot (peek bp (Z.of_nat k / 8)))
                          (Z.ones (Z.of_nat k mod 8))) 0) as [E|E]; [|discriminate].
  cbn [negb] in H.
  rewrite att_isnull_testbit by lia. apply negb_false_iff.
  assert (0 <= Z.of_nat j mod 8 < 8) as Hm by div_lia.
  destruct (decide (Z.of_nat j / 8 < Z.of_nat k / 8)) as [Hlt|Hge].
  - pose proof (nocache_earlier_bytes_false bp _ 0%nat H (Z.to_nat (Z.of_nat j / 8))
                  ltac:(div_lia)) as Hb.
    rewrite Z2Nat.id in Hb by div_lia. rewrite Hb.
    change 255 with (Z.ones 8). apply Z.ones_spec_low. lia.
  - assert (Z.of_nat j / 8 = Z.of_nat k / 8) as Hq by div_lia.
    assert (Z.of_nat j mod 8 < Z.of_nat k mod 8) as Hr by div_lia.
    rewrite Hq.
    apply (f_equal (fun z => Z.testbit z (Z.of_nat j mod 8))) in E.
    rewrite Z.land_spec, Z.lnot_spec, Z.ones_spec_low, Z.bits_0 in E by lia.
    rewrite andb_true_r in E. by apply negb_false_iff in E.
Qed.

Lemma nocache_varwidth_upto_false att n : forall j,
  nocache_varwidth_upto att j n = false ->
  forall m, (j <= m < j + n)%nat -> 0 < attlen (att !!! m).
Proof.
  induction n as [|n IH]; intros j H m Hm; [lia|].
  cbn [nocache_varwidth_upto] in H.
  destruct (Z.leb_spec (attlen (att !!! j)) 0) as [E|E]; [discriminate|].
  destruct (decide (m = j)) as [->|Hne]; [done|].
  apply (IH (S j) H). lia.
Qed.

Lemma walk_slow_false att tup hasnulls k :
  (forall j, (j < k)%nat ->
     hasnulls && att_isnull (Z.of_nat j) (mem_at (t_bytes tup) t_bits_off) = false) ->
  prefix_fixed att k -> walk_slow att tup hasnulls k = false.
Proof.
  induction k as [|k IH]; intros Hn Hp; [done|].
  cbn [walk_slow]. rewrite IH.
  - rewrite Hn by lia. cbn [orb]. apply Z.leb_gt, Hp. lia.
  - intros j Hj. apply Hn. lia.
  - intros j Hj. apply Hp. lia.
Qed.

(** Reading a column at its cached offset, in a row without nulls before
    that column, reads what the cache-free walk reads. *)
Lemma bytewalk_value_cached att tup hasnulls k :
  cache_ok att -> (k < length att)%nat -> 0 <= attcacheoff (att !!! k) ->
  (forall j, (j <= k)%nat ->
     hasnulls && att_isnull (Z.of_nat j) (mem_at (t_bytes tup) t_bits_off) = false) ->
  bytewalk_value att tup hasnulls k
  = (fetchatt (att !!! k) (mem_at (mem_at (t_bytes tup) (t_hoff tup)) (attcacheoff (att !!! k))),
     false).
Proof.
  intros Hok Hk Hc Hn.
  destruct (Hok k Hk Hc) as (Hp & Hc1 & Hc2 & _).
  assert (walk_slow att tup hasnulls k = false) as Hs
    by (apply walk_slow_false; [intros; apply Hn; lia|done]).
  destruct (walk_fast att tup hasnulls k Hs) as (Hoff & _).
  unfold bytewalk_value, bytewalk_step. rewrite Hn by lia. cbv zeta. rewrite Hoff.
  assert ((if attlen (att !!! k) =? -1
           then att_align_pointer (fixed_end att k) (attalign (att !!! k)) (-1)
                  (mem_at (mem_at (t_bytes tup) (t_hoff tup)) (fixed_end att k))
           else att_align_nominal (fixed_end att k) (attalign (att !!! k)))
          = attcacheoff (att !!! k)) as ->; [|done].
  destruct (Z.eqb_spec (attlen (att !!! k)) (-1)) as [E|E]; [|done].
  pose proof (Hc2 E). rewrite att_align_pointer_aligned; congruence.
Qed.

Lemma att_align_nominal_0 c : att_align_nominal 0 c = 0.
Proof. align_cases c; reflexivity. Qed.

Lemma cache_grows_alter_same att i off :
  (0 <= attcacheoff (att !!! i) -> attcacheoff (att !!! i) = off) ->
  cache_grows att (alter (set_attcacheoff off) i att).
Proof.
  intros Hi j Hj. rewrite list_lookup_total_alter.
  case_decide as Hd; [|done]. destruct Hd as [-> _]. cbn. symmetry. by apply Hi.
Qed.

Lemma nocache_skip_cached_spec att n : forall s,
  (s <= nocache_skip_cached att s n <= s + n)%nat /\
  (forall j, (s <= j < nocache_skip_cached att s n)%nat -> 0 < attcacheoff (att !!! j)).
Proof.
  induction n as [|n IH]; intros s.
  - cbn. split; [lia|]. intros j Hj. lia.
  - cbn [nocache_skip_cached].
    destruct (Z.ltb_spec 0 (attcacheoff (att !!! s))) as [E|E].
    + destruct (IH (S s)) as [H1 H2]. split; [lia|].
      intros j Hj. destruct (decide (j = s)) as [->|Hne]; [done|]. apply H2. lia.
    + split; [lia|]. intros j Hj. lia.
Qed.

(** The loop of nocachegetattr that fills in the offsets of the leading
    fixed-width columns. *)
Lemma nocache_init_cache_spec n : forall att j off,
  cache_ok att -> (j + n <= length att)%nat ->
  off = fixed_end att j -> prefix_fixed att j ->
  (forall j', (j' < j)%nat -> 0 <= attcacheoff (att !!! j')) ->
  same_shape att (nocache_init_cache att j n off) /\
  cache_grows att (nocache_init_cache att j n off) /\
  cache_ok (nocache_init_cache att j n off) /\
  forall m, (j <= m < j + n)%nat ->
    (forall j', (j <= j' <= m)%nat -> 0 < attlen (att !!! j')) ->
    0 <= attcacheoff (nocache_init_cache att j n off !!! m).
Proof.
  induction n as [|n IH]; intros att j off Hok Hlen Hoff Hp Hc.
  - cbn. split; [apply same_shape_refl|]. split; [apply cache_grows_refl|].
    split; [done|]. intros m Hm. lia.
  - cbn [nocache_init_cache].
    destruct (Z.leb_spec (attlen (att !!! j)) 0) as [E|E].
    { split; [apply same_shape_refl|]. split; [apply cache_grows_refl|].
      split; [done|]. intros m Hm Hall. specialize (Hall j ltac:(lia)). lia. }
    set (off' := att_align_nominal off (attalign (att !!! j))).
    set (att' := alter (set_attcacheoff off') j att).
    assert (same_shape att att') as Hs by apply same_shape_alter.
    assert (cache_ok att') as Hok'.
    { apply cache_ok_alter; try done; [lia|subst off'; congruence|lia]. }
    assert (cache_grows att att') as Hg.
    { apply cache_grows_alter_same. intros Hj.
      destruct (Hok j ltac:(lia) Hj) as (_ & -> & _). subst off'. congruence. }
    assert (attcacheoff (att' !!! j) = off') as Hj'
      by (subst att'; rewrite list_lookup_total_alter_eq by lia; done).
    assert (0 <= off') as Hoff'.
    { pose proof (fixed_end_nonneg att j Hp).
      pose proof (att_align_nominal_bounds off (attalign (att !!! j))). subst off'. lia. }
    destruct (IH att' (S j) (off' + attlen (att !!! j))) as (H1 & H2 & H3 & H4).
    + done.
    + subst att'. rewrite length_alter. lia.
    + rewrite <- (fixed_end_shape att att') by done. cbn [fixed_end]. subst off'. congruence.
    + apply (prefix_fixed_shape att); [done|].
      intros j' Hj. destruct (decide (j' = j)) as [->|Hne]; [done|]. apply Hp. lia.
    + intros j' Hj. destruct (decide (j' = j)) as [->|Hne]; [lia|].
      rewrite (Hg j'); apply Hc; lia.
    + split; [by eapply same_shape_trans|]. split; [by eapply cache_grows_trans|].
      split; [done|].
      intros m Hm Hall.
      destruct (decide (m = j)) as [->|Hne].
      * rewrite (H2 j); lia.
      * apply H4; [lia|]. intros j' Hj.
        destruct Hs as [_ Hs]. destruct (shape_fields _ _ (Hs j')) as (<- & _).
        apply Hall. lia.
Qed.

Lemma fetchatt_shape a b T : att_shape a = att_shape b -> fetchatt a T = fetchatt b T.
Proof.
  intros H. destruct (shape_fields _ _ H) as (Hl & _ & Hb & _).
  unfold fetchatt. by rewrite Hl, Hb.
Qed.

(** The careful walk of nocachegetattr runs the body of the deforming loop
    column by column, with [usecache] for [!slow]. *)
Lemma nocache_walk_null tuple n i att off usecache :
  HeapTupleHasNulls tuple
  && att_isnull (Z.of_nat i) (mem_at (t_bytes (tup_of tuple)) t_bits_off) = true ->
  nocache_walk tuple (mem_at (t_bytes (tup_of tuple)) (t_hoff (tup_of tuple)))
    (mem_at (t_bytes (tup_of tuple)) t_bits_off) i (S n) att off usecache
  = nocache_walk tuple (mem_at (t_bytes (tup_of tuple)) (t_hoff (tup_of tuple)))
      (mem_at (t_bytes (tup_of tuple)) t_bits_off) (S i) n att off false /\
  forall vs ns slow,
    deform_attr (tup_of tuple) (HeapTupleHasNulls tuple) i (mk_deform att vs ns off slow)
    = mk_deform att (<[i := DatumVal 0]> vs) (<[i := true]> ns) off true.
Proof.
  intros Hnull. split.
  - cbn [nocache_walk]. by rewrite Hnull.
  - intros vs ns slow. unfold deform_attr. cbn [ds_att ds_off ds_slow ds_values ds_isnull].
    by rewrite Hnull.
Qed.

Lemma nocache_walk_step tuple n i att off usecache vs ns :
  HeapTupleHasNulls tuple
  && att_isnull (Z.of_nat i) (mem_at (t_bytes (tup_of tuple)) t_bits_off) = false ->
  exists att1 off1 uc1 vs1 ns1,
    nocache_walk tuple (mem_at (t_bytes (tup_of tuple)) (t_hoff (tup_of tuple)))
      (mem_at (t_bytes (tup_of tuple)) t_bits_off) i (S n) att off usecache
    = nocache_walk tuple (mem_at (t_bytes (tup_of tuple)) (t_hoff (tup_of tuple)))
        (mem_at (t_bytes (tup_of tuple)) t_bits_off) (S i) n att1 off1 uc1 /\
    deform_attr (tup_of tuple) (HeapTupleHasNulls tuple) i
      (mk_deform att vs ns off (negb usecache))
    = mk_deform att1 vs1 ns1 off1 (negb uc1).
Proof.
  intros Hnull. cbn [nocache_walk]. unfold deform_attr.
  cbn [ds_att ds_off ds_slow ds_values ds_isnull]. rewrite Hnull.
  destruct usecache; cbn [negb andb];
    destruct (0 <=? attcacheoff (att !!! i));
    destruct (attlen (att !!! i) =? -1);
    destruct (off =? att_align_nominal off (attalign (att !!! i)));
    destruct (attlen (att !!! i) <=? 0);
    cbv beta iota zeta; cbn [negb andb];
    do 5 eexists; (split; [reflexivity|]);
    first [reflexivity | instantiate (1 := true); reflexivity
          | instantiate (1 := false); reflexivity].
Qed.

Lemma nocache_walk_last tuple i att off usecache vs ns :
  HeapTupleHasNulls tuple
  && att_isnull (Z.of_nat i) (mem_at (t_bytes (tup_of tuple)) t_bits_off) = false ->
  exists off',
    nocache_walk tuple (mem_at (t_bytes (tup_of tuple)) (t_hoff (tup_of tuple)))
      (mem_at (t_bytes (tup_of tuple)) t_bits_off) i 0 att off usecache
    = Some (ds_att (deform_attr (tup_of tuple) (HeapTupleHasNulls tuple) i
                      (mk_deform att vs ns off (negb usecache))), off') /\
    ds_values (deform_attr (tup_of tuple) (HeapTupleHasNulls tuple) i
                 (mk_deform att vs ns off (negb usecache)))
    = <[i := fetchatt (att !!! i)
               (mem_at (mem_at (t_bytes (tup_of tuple)) (t_hoff (tup_of tuple))) off')]> vs.
Proof.
  intros Hnull. cbn [nocache_walk]. unfold deform_attr.
  cbn [ds_att ds_off ds_slow ds_values ds_isnull]. rewrite Hnull.
  destruct usecache; cbn [negb andb];
    destruct (0 <=? attcacheoff (att !!! i));
    destruct (attlen (att !!! i) =? -1);
    destruct (off =? att_align_nominal off (attalign (att !!! i)));
    cbv beta iota zeta; cbn [negb andb ds_att ds_values];
    eexists; split; reflexivity.
Qed.

Lemma nocache_walk_deform tuple n : forall i att off usecache vs ns,
  HeapTupleHasNulls tuple
  && att_isnull (Z.of_nat (i + n)) (mem_at (t_bytes (tup_of tuple)) t_bits_off) = false ->
  exists off',
    nocache_walk tuple (mem_at (t_bytes (tup_of tuple)) (t_hoff (tup_of tuple)))
      (mem_at (t_bytes (tup_of tuple)) t_bits_off) i n att off usecache
    = Some (ds_att (deform_attr (tup_of tuple) (HeapTupleHasNulls tuple) (i + n)
                      (deform_loop (tup_of tuple) (HeapTupleHasNulls tuple) i n
                         (mk_deform att vs ns off (negb usecache)))), off') /\
    ds_values (deform_attr (tup_of tuple) (HeapTupleHasNulls tuple) (i + n)
                 (deform_loop (tup_of tuple) (HeapTupleHasNulls tuple) i n
                    (mk_deform att vs ns off (negb usecache))))
    = <[(i + n)%nat :=
          fetchatt (ds_att (deform_loop (tup_of tuple) (HeapTupleHasNulls tuple) i n
                              (mk_deform att vs ns off (negb usecache))) !!! (i + n)%nat)
            (mem_at (mem_at (t_bytes (tup_of tuple)) (t_hoff (tup_of tuple))) off')]>
        (ds_values (deform_loop (tup_of tuple) (HeapTupleHasNulls tuple) i n
                      (mk_deform att vs ns off (negb usecache)))).
Proof.
  induction n as [|n IH]; intros i att off usecache vs ns Hnull.
  - rewrite Nat.add_0_r in *. cbn [deform_loop ds_att ds_values].
    by apply nocache_walk_last.
  - replace (i + S n)%nat with (S i + n)%nat in * by lia.
    cbn [deform_loop].
    destruct (HeapTupleHasNulls tuple
              && att_isnull (Z.of_nat i) (mem_at (t_bytes (tup_of tuple)) t_bits_off)) eqn:Hi.
    + destruct (nocache_walk_null tuple n i att off usecache Hi) as [-> ->].
      apply (IH (S i) att off false). done.
    + destruct (nocache_walk_step tuple n i att off usecache vs ns Hi)
        as (att1 & off1 & uc1 & vs1 & ns1 & -> & ->).
      by apply IH.
Qed.

(** nocachegetattr returns what the cache-free walk finds in the target
    column, on each of its three paths, and leaves a sound cache. *)
Lemma nocachegetattr_bytewalk tuple attnum td :
  cache_ok (desc_att td) ->
  1 <= attnum <= natts td -> attnum <= HeapTupleHeaderGetNatts (tup_of tuple) ->
  (Z.to_nat (natts td) <= length (desc_att td))%nat ->
  HeapTupleHasNulls tuple
  && att_isnull (attnum - 1) (mem_at (t_bytes (tup_of tuple)) t_bits_off) = false ->
  varwidth_flag_ok (desc_att td) tuple = true ->
  exists td',
    nocachegetattr tuple attnum td
    = Some (td', (bytewalk_value (desc_att td) (tup_of tuple) (HeapTupleHasNulls tuple)
                    (Z.to_nat (attnum - 1))).1) /\
    desc_same td td' /\ cache_ok (desc_att td').
Proof.
  intros Hok Hattnum Hphys Hlen Hnull Hflag.
  replace (attnum - 1) with (Z.of_nat (Z.to_nat (attnum - 1))) in Hnull by lia.
  unfold nocachegetattr. cbv zeta.
  set (k := Z.to_nat (attnum - 1)) in *.
  set (att := desc_att td) in *.
  set (N := Z.to_nat (natts td)) in *.
  assert (k < N)%nat as HkN by lia.
  assert (k < length att)%nat as Hk by lia.
  (* the careful walk *)
  assert (exists td',
    match nocache_walk tuple (mem_at (t_bytes (tup_of tuple)) (t_hoff (tup_of tuple)))
            (mem_at (t_bytes (tup_of tuple)) t_bits_off) 0 k att 0 true with
    | Some (att', off) =>
      Some (set_desc_att td att',
            fetchatt (att' !!! k)
              (mem_at (mem_at (t_bytes (tup_of tuple)) (t_hoff (tup_of tuple))) off))
    | None => None
    end = Some (td', (bytewalk_value att (tup_of tuple) (HeapTupleHasNulls tuple) k).1) /\
    desc_same td td' /\ cache_ok (desc_att td')) as Hwalk.
  { destruct (nocache_walk_deform tuple k 0 att 0 true (replicate (S k) (DatumVal 0))
                (replicate (S k) false) Hnull) as (off' & Hw & Hv).
    cbn [negb Nat.add] in Hw, Hv.
    destruct (deform_loop_inv att (tup_of tuple) (HeapTupleHasNulls tuple) k 0
                (mk_deform att (replicate (S k) (DatumVal 0)) (replicate (S k) false) 0 false)
                (deform_inv_start _ _ _ Hok) ltac:(cbn; lia)) as (Hinv & Hfill).
    cbn [Nat.add ds_values ds_isnull] in Hinv, Hfill.
    set (st := deform_loop _ _ _ _ _) in *.
    destruct (deform_attr_inv att (tup_of tuple) (HeapTupleHasNulls tuple) k st Hinv Hk)
      as ((Hs & Hg & Hok' & _) & Hv' & _).
    rewrite Hw. eexists. split; [|split].
    - f_equal. f_equal.
      rewrite Hv in Hv'. apply (f_equal (fun l => l !!! k)) in Hv'.
      assert (length (ds_values st) = S k) as Hl.
      { apply (f_equal (fun p => length p.1)) in Hfill. cbn [fst] in Hfill. rewrite Hfill.
        rewrite (proj1 (length_bytewalk_fill _ _ _ _ _ _ _)). by rewrite length_replicate. }
      rewrite !list_lookup_total_insert_eq in Hv' by lia. rewrite <- Hv'.
      apply fetchatt_shape. destruct Hinv as ([_ H1] & _). destruct Hs as [_ H2].
      by rewrite <- H1, <- H2.
    - by apply desc_same_set_desc_att.
    - by rewrite desc_att_set_desc_att. }
  set (slow1 := if negb (HeapTupleNoNulls tuple) then _ else false).
  destruct slow1 eqn:Hslow1; cbn [negb andb]; [exact Hwalk|].
  (* no nulls up to and including the target *)
  assert (forall j, (j <= k)%nat ->
            HeapTupleHasNulls tuple
            && att_isnull (Z.of_nat j) (mem_at (t_bytes (tup_of tuple)) t_bits_off) = false)
    as Hnn.
  { intros j Hj. destruct (decide (j = k)) as [->|Hne]; [done|].
    subst slow1. unfold HeapTupleNoNulls in Hslow1.
    destruct (HeapTupleHasNulls tuple); [|done]. cbn [negb andb] in *.
    apply (nocache_no_nulls_before _ k Hslow1). lia. }
  destruct (Z.leb_spec 0 (attcacheoff (att !!! k))) as [Hc|Hc].
  { (* a cached offset *)
    exists td. rewrite bytewalk_value_cached by done. cbn [fst].
    split; [done|]. split; [apply desc_same_refl|done]. }
  set (slow2 := if HeapTupleHasVarWidth tuple then _ else false).
  destruct slow2 eqn:Hslow2; cbn [negb]; [exact Hwalk|].
  (* no variable-width column up to and including the target *)
  assert (forall j, (j <= k)%nat -> 0 < attlen (att !!! j)) as Hfixed.
  { intros j Hj. subst slow2. unfold varwidth_flag_ok in Hflag.
    destruct (HeapTupleHasVarWidth tuple).
    - apply (nocache_varwidth_upto_false att (S k) 0 Hslow2). lia.
    - cbn [orb] in Hflag. rewrite forallb_forall in Hflag.
      specialize (Hflag j). rewrite Hnn in Hflag by done. cbn [orb] in Hflag.
      apply Z.ltb_lt, Hflag, in_seq. lia. }
  set (att1 := alter (set_attcacheoff 0) 0%nat att).
  assert (same_shape att att1) as Hs1 by apply same_shape_alter.
  assert (cache_ok att1) as Hok1.
  { apply cache_ok_alter; try done; try lia.
    - intros j Hj. lia.
    - cbn [fixed_end]. by rewrite att_align_nominal_0. }
  assert (cache_grows att att1) as Hg1.
  { apply cache_grows_alter_same. intros H0.
    destruct (Hok 0%nat ltac:(lia) H0) as (_ & -> & _). cbn [fixed_end].
    apply att_align_nominal_0. }
  assert (attcacheoff (att1 !!! 0%nat) = 0) as H10
    by (subst att1; rewrite list_lookup_total_alter_eq by lia; done).
  assert (forall j, j <> 0%nat -> att1 !!! j = att !!! j) as H1ne
    by (intros j Hj; subst att1; by rewrite list_lookup_total_alter_ne).
  destruct (nocache_skip_cached_spec att1 (N - 1) 1) as (Hj1 & Hj2).
  set (j := nocache_skip_cached att1 1 (N - 1)) in *.
  assert (j <= S k)%nat as Hjk.
  { destruct (decide (j <= S k)%nat) as [|Hgt]; [done|]. exfalso.
    destruct (decide (k = 0%nat)) as [E|E].
    - pose proof (Hj2 1%nat ltac:(lia)) as H1. rewrite H1ne in H1 by lia.
      destruct (Hok 1%nat ltac:(lia) ltac:(lia)) as (_ & _ & _ & H4).
      specialize (H4 0%nat ltac:(lia)). rewrite E in Hc. lia.
    - pose proof (Hj2 k ltac:(lia)) as H1. rewrite H1ne in H1 by lia. lia. }
  destruct j as [|j0] eqn:Ej; [lia|].
  replace (S j0 - 1)%nat with j0 by lia.
  assert (0 <= attcacheoff (att1 !!! j0)) as Hcj0.
  { destruct (decide (j0 = 0%nat)) as [->|Hne]; [lia|].
    pose proof (Hj2 j0 ltac:(lia)). lia. }
  assert (forall j', (j' <= k)%nat -> 0 < attlen (att1 !!! j')) as Hfixed1.
  { intros j' Hj'. destruct Hs1 as [_ Hs1].
    destruct (shape_fields _ _ (Hs1 j')) as (<- & _). by apply Hfixed. }
  destruct (nocache_init_cache_spec (N - S j0) att1 (S j0)
              (attcacheoff (att1 !!! j0) + attlen (att1 !!! j0)) Hok1)
    as (Hs2 & Hg2 & Hok2 & Hc2).
  { destruct Hs1 as [<- _]. lia. }
  { cbn [fixed_end].
    destruct (Hok1 j0 ltac:(destruct Hs1 as [<- _]; lia) Hcj0) as (_ & -> & _). done. }
  { intros j' Hj'. apply Hfixed1. lia. }
  { intros j' Hj'. destruct (decide (j' = 0%nat)) as [->|Hne]; [lia|].
    pose proof (Hj2 j' ltac:(lia)). lia. }
  set (att2 := nocache_init_cache _ _ _ _) in *.
  assert (0 <= attcacheoff (att2 !!! k)) as Hck.
  { destruct (decide (k < S j0)%nat) as [Hlt|Hge].
    - assert (0 <= attcacheoff (att1 !!! k)) as H1.
      { destruct (decide (k = 0%nat)) as [->|Hne]; [lia|].
        pose proof (Hj2 k ltac:(lia)). lia. }
      by rewrite (Hg2 k).
    - apply Hc2; [lia|]. intros j' Hj'. apply Hfixed1. lia. }
  assert (same_shape att att2) as Hs by (by eapply same_shape_trans).
  exists (set_desc_att td att2). rewrite desc_att_set_desc_att.
  split; [|split; [|done]].
  - rewrite (bytewalk_value_shape att att2) by done.
    rewrite bytewalk_value_cached; try done.
    destruct Hs as [<- _]. done.
  - apply desc_same_set_desc_att; [done|]. by eapply cache_grows_trans.
Qed.

(** ** The offset cache: sequences of operations *)

Lemma bytewalk_deform_desc_same a b tuple values isnull :
  desc_same a b -> bytewalk_deform tuple b values isnull = bytewalk_deform tuple a values isnull.
Proof.
  intros H. unfold bytewalk_deform. cbv zeta.
  destruct H as (Hn & H'). rewrite Hn.
  rewrite <- (bytewalk_fill_shape (desc_att a) (desc_att b))
    by (apply desc_same_desc_att; split; done).
  destruct (bytewalk_fill _ _ _ _ _ _ _) as [v n].
  apply heap_deform_missing_loop_desc_same. split; done.
Qed.

Lemma forallb_pointwise {A : Type} (f g : A -> bool) (l : list A) :
  (forall x, f x = g x) -> forallb f l = forallb g l.
Proof. intros H. induction l as [|x l IH]; [done|]. cbn. by rewrite H, IH. Qed.

Lemma varwidth_flag_ok_shape a b tuple :
  same_shape a b -> varwidth_flag_ok b tuple = varwidth_flag_ok a tuple.
Proof.
  intros [_ H]. unfold varwidth_flag_ok. f_equal. apply forallb_pointwise. intros j.
  destruct (shape_fields _ _ (H j)) as (-> & _). reflexivity.
Qed.

Lemma sys_inv_start td slots :
  forallb (fun a => attcacheoff a <? 0) (desc_att td) = true ->
  forallb (fun slot => tts_nvalid slot =? 0) slots = true ->
  sys_inv td slots (td, slots).
Proof.
  intros Hc Hs. rewrite forallb_forall in Hc, Hs.
  split; [apply desc_same_refl|]. split; [|split; [done|]].
  - cbn [fst]. apply cache_ok_fresh. intros i. rewrite list_lookup_total_alt.
    destruct (desc_att td !! i) as [a|] eqn:E; cbn; [|lia].
    apply Z.ltb_lt, Hc, list_elem_of_In. by eapply list_elem_of_lookup_2.
  - cbn [fst snd]. intros s slot0 slot H0 H1. rewrite H0 in H1. injection H1 as <-.
    apply slot_inv_fresh. apply Z.eqb_eq, Hs, list_elem_of_In.
    by eapply list_elem_of_lookup_2.
Qed.

(** Each operation keeps the invariant and hands back what the cache-free
    walk gives. *)
Lemma run_op_inv td0 slots0 st op :
  natts td0 = Z.of_nat (length (desc_att td0)) ->
  sys_inv td0 slots0 st -> op_ok td0 op = true ->
  sys_inv td0 slots0 (run_op st op).1 /\ (run_op st op).2 = bytewalk_op td0 slots0 op.
Proof.
  intros Hlen (Hsame & Hok & Hsl & Hslots) Hop.
  destruct st as [td slots]. cbn [fst snd] in *.
  pose proof (desc_same_desc_att _ _ Hsame) as Hshape.
  assert (natts td = natts td0) as Hn by apply Hsame.
  assert (length (desc_att td) = length (desc_att td0)) as Hl
    by (symmetry; apply Hshape).
  destruct op as [tuple values isnull|s k|tuple attnum]; cbn [run_op bytewalk_op fst snd].
  - destruct (heap_deform_tuple_bytewalk tuple td values isnull Hok ltac:(lia))
      as (Hv & Hsame' & Hok').
    rewrite (bytewalk_deform_desc_same td0 td) in Hv by done.
    unfold sys_inv. cbn [fst snd]. split.
    + split; [by eapply desc_same_trans|]. split; [done|]. split; [done|].
      cbn [fst snd]. intros s slot0 slot H0 H1.
      eapply slot_inv_desc_same; [by eapply Hslots|done].
    + rewrite <- Hv. reflexivity.
  - cbn [op_ok] in Hop. apply Z.leb_le in Hop.
    destruct (slots !! s) as [slot|] eqn:Es.
    + destruct (lookup_lt_is_Some_2 slots0 s) as [slot0 E0].
      { rewrite <- Hsl. by eapply lookup_lt_Some. }
      rewrite E0.
      destruct (slot_deform_tuple_inv (desc_att td0) slot0 td slot k Hshape Hok
                  (Hslots s slot0 slot E0 Es) ltac:(lia))
        as (Hsame' & Hok' & Hinv' & Hnv).
      unfold sys_inv. cbn [fst snd]. split.
      * split; [by eapply desc_same_trans|]. split; [done|].
        split; [by rewrite length_insert|].
        cbn [fst snd]. intros s' slot0' slot' H0 H1.
        destruct (decide (s' = s)) as [->|Hne].
        -- rewrite list_lookup_insert_eq in H1 by (by eapply lookup_lt_Some).
           injection H1 as <-. rewrite H0 in E0. by injection E0 as ->.
        -- rewrite list_lookup_insert_ne in H1 by done.
           eapply slot_inv_desc_same; [by eapply Hslots|done].
      * destruct Hinv' as (_ & _ & Hv & _). cbv zeta in Hv.
        apply (f_equal fst) in Hv as Hv1. apply (f_equal snd) in Hv as Hv2.
        cbn [fst snd] in Hv1, Hv2. rewrite Hv1, Hv2, Hnv.
        replace (Z.to_nat (Z.max (tts_nvalid slot) k))
          with (Z.to_nat k + (Z.to_nat (Z.max (tts_nvalid slot) k) - Z.to_nat k))%nat by lia.
        rewrite bytewalk_fill_app. cbn [Nat.add].
        destruct (bytewalk_fill_take (desc_att td0) (tup_of (slot_tuple slot0))
                    (HeapTupleHasNulls (slot_tuple slot0))
                    (Z.to_nat (Z.max (tts_nvalid slot) k) - Z.to_nat k) (Z.to_nat k) (Z.to_nat k)
                    (bytewalk_fill (desc_att td0) (tup_of (slot_tuple slot0))
                       (HeapTupleHasNulls (slot_tuple slot0)) 0 (Z.to_nat k)
                       (tts_values slot0) (tts_isnull slot0)).1
                    (bytewalk_fill (desc_att td0) (tup_of (slot_tuple slot0))
                       (HeapTupleHasNulls (slot_tuple slot0)) 0 (Z.to_nat k)
                       (tts_values slot0) (tts_isnull slot0)).2 ltac:(lia)) as [-> ->].
        reflexivity.
    + assert (slots0 !! s = None) as ->.
      { apply lookup_ge_None. rewrite <- Hsl. by apply lookup_ge_None. }
      cbn [fst snd]. split; [|done]. split; [done|]. split; [done|]. split; done.
  - cbn [op_ok] in Hop. repeat (apply andb_true_iff in Hop as [Hop ?]).
    destruct (nocachegetattr_bytewalk tuple attnum td Hok) as (td' & -> & Hsame' & Hok').
    + lia.
    + lia.
    + lia.
    + by apply negb_true_iff.
    + by rewrite (varwidth_flag_ok_shape (desc_att td0)).
    + unfold sys_inv. cbn [fst snd]. split.
      * split; [by eapply desc_same_trans|]. split; [done|]. split; [done|].
        intros s slot0 slot Hs0 Hs1.
        eapply slot_inv_desc_same; [by eapply Hslots|done].
      * by rewrite (bytewalk_value_shape (desc_att td0) (desc_att td)).
Qed.

Lemma run_ops_inv td0 slots0 ops : forall st,
  natts td0 = Z.of_nat (length (desc_att td0)) ->
  sys_inv td0 slots0 st -> forallb (op_ok td0) ops = true ->
  sys_inv td0 slots0 (run_ops ops st).
Proof.
  induction ops as [|op ops IH]; intros st Hlen Hinv Hops; [done|].
  cbn [forallb] in Hops. apply andb_true_iff in Hops as [Hop Hops].
  cbn [run_ops fold_left]. apply IH; [done| |done].
  by apply run_op_inv.
Qed.

(** C3 (offset cache soundness): starting from a descriptor in which no
    offset is cached and from slots without valid entries, after any
    sequence of heap_deform_tuple, slot_deform_tuple and nocachegetattr
    operations on any rows, in any order, the next operation returns what
    the cache-free byte walk of its row gives; and every offset that has
    been cached for a column is the offset at which the byte walk finds
    that column in any row without nulls up to that column. *)
Theorem offset_cache_sound td slots ops op :
  forallb (fun a => attcacheoff a <? 0) (desc_att td) = true ->
  natts td = Z.of_nat (length (desc_att td)) ->
  forallb (fun slot => tts_nvalid slot =? 0) slots = true ->
  forallb (op_ok td) (ops ++ [op]) = true ->
  (run_op (run_ops ops (td, slots)) op).2 = bytewalk_op td slots op /\
  forall (tuple : HeapTupleData) (i : nat),
    (i < length (desc_att td))%nat ->
    0 <= attcacheoff (desc_att (run_op (run_ops ops (td, slots)) op).1.1 !!! i) ->
    (forall j, (j <= i)%nat ->
       HeapTupleHasNulls tuple
       && att_isnull (Z.of_nat j) (mem_at (t_bytes (tup_of tuple)) t_bits_off) = false) ->
    bytewalk_value (desc_att td) (tup_of tuple) (HeapTupleHasNulls tuple) i
    = (fetchatt (desc_att td !!! i)
         (mem_at (mem_at (t_bytes (tup_of tuple)) (t_hoff (tup_of tuple)))
            (attcacheoff (desc_att (run_op (run_ops ops (td, slots)) op).1.1 !!! i))),
       false).
Proof.
  intros Hfresh Hlen Hslots Hops.
  rewrite forallb_app in Hops. apply andb_true_iff in Hops as [Hops Hop].
  cbn [forallb] in Hop. rewrite andb_true_r in Hop.
  pose proof (run_ops_inv td slots ops (td, slots) Hlen
                (sys_inv_start td slots Hfresh Hslots) Hops) as Hinv.
  destruct (run_op_inv td slots _ op Hlen Hinv Hop) as ((Hsame & Hok & _) & Hobs).
  split; [done|].
  intros tuple i Hi Hc Hnn.
  pose proof (desc_same_desc_att _ _ Hsame) as Hshape.
  rewrite (bytewalk_value_shape _ _ _ _ _ Hshape).
  rewrite bytewalk_value_cached; try done.
  - f_equal. apply fetchatt_shape. symmetry. apply Hshape.
  - by destruct Hshape as [<- _].
Qed.

(** ** Reading back what fill_val stored *)

Lemma strlen_take_app (val rest : list Z) :
  strlen val < Z.of_nat (length val) ->
  strlen (take (Z.to_nat (strlen val + 1)) val ++ rest) = strlen val.
Proof.
  induction val as [|c s IH]; cbn [strlen length]; [lia|].
  intros Hlen. destruct (Z.eqb_spec c 0) as [->|Hc].
  - cbn. reflexivity.
  - pose proof (strlen_nonneg s).
    replace (Z.to_nat (1 + strlen s + 1)) with (S (Z.to_nat (strlen s + 1))) by lia.
    cbn [take app strlen]. destruct (Z.eqb_spec c 0); [done|].
    rewrite IH by lia. reflexivity.
Qed.

Lemma peek_app_take (n : nat) (val rest : list Z) (q : Z) :
  0 <= q -> (Z.to_nat q < n <= length val)%nat -> peek (take n val ++ rest) q = peek val q.
Proof.
  intros Hq Hn. unfold peek.
  rewrite lookup_app_l by (rewrite length_take; lia).
  by rewrite lookup_take_lt by lia.
Qed.

Lemma take_app_take_le (k n : nat) (val rest : list Z) :
  (k <= n <= length val)%nat -> take k (take n val ++ rest) = take k val.
Proof.
  intros Hn. rewrite take_app_le by (rewrite length_take; lia).
  rewrite take_take. f_equal. lia.
Qed.

Lemma att_wellformed_varlena a :
  att_wellformed a = true -> attlen a = -1 -> attbyval a = false.
Proof.
  unfold att_wellformed. intros H E. destruct (attbyval a); [|done]. rewrite E in H. done.
Qed.

(** The length the decoder computes from the stored bytes of a varlena is
    the number of bytes stored. *)
Lemma stored_varsize a d rest :
  att_wellformed a = true -> datum_wellformed a d = true -> attlen a = -1 ->
  VARSIZE_ANY (stored a d ++ rest) = data_length_of a d.
Proof.
  intros Ha Hd E. pose proof (att_wellformed_varlena a Ha E) as Hbv.
  unfold datum_wellformed in Hd. destruct d as [v|m]; [by rewrite Hbv in Hd|].
  unfold stored, data_length_of, DatumGetEOHP. cbn [DatumGetPointer].
  rewrite Hbv, E in *. change (-1 =? -1) with true in *. cbv iota in *. cbn [negb andb] in Hd.
  destruct (VARATT_IS_EXTERNAL m) eqn:Hext.
  { destruct (VARATT_IS_EXTERNAL_EXPANDED m) eqn:Hexp.
    - apply andb_true_iff in Hd as [H4 Hsz]. apply Z.leb_le in H4. apply Z.eqb_eq in Hsz.
      unfold EOH_get_flat_size in *. rewrite <- Hsz.
      unfold VARSIZE_ANY, VARATT_IS_1B_E, VARATT_IS_1B, VARSIZE_EXTERNAL, VARTAG_EXTERNAL,
        VARTAG_1B_E, VARSIZE_1B, VARSIZE_4B.
      replace (byte0 (EOH_flat m ++ rest)) with (byte0 (EOH_flat m))
        by (unfold byte0; rewrite lookup_app_l by lia; done).
      replace (peek (EOH_flat m ++ rest) 1) with (peek (EOH_flat m) 1)
        by (unfold peek; rewrite lookup_app_l by lia; done).
      rewrite (take_app_le (EOH_flat m)) by lia. reflexivity.
    - apply Z.leb_le in Hd. pose proof (VARSIZE_EXTERNAL_ge m).
      unfold VARATT_IS_EXTERNAL, VARATT_IS_1B_E in Hext.
      unfold VARSIZE_ANY, VARATT_IS_1B_E.
      rewrite byte0_app_take by lia. rewrite Hext.
      unfold VARSIZE_EXTERNAL, VARTAG_EXTERNAL, VARTAG_1B_E in *.
      rewrite peek_app_take by (change (Z.to_nat 1) with 1%nat; lia). reflexivity. }
  destruct (VARATT_IS_SHORT m) eqn:Hshort.
  { apply andb_true_iff in Hd as [H1 H2]. apply Z.leb_le in H1. apply Z.leb_le in H2.
    unfold VARATT_IS_EXTERNAL, VARATT_IS_SHORT, VARSIZE_SHORT in *.
    unfold VARSIZE_ANY, VARATT_IS_1B_E, VARATT_IS_1B, VARSIZE_1B in *.
    rewrite byte0_app_take by lia. by rewrite Hext, Hshort. }
  apply andb_true_iff in Hd as [H1 H2]. apply Z.leb_le in H1. apply Z.leb_le in H2.
  unfold VARHDRSZ in H1.
  destruct (VARLENA_ATT_IS_PACKABLE a && VARATT_CAN_MAKE_SHORT m) eqn:Hpack.
  - apply andb_true_iff in Hpack as [_ Hcan]. unfold VARATT_CAN_MAKE_SHORT in Hcan.
    apply andb_true_iff in Hcan as [_ Hmax]. apply Z.leb_le in Hmax.
    unfold VARATT_CONVERTED_SHORT_SIZE, VARHDRSZ, VARHDRSZ_SHORT, VARATT_SHORT_MAX in *.
    rewrite short_header by lia.
    destruct (short_header_bits (VARSIZE m - 4 + 1) ltac:(lia)) as (Hb1 & Hb2 & Hb3 & Hb4).
    unfold VARSIZE_ANY, VARATT_IS_1B_E, VARATT_IS_1B, VARSIZE_1B.
    rewrite <- app_comm_cons, byte0_cons, Hb1, Hb2.
    destruct (Z.eqb_spec (VARSIZE m - 4 + 1 + 128) 128); [lia|]. reflexivity.
  - unfold VARATT_IS_EXTERNAL, VARATT_IS_SHORT, VARSIZE in *.
    unfold VARSIZE_ANY, VARATT_IS_1B_E, VARATT_IS_1B, VARSIZE_4B in *.
    rewrite byte0_app_take by lia. rewrite Hext, Hshort.
    rewrite take_app_take_le by lia. reflexivity.
Qed.

(** A varlena that fill_val stores without alignment starts with a byte
    that is not a pad byte. *)
Lemma stored_not_pad a d rest :
  att_wellformed a = true -> datum_wellformed a d = true -> attlen a = -1 ->
  stored_aligned a d = false -> VARATT_NOT_PAD_BYTE (stored a d ++ rest) = true.
Proof.
  intros Ha Hd E. pose proof (att_wellformed_varlena a Ha E) as Hbv.
  unfold datum_wellformed in Hd. destruct d as [v|m]; [by rewrite Hbv in Hd|].
  unfold stored, stored_aligned, VARATT_NOT_PAD_BYTE. cbn [DatumGetPointer].
  rewrite Hbv, E in *. change (-1 =? -1) with true in *. cbv iota in *. cbn [negb andb] in Hd.
  destruct (VARATT_IS_EXTERNAL m) eqn:Hext.
  { intros Hexp. rewrite Hexp in *. apply Z.leb_le in Hd. pose proof (VARSIZE_EXTERNAL_ge m).
    rewrite byte0_app_take by lia.
    unfold VARATT_IS_EXTERNAL, VARATT_IS_1B_E in Hext. apply Z.eqb_eq in Hext.
    rewrite Hext. reflexivity. }
  destruct (VARATT_IS_SHORT m) eqn:Hshort.
  { intros _. apply andb_true_iff in Hd as [H1 H2]. apply Z.leb_le in H1. apply Z.leb_le in H2.
    unfold VARSIZE_SHORT in *. rewrite byte0_app_take by lia.
    unfold VARATT_IS_SHORT, VARATT_IS_1B in Hshort. apply Z.eqb_eq in Hshort.
    destruct (Z.eqb_spec (byte0 m) 0) as [E0|]; [|done]. rewrite E0 in Hshort. done. }
  destruct (VARLENA_ATT_IS_PACKABLE a && VARATT_CAN_MAKE_SHORT m) eqn:Hpack; [|done].
  intros _. apply andb_true_iff in Hd as [H1 H2]. apply Z.leb_le in H1.
  apply andb_true_iff in Hpack as [_ Hcan]. unfold VARATT_CAN_MAKE_SHORT in Hcan.
  apply andb_true_iff in Hcan as [_ Hmax]. apply Z.leb_le in Hmax.
  unfold VARATT_CONVERTED_SHORT_SIZE, VARHDRSZ, VARHDRSZ_SHORT, VARATT_SHORT_MAX in *.
  rewrite short_header by lia. rewrite <- app_comm_cons, byte0_cons.
  destruct (Z.eqb_spec (VARSIZE m - 4 + 1 + 128) 0); [lia|done].
Qed.

(** The decoder steps over exactly the bytes fill_val stored. *)
Lemma stored_addlength a d rest x :
  att_wellformed a = true -> datum_wellformed a d = true ->
  att_addlength_pointer x (attlen a) (stored a d ++ rest) = x + data_length_of a d.
Proof.
  intros Ha Hd. unfold att_addlength_pointer.
  destruct (Z.ltb_spec 0 (attlen a)) as [Hpos|Hneg].
  { unfold data_length_of. destruct (attbyval a); [done|].
    destruct (Z.eqb_spec (attlen a) (-1)); [lia|].
    destruct (Z.eqb_spec (attlen a) (-2)); [lia|]. done. }
  destruct (Z.eqb_spec (attlen a) (-1)) as [E|E].
  { by rewrite stored_varsize. }
  unfold att_wellformed in Ha. unfold datum_wellformed in Hd.
  destruct (attbyval a) eqn:Hbv; [lia|].
  destruct (Z.eqb_spec (attlen a) (-2)) as [E2|E2]; [|lia].
  destruct d as [v|m]; [done|]. cbn [negb andb] in Hd.
  unfold stored, data_length_of. cbn [DatumGetPointer]. rewrite Hbv, E2 in *.
  change (-2 =? -1) with false in *. change (-2 =? -2) with true in *. cbv iota in *.
  apply Z.ltb_lt in Hd. by rewrite strlen_take_app.
Qed.

(** The decoder fetches the scalar that was stored, or a pointer to the
    stored bytes. *)
Lemma stored_fetch a d rest :
  att_wellformed a = true -> datum_wellformed a d = true ->
  fetchatt a (stored a d ++ rest)
  = if attbyval a then d else DatumPtr (stored a d ++ rest).
Proof.
  intros Ha Hd. destruct (attbyval a) eqn:Hbv; [|unfold fetchatt, fetch_att; by rewrite Hbv].
  unfold datum_wellformed in Hd. destruct d as [v|m]; [|by rewrite Hbv in Hd].
  rewrite Hbv in Hd. cbn [andb] in Hd. apply andb_true_iff in Hd as [H1 H2].
  apply Z.leb_le in H1. apply Z.ltb_lt in H2.
  unfold stored. rewrite Hbv. cbn [DatumGetValue].
  by apply fetch_store_byval.
Qed.

Lemma att_align_nominal_c x : att_align_nominal x "c" = x.
Proof. reflexivity. Qed.

Lemma data_image_prefix att values isnull hoff (k n : nat) :
  (k <= n)%nat ->
  exists more, data_image att values isnull hoff n = data_image att values isnull hoff k ++ more.
Proof.
  induction n as [|n IH]; intros Hk.
  - replace k with 0%nat by lia. by exists [].
  - destruct (decide (k = S n)) as [->|Hne]; [exists []; by rewrite app_nil_r|].
    destruct (IH ltac:(lia)) as [more Hmore].
    cbn [data_image]. rewrite Hmore. eexists. by rewrite <- app_assoc.
Qed.

(** ** Decoding the data area heap_fill_tuple wrote *)

Section RoundTrip.

Variables (att : list FormData_pg_attribute) (values : list Datum) (isnull : list bool).
Variables (tup : HeapTupleHeaderData) (hasnulls : bool) (L : Z) (n_atts : nat).

Hypothesis att_wf : forall j, (j < n_atts)%nat -> att_wellformed (att !!! j) = true.
Hypothesis values_wf : forall j, (j < n_atts)%nat -> isnull !!! j = false ->
  datum_wellformed (att !!! j) (values !!! j) = true.
Hypothesis hoff_aligned : 0 <= t_hoff tup /\ t_hoff tup mod 8 = 0.
Hypothesis image :
  mem_at (t_bytes tup) (t_hoff tup)
  = data_image att values isnull (t_hoff tup) n_atts
    ++ replicate (Z.to_nat (L - data_end att values isnull (t_hoff tup) n_atts)) 0.
Hypothesis bitmap : forall j, (j < n_atts)%nat ->
  hasnulls && att_isnull (Z.of_nat j) (mem_at (t_bytes tup) t_bits_off) = isnull !!! j.

(** The data area from the cursor before a non-null column onward: the
    padding, the stored bytes, and the rest of the block. *)
Lemma image_at (k : nat) :
  (k < n_atts)%nat -> isnull !!! k = false ->
  exists rest,
    mem_at (mem_at (t_bytes tup) (t_hoff tup))
           (data_end att values isnull (t_hoff tup) k - t_hoff tup)
    = replicate (Z.to_nat (stored_start (att !!! k) (values !!! k)
                             (data_end att values isnull (t_hoff tup) k)
                           - data_end att values isnull (t_hoff tup) k)) 0
      ++ stored (att !!! k) (values !!! k) ++ rest.
Proof.
  intros Hk Hnull. rewrite image.
  destruct (data_image_prefix att values isnull (t_hoff tup) (S k) n_atts ltac:(lia))
    as [more ->].
  cbn [data_image]. rewrite Hnull.
  pose proof (length_data_image att values isnull (t_hoff tup) n_atts att_wf values_wf k
                ltac:(lia)) as Hlen.
  unfold mem_at. rewrite <- Hlen, Nat2Z.id.
  rewrite <- !app_assoc. rewrite drop_app_length.
  eexists. reflexivity.
Qed.

Lemma bytewalk_step_null (k : nat) off :
  (k < n_atts)%nat -> isnull !!! k = true ->
  bytewalk_step att tup hasnulls k off = (DatumVal 0, true, off).
Proof. intros Hk Hnull. unfold bytewalk_step. by rewrite bitmap, Hnull. Qed.

(** One column of the walk over a non-null column reads the stored value
    and arrives where heap_fill_tuple's cursor was after the column. *)
Lemma bytewalk_step_stored (k : nat) :
  (k < n_atts)%nat -> isnull !!! k = false ->
  exists rest,
    bytewalk_step att tup hasnulls k (data_end att values isnull (t_hoff tup) k - t_hoff tup)
    = (if attbyval (att !!! k) then values !!! k
       else DatumPtr (stored (att !!! k) (values !!! k) ++ rest),
       false,
       data_end att values isnull (t_hoff tup) (S k) - t_hoff tup).
Proof.
  intros Hk Hnull.
  destruct (image_at k Hk Hnull) as [rest Himg].
  pose proof (att_wf k Hk) as Ha. pose proof (values_wf k Hk Hnull) as Hd.
  destruct hoff_aligned as [Hh0 Hh8].
  pose proof (data_end_ge att values isnull (t_hoff tup) n_atts att_wf values_wf k ltac:(lia))
    as Hge.
  set (p := data_end att values isnull (t_hoff tup) k) in *.
  set (a := att !!! k) in *. set (d := values !!! k) in *.
  pose proof (stored_start_bounds a d p) as Hsb.
  set (tp := mem_at (t_bytes tup) (t_hoff tup)) in *.
  assert (att_align_nominal (p - t_hoff tup) (attalign a)
          = att_align_nominal p (attalign a) - t_hoff tup) as Hshift.
  { replace p with (t_hoff tup + (p - t_hoff tup)) at 2 by lia.
    rewrite att_align_nominal_shift by done. lia. }
  (* where the decoder finds the value *)
  assert ((if attlen a =? -1
           then att_align_pointer (p - t_hoff tup) (attalign a) (-1) (mem_at tp (p - t_hoff tup))
           else att_align_nominal (p - t_hoff tup) (attalign a))
          = stored_start a d p - t_hoff tup) as Hstart.
  { destruct (Z.eqb_spec (attlen a) (-1)) as [E|E].
    - unfold att_align_pointer. change (-1 =? -1) with true. cbn [andb].
      unfold stored_start in *. destruct (stored_aligned a d) eqn:Hal.
      + rewrite Hshift. destruct (VARATT_NOT_PAD_BYTE (mem_at tp (p - t_hoff tup))) eqn:Hpad;
          [|done].
        rewrite Himg in Hpad.
        destruct (Z.to_nat (att_align_nominal p (attalign a) - p)) as [|z] eqn:Ez; [lia|].
        by cbn in Hpad.
      + rewrite Himg. rewrite Z.sub_diag. change (Z.to_nat 0) with 0%nat.
        cbn [replicate app].
        by rewrite stored_not_pad.
    - unfold stored_start, stored_aligned. unfold att_wellformed in Ha.
      unfold datum_wellformed in Hd.
      destruct (attbyval a) eqn:Hbv; [done|].
      destruct (Z.eqb_spec (attlen a) (-1)); [done|].
      destruct (Z.eqb_spec (attlen a) (-2)) as [E2|E2]; [|done].
      destruct (Z.ltb_spec 0 (attlen a)); [lia|]. cbn [orb andb] in Ha.
      apply Ascii.eqb_eq in Ha. rewrite Ha. apply att_align_nominal_c. }
  assert (mem_at tp (stored_start a d p - t_hoff tup) = stored a d ++ rest) as Hval.
  { replace (stored_start a d p - t_hoff tup)
      with ((p - t_hoff tup) + (stored_start a d p - p)) by lia.
    rewrite <- mem_at_mem_at by lia. rewrite Himg.
    unfold mem_at. rewrite drop_app_length'; [done|]. by rewrite length_replicate. }
  exists rest. unfold bytewalk_step. rewrite bitmap, Hnull by done. cbv zeta.
  fold a tp. rewrite Hstart, Hval.
  rewrite stored_addlength, stored_fetch by done.
  f_equal. cbn [data_end]. rewrite Hnull. fold p a d. lia.
Qed.

Lemma roundtrip_off (k : nat) :
  (k <= n_atts)%nat ->
  bytewalk_off att tup hasnulls k = data_end att values isnull (t_hoff tup) k - t_hoff tup.
Proof.
  induction k as [|k IH]; intros Hk.
  - cbn. lia.
  - cbn [bytewalk_off]. rewrite IH by lia.
    destruct (isnull !!! k) eqn:Hnull.
    + rewrite bytewalk_step_null by (done || lia). cbn [snd data_end]. by rewrite Hnull.
    + destruct (bytewalk_step_stored k ltac:(lia) Hnull) as [rest ->]. done.
Qed.

(** The cache-free walk reads back every column of the row. *)
Lemma roundtrip_value (k : nat) :
  (k < n_atts)%nat ->
  exists rest,
    bytewalk_value att tup hasnulls k
    = if (isnull !!! k : bool) then (DatumVal 0, true)
      else (if attbyval (att !!! k) then values !!! k
            else DatumPtr (stored (att !!! k) (values !!! k) ++ rest), false).
Proof.
  intros Hk. unfold bytewalk_value. rewrite roundtrip_off by lia.
  destruct (isnull !!! k) eqn:Hnull.
  - exists []. by rewrite bytewalk_step_null.
  - destruct (bytewalk_step_stored k Hk Hnull) as [rest ->]. by exists rest.
Qed.

End RoundTrip.

(** ** The round trip *)

Lemma stored_as_given_take a d :
  attbyval a = false -> stored_as_given a d = true ->
  stored a d = take (Z.to_nat (data_length_of a d)) (DatumGetPointer d).
Proof.
  intros Hbv. unfold stored_as_given, stored, data_length_of. rewrite Hbv.
  destruct (attlen a =? -1); [|by destruct (attlen a =? -2)].
  cbn [andb]. intros H. apply negb_true_iff, orb_false_iff in H as [Hexp Hconv].
  rewrite Hexp, Hconv.
  destruct (VARATT_IS_EXTERNAL (DatumGetPointer d)); [done|].
  by destruct (VARATT_IS_SHORT (DatumGetPointer d)).
Qed.

(** In the tuple heap_form_tuple builds, the null test of the decoder reads
    isnull[i] back. *)
Lemma formed_tuple_nulls td values isnull sflag diskey secdiskey relid sid tuple :
  desc_wellformed td -> arrays_wellformed td values isnull ->
  heap_form_tuple_shard td values isnull sflag diskey secdiskey relid sid = OK tuple ->
  forall i, (i < Z.to_nat (natts td))%nat ->
    HeapTupleHasNulls tuple
    && att_isnull (Z.of_nat i) (mem_at (t_bytes (tup_of tuple)) t_bits_off)
    = isnull !!! i.
Proof.
  intros Hdesc Harr Hform i Hi.
  destruct (heap_form_tuple_shard_inv _ _ _ _ _ _ _ _ _ Hdesc Harr Hform)
    as (hd & st & Hdata & Hhoff & _ & Him & Hbytes & _ & _ & _ & _ & Hinv).
  destruct Hinv as (_ & _ & _ & Hflags & Hbits).
  unfold HeapTupleHasNulls, tup_of. rewrite Hdata. cbn [from_option]. unfold id.
  rewrite Him, Hflags, Hbytes.
  change HEAP_HASNULL with (2 ^ 0). rewrite land_pow2_eq0 by lia.
  rewrite negb_involutive, Z.lor_spec, row_flags_bit0, formed_infomask0_bit0. cbn [orb].
  destruct (check_for_nulls isnull 0 (Z.to_nat (natts td))) eqn:Hnull.
  - destruct Hbits as (_ & _ & Hbits). cbn [andb].
    rewrite att_isnull_testbit by lia.
    rewrite peek_mem_at by (try exact t_bits_off_nonneg; div_lia).
    rewrite Hbits by div_lia. rewrite Nat2Z.id.
    destruct (Z.ltb_spec (Z.of_nat i) (Z.of_nat (Z.to_nat (natts td)))); [|lia].
    cbn [andb]. apply negb_involutive.
  - cbn [andb]. symmetry. by apply (check_for_nulls_false _ _ Hnull).
Qed.

(** C1, as amended: heap_deform_tuple reads back, from the tuple
    heap_form_tuple_shard built, the isnull array, a zero Datum for every
    null column, the scalar of every non-null pass-by-value column, and for
    every non-null pass-by-reference column a pointer to the bytes fill_val
    stored for it.  These are the bytes of the value given, except for an
    expanded object (stored flattened) and for a 4-byte-header varlena that
    a packable column stores in the 1-byte-header form. *)
Theorem heap_form_deform_round_trip (td : TupleDesc) (values : list Datum)
    (isnull : list bool) (sflag : SetShardFlag) (diskey secdiskey relid sid : Z)
    (tuple : HeapTupleData) (values0 : list Datum) (isnull0 : list bool) :
  desc_wellformed td -> arrays_wellformed td values isnull ->
  cache_ok (desc_att td) ->
  Z.of_nat (length values0) = natts td -> Z.of_nat (length isnull0) = natts td ->
  heap_form_tuple_shard td values isnull sflag diskey secdiskey relid sid = OK tuple ->
  (heap_deform_tuple tuple td values0 isnull0).2 = isnull /\
  forall i, (i < Z.to_nat (natts td))%nat ->
    let a := desc_att td !!! i in
    let d := (heap_deform_tuple tuple td values0 isnull0).1.2 !!! i in
    if (isnull !!! i : bool) then d = DatumVal 0
    else if attbyval a then d = values !!! i
    else (exists rest, d = DatumPtr (stored a (values !!! i) ++ rest)) /\
         (stored_as_given a (values !!! i) = true ->
          stored a (values !!! i)
          = take (Z.to_nat (data_length_of a (values !!! i)))
                 (DatumGetPointer (values !!! i))).
Proof.
  intros Hdesc Harr Hok Hlv Hln Hform.
  destruct (heap_form_tuple_shard_inv _ _ _ _ _ _ _ _ _ Hdesc Harr Hform)
    as (hd & st & Hdata & Hhoff & Hnatts & Him & Hbytes & _ & _ & _ & _ & Hinv).
  pose proof (formed_tuple_nulls _ _ _ _ _ _ _ _ _ Hdesc Harr Hform) as Hnulls.
  destruct Hdesc as (Hlen & Hmax & Hwf). destruct Harr as (Hvl & Hnl & Hvwf).
  destruct (heap_deform_tuple_bytewalk tuple td values0 isnull0 Hok ltac:(lia))
    as (Hbw & _ & _).
  assert (tup_of tuple = hd) as Htup by (unfold tup_of; by rewrite Hdata).
  unfold bytewalk_deform in Hbw. cbv zeta in Hbw.
  assert (HeapTupleHeaderGetNatts (tup_of tuple) = natts td) as Hn.
  { rewrite Htup. unfold HeapTupleHeaderGetNatts, HEAP_NATTS_MASK. rewrite Hnatts.
    change 2047 with (Z.ones 11). rewrite Z.land_ones by lia.
    apply Z.mod_small. unfold MaxTupleAttributeNumber in Hmax. lia. }
  rewrite Hn, Z.min_id, Nat.sub_diag in Hbw.
  set (n := Z.to_nat (natts td)) in *.
  set (att := desc_att td) in *.
  destruct (bytewalk_fill att (tup_of tuple) (HeapTupleHasNulls tuple) 0 n values0 isnull0)
    as [vs ns] eqn:Hfill.
  cbn [heap_deform_missing_loop] in Hbw.
  apply (f_equal fst) in Hbw as Hv. apply (f_equal snd) in Hbw as Hb. cbn [fst snd] in Hv, Hb.
  rewrite Hv, Hb.
  destruct (length_bytewalk_fill att (tup_of tuple) (HeapTupleHasNulls tuple) n 0 values0 isnull0)
    as [Hl1 Hl2].
  rewrite Hfill in Hl1, Hl2. cbn [fst snd] in Hl1, Hl2.
  (* the hypotheses of the walk over the data area *)
  assert (forall j, (j < n)%nat -> att_wellformed (att !!! j) = true) as Hawf.
  { intros j Hj. destruct (lookup_lt_is_Some_2 att j ltac:(lia)) as [a Ha].
    rewrite (list_lookup_total_correct _ _ _ Ha). by eapply Hwf. }
  assert (forall j, (j < n)%nat -> isnull !!! j = false ->
            datum_wellformed (att !!! j) (values !!! j) = true) as Hdwf.
  { intros j Hj Hnull.
    destruct (lookup_lt_is_Some_2 att j ltac:(lia)) as [a Ha].
    destruct (lookup_lt_is_Some_2 values j ltac:(lia)) as [d Hd].
    destruct (lookup_lt_is_Some_2 isnull j ltac:(lia)) as [b Hb'].
    rewrite (list_lookup_total_correct _ _ _ Ha), (list_lookup_total_correct _ _ _ Hd).
    rewrite (list_lookup_total_correct _ _ _ Hb') in Hnull. subst b. by eapply Hvwf. }
  destruct (formed_hoff_bounds td isnull ltac:(lia)) as (Hh1 & Hh2 & _).
  destruct Hinv as (_ & _ & Himg & _).
  assert (forall k, (k < n)%nat -> exists rest,
            bytewalk_value att (tup_of tuple) (HeapTupleHasNulls tuple) k
            = if (isnull !!! k : bool) then (DatumVal 0, true)
              else (if attbyval (att !!! k) then values !!! k
                    else DatumPtr (stored (att !!! k) (values !!! k) ++ rest), false)) as Hwalk.
  { intros k Hk.
    apply (roundtrip_value att values isnull (tup_of tuple) (HeapTupleHasNulls tuple)
             (formed_hoff td isnull + heap_compute_data_size td values isnull) n);
      try done; rewrite Htup, ?Hhoff, ?Hbytes; try done. lia. }
  assert (forall k, (k < n)%nat ->
            vs !!! k = (bytewalk_value att (tup_of tuple) (HeapTupleHasNulls tuple) k).1 /\
            ns !!! k = (bytewalk_value att (tup_of tuple) (HeapTupleHasNulls tuple) k).2)
    as Hlook.
  { intros k Hk.
    pose proof (bytewalk_fill_lookup att (tup_of tuple) (HeapTupleHasNulls tuple) n 0 k
                  values0 isnull0 ltac:(lia) ltac:(lia) ltac:(lia)) as Hk'.
    by rewrite Hfill in Hk'. }
  split.
  - apply (list_eq_same_length _ _ n); [lia|lia|].
    intros i x y Hi Hx Hy.
    destruct (Hlook i Hi) as [_ H2]. destruct (Hwalk i Hi) as [rest Hw].
    rewrite (list_lookup_total_correct _ _ _ Hx) in H2.
    rewrite Hw, (list_lookup_total_correct _ _ _ Hy) in H2. by destruct y.
  - intros i Hi. cbv zeta.
    destruct (Hlook i Hi) as [H1 _]. destruct (Hwalk i Hi) as [rest Hw].
    rewrite H1, Hw.
    destruct (isnull !!! i); [done|]. cbn [fst].
    destruct (attbyval (att !!! i)) eqn:Hbv; [done|].
    split; [by exists rest|]. by apply stored_as_given_take.
Qed.

(** ** heap_modify_tuple_by_cols *)

Lemma deform_attr_arrays tup hasnulls i st :
  exists v b,
    ds_values (deform_attr tup hasnulls i st) = <[i := v]> (ds_values st) /\
    ds_isnull (deform_attr tup hasnulls i st) = <[i := b]> (ds_isnull st).
Proof.
  unfold deform_attr.
  destruct (hasnulls && _); [by eauto|].
  destruct (negb (ds_slow st) && _); [by eauto|].
  destruct (attlen _ =? -1); [destruct (negb (ds_slow st) && _)|]; cbn; by eauto.
Qed.

Lemma length_deform_loop tup hasnulls n : forall i st,
  length (ds_values (deform_loop tup hasnulls i n st)) = length (ds_values st) /\
  length (ds_isnull (deform_loop tup hasnulls i n st)) = length (ds_isnull st).
Proof.
  induction n as [|n IH]; intros i st; [done|].
  cbn [deform_loop]. destruct (IH (S i) (deform_attr tup hasnulls i st)) as [-> ->].
  destruct (deform_attr_arrays tup hasnulls i st) as (v & b & -> & ->).
  by rewrite !length_insert.
Qed.

Lemma length_heap_deform_missing_loop td n : forall i values isnull,
  length (heap_deform_missing_loop td i n values isnull).1 = length values /\
  length (heap_deform_missing_loop td i n values isnull).2 = length isnull.
Proof.
  induction n as [|n IH]; intros i values isnull; [done|].
  cbn [heap_deform_missing_loop]. destruct (getmissingattr td (Z.of_nat i + 1)) as [v b].
  destruct (IH (S i) (<[i := v]> values) (<[i := b]> isnull)) as [-> ->].
  by rewrite !length_insert.
Qed.

Lemma length_heap_deform_tuple tuple td values isnull :
  length (heap_deform_tuple tuple td values isnull).1.2 = length values /\
  length (heap_deform_tuple tuple td values isnull).2 = length isnull.
Proof.
  unfold heap_deform_tuple. cbv zeta.
  set (st := deform_loop _ _ _ _ _).
  pose proof (length_heap_deform_missing_loop (set_desc_att td (ds_att st))
                (Z.to_nat (Z.min (HeapTupleHeaderGetNatts (tup_of tuple)) (natts td)) -
                 Z.to_nat (Z.min (HeapTupleHeaderGetNatts (tup_of tuple)) (natts td)))) as _.
  match goal with
  | |- context [heap_deform_missing_loop ?d ?i ?n ?v ?b] =>
    pose proof (length_heap_deform_missing_loop d n i v b) as [H1 H2];
    destruct (heap_deform_missing_loop d i n v b) as [vs ns]
  end.
  cbn [fst snd] in *. rewrite H1, H2. subst st.
  match goal with
  | |- context [deform_loop ?t ?h ?i ?n ?s] =>
    destruct (length_deform_loop t h n i s) as [-> ->]
  end.
  done.
Qed.

(** The loop over the target columns: it stops with the error at the first
    column number out of range, and otherwise overwrites the listed
    entries, the last write to an entry winning. *)
Lemma heap_modify_cols_loop_spec numberOfAttributes replCols replValues replIsnull n :
  forall i values isnull,
  match heap_modify_cols_loop numberOfAttributes replCols replValues replIsnull i n
          values isnull with
  | Err e =>
    exists k, (i <= k < i + n)%nat /\
      (replCols !!! k <= 0 \/ numberOfAttributes < replCols !!! k) /\
      e = elog_ERROR "invalid column number" (replCols !!! k)
  | OK arrays =>
    (forall k, (i <= k < i + n)%nat -> 0 < replCols !!! k <= numberOfAttributes) /\
    length arrays.1 = length values /\ length arrays.2 = length isnull /\
    (forall j, (forall k, (i <= k < i + n)%nat -> replCols !!! k <> Z.of_nat j + 1) ->
       arrays.1 !!! j = values !!! j /\ arrays.2 !!! j = isnull !!! j) /\
    (forall k, (i <= k < i + n)%nat ->
       (forall k', (k < k' < i + n)%nat -> replCols !!! k' <> replCols !!! k) ->
       (Z.to_nat (replCols !!! k - 1) < length values)%nat ->
       (Z.to_nat (replCols !!! k - 1) < length isnull)%nat ->
       arrays.1 !!! Z.to_nat (replCols !!! k - 1) = replValues !!! k /\
       arrays.2 !!! Z.to_nat (replCols !!! k - 1) = replIsnull !!! k)
  end.
Proof.
  induction n as [|n IH]; intros i values isnull; cbn [heap_modify_cols_loop].
  - split; [intros k Hk; lia|]. split; [done|]. split; [done|].
    split; [done|]. intros k Hk. lia.
  - destruct (Z.leb_spec (replCols !!! i) 0) as [Hle|Hgt]; cbn [orb].
    { exists i. split; [lia|]. split; [by left|done]. }
    destruct (Z.ltb_spec numberOfAttributes (replCols !!! i)) as [Hlt|Hge].
    { exists i. split; [lia|]. split; [by right|done]. }
    specialize (IH (S i) (<[Z.to_nat (replCols !!! i - 1) := replValues !!! i]> values)
                  (<[Z.to_nat (replCols !!! i - 1) := replIsnull !!! i]> isnull)).
    destruct (heap_modify_cols_loop _ _ _ _ _ _ _ _) as [arrays|e].
    + destruct IH as (Hrange & Hl1 & Hl2 & Hkeep & Hset).
      rewrite length_insert in Hl1. rewrite length_insert in Hl2.
      split; [|split; [done|split; [done|split]]].
      * intros k Hk. destruct (decide (k = i)) as [->|Hne]; [lia|]. apply Hrange. lia.
      * intros j Hj. destruct (Hkeep j) as [-> ->]; [intros k Hk; apply Hj; lia|].
        pose proof (Hj i ltac:(lia)).
        by rewrite !list_lookup_total_insert_ne by lia.
      * intros k Hk Hlast Hv Hn. destruct (decide (k = i)) as [->|Hne].
        -- destruct (Hkeep (Z.to_nat (replCols !!! i - 1))) as [-> ->].
           { intros k' Hk'. rewrite Z2Nat.id by lia.
             pose proof (Hlast k' ltac:(lia)). lia. }
           by rewrite !list_lookup_total_insert_eq by lia.
        -- apply Hset; rewrite ?length_insert; try done; try lia.
           intros k' Hk'. apply Hlast. lia.
    + destruct IH as (k & Hk & Hbad & ->). exists k. split; [lia|done].
Qed.

Lemma heap_form_tuple_shard_data td values isnull sflag diskey secdiskey relid sid tuple :
  heap_form_tuple_shard td values isnull sflag diskey secdiskey relid sid = OK tuple ->
  exists hd, t_data tuple = Some hd /\ t_ctid hd = ItemPointerSetInvalid.
Proof.
  unfold heap_form_tuple_shard, heap_fill_tuple.
  destruct (MaxTupleAttributeNumber <? natts td); [discriminate|].
  destruct (check_for_nulls isnull 0 (Z.to_nat (natts td))); cbv beta iota zeta;
    destruct sflag;
    repeat match goal with
           | |- context [if ?b then Err _ else _] => destruct b
           | |- context [if ?b then (_, _, _) else _] => destruct b
           end;
    try discriminate; intros [= <-]; eexists; split; reflexivity.
Qed.

(** Reading the object id that HeapTupleSetOid wrote. *)
Lemma HeapTupleHeaderGetOid_SetOid oid hd :
  Z.testbit (t_infomask hd) 3 = true ->
  sizeof_Oid <= t_hoff hd <= Z.of_nat (length (t_bytes hd)) ->
  HeapTupleHeaderGetOid (HeapTupleHeaderSetOid oid hd) = oid mod 2 ^ 32.
Proof.
  intros Hbit Hhoff. unfold HeapTupleHeaderGetOid, HeapTupleHeaderSetOid, sizeof_Oid in *.
  cbn [set_t_bytes t_infomask t_hoff t_bytes].
  change HEAP_HASOID with (2 ^ 3). rewrite land_pow2_eq0 by lia. rewrite Hbit. cbn [negb].
  rewrite memcpy_splice. change (Z.to_nat 4) with 4%nat.
  rewrite (take_ge (encode_be 4 oid)) by (by rewrite length_encode_be).
  rewrite mem_at_splice by lia.
  rewrite take_app_length' by (by rewrite length_encode_be).
  rewrite decode_encode_be. reflexivity.
Qed.

Lemma heap_deform_tuple_desc tuple td values isnull :
  natts (heap_deform_tuple tuple td values isnull).1.1 = natts td /\
  tdhasoid (heap_deform_tuple tuple td values isnull).1.1 = tdhasoid td.
Proof.
  unfold heap_deform_tuple. cbv zeta.
  destruct (heap_deform_missing_loop _ _ _ _ _) as [vs ns]. cbn [fst snd].
  unfold set_desc_att. by destruct (transp_crypt_attrs_ext td).
Qed.

Lemma heap_compute_data_size_nonneg td values isnull :
  desc_wellformed td -> arrays_wellformed td values isnull ->
  0 <= heap_compute_data_size td values isnull.
Proof.
  intros (Hnatts & Hmax & Hatt) (Hlv & Hln & Hval).
  set (n := Z.to_nat (natts td)) in *.
  assert (forall j, (j < n)%nat -> att_wellformed (desc_att td !!! j) = true) as Hatt'.
  { intros j Hj. destruct (lookup_lt_is_Some_2 (desc_att td) j ltac:(lia)) as [a Ha].
    rewrite (list_lookup_total_correct _ _ _ Ha). eauto. }
  assert (forall j, (j < n)%nat -> isnull !!! j = false ->
            datum_wellformed (desc_att td !!! j) (values !!! j) = true) as Hval'.
  { intros j Hj Hnull.
    destruct (lookup_lt_is_Some_2 (desc_att td) j ltac:(lia)) as [a Ha].
    destruct (lookup_lt_is_Some_2 values j ltac:(lia)) as [d Hd].
    destruct (lookup_lt_is_Some_2 isnull j ltac:(lia)) as [b Hb].
    rewrite (list_lookup_total_correct _ _ _ Ha), (list_lookup_total_correct _ _ _ Hd).
    rewrite (list_lookup_total_correct _ _ _ Hb) in Hnull. subst b. eauto. }
  unfold heap_compute_data_size. fold n.
  rewrite (heap_compute_data_size_loop_end _ _ _ 0 n 0); [|intros j Hj; apply Hatt'; lia|done].
  apply (data_end_ge (desc_att td) values isnull 0 n Hatt' Hval' n). lia.
Qed.

(** C8: heap_modify_tuple_by_cols, for a descriptor within the column
    limit, fails exactly when some target column number is out of range
    (<= 0 or > natts), with the "invalid column number" error for the first
    such number; otherwise it returns the tuple that heap_form_tuple builds
    from the decoded arrays of the old tuple in which the listed (1-based)
    columns carry the replacement value and null flag (the last entry for a
    column winning) and the other columns are untouched, with t_self,
    t_tableOid, t_ctid and, if the descriptor has one, the object id of the
    old tuple copied onto it. *)
Theorem heap_modify_tuple_by_cols_spec (tuple : HeapTupleData) (tupleDesc : TupleDesc)
    (nCols : Z) (replCols : list Z) (replValues : list Datum) (replIsnull : list bool) :
  natts tupleDesc <= MaxTupleAttributeNumber ->
  let n := natts tupleDesc in
  let old := heap_deform_tuple tuple tupleDesc (palloc_values n) (palloc_isnull n) in
  match heap_modify_tuple_by_cols tuple tupleDesc nCols replCols replValues replIsnull with
  | Err e =>
    exists i, (i < Z.to_nat nCols)%nat /\
      (replCols !!! i <= 0 \/ n < replCols !!! i) /\
      e = elog_ERROR "invalid column number" (replCols !!! i)
  | OK r =>
    (forall i, (i < Z.to_nat nCols)%nat -> 0 < replCols !!! i <= n) /\
    r.1 = old.1.1 /\
    exists values isnull newTuple,
      heap_form_tuple r.1 values isnull = OK newTuple /\
      r.2 = copy_identification r.1 tuple newTuple false /\
      (forall j, (forall i, (i < Z.to_nat nCols)%nat -> replCols !!! i <> Z.of_nat j + 1) ->
         values !!! j = old.1.2 !!! j /\ isnull !!! j = old.2 !!! j) /\
      (forall i, (i < Z.to_nat nCols)%nat ->
         (forall i', (i < i' < Z.to_nat nCols)%nat -> replCols !!! i' <> replCols !!! i) ->
         values !!! Z.to_nat (replCols !!! i - 1) = replValues !!! i /\
         isnull !!! Z.to_nat (replCols !!! i - 1) = replIsnull !!! i) /\
      t_self r.2 = t_self tuple /\ t_tableOid r.2 = t_tableOid tuple /\
      t_ctid (tup_of r.2) = t_ctid (tup_of tuple) /\
      (tdhasoid tupleDesc = true -> desc_wellformed r.1 -> arrays_wellformed r.1 values isnull ->
       HeapTupleGetOid r.2 = HeapTupleGetOid tuple mod 2 ^ 32)
  end.
Proof.
  intros Hmax. cbv zeta. unfold heap_modify_tuple_by_cols.
  destruct (heap_deform_tuple_desc tuple tupleDesc (palloc_values (natts tupleDesc))
              (palloc_isnull (natts tupleDesc))) as [Hn Hoid].
  destruct (length_heap_deform_tuple tuple tupleDesc (palloc_values (natts tupleDesc))
              (palloc_isnull (natts tupleDesc))) as [Hl1 Hl2].
  destruct (heap_deform_tuple tuple tupleDesc (palloc_values (natts tupleDesc))
              (palloc_isnull (natts tupleDesc))) as [[td' vs] ns].
  cbn [fst snd] in *.
  unfold palloc_values, palloc_isnull in Hl1, Hl2.
  rewrite length_replicate in Hl1. rewrite length_replicate in Hl2.
  pose proof (heap_modify_cols_loop_spec (natts tupleDesc) replCols replValues replIsnull
                (Z.to_nat nCols) 0 vs ns) as Hloop.
  destruct (heap_modify_cols_loop _ _ _ _ _ _ _ _) as [arrays|e]; cbn [bind].
  2: { destruct Hloop as (k & Hk & Hbad & ->). exists k. split; [lia|done]. }
  destruct Hloop as (Hrange & _ & _ & Hkeep & Hset).
  destruct (heap_form_tuple_returns td' arrays.1 arrays.2 ltac:(lia)) as [newTuple Hform].
  rewrite Hform. cbn [bind fst snd].
  destruct (heap_form_tuple_shard_data _ _ _ _ _ _ _ _ _ Hform) as (hd & Hdata & _).
  split; [intros i Hi; apply Hrange; lia|]. split; [done|].
  exists arrays.1, arrays.2, newTuple.
  split; [done|]. split; [done|].
  split; [intros j Hj; apply Hkeep; intros k Hk; apply Hj; lia|].
  split.
  { intros i Hi Hlast. pose proof (Hrange i ltac:(lia)).
    apply Hset; [lia| |lia|lia]. intros k' Hk'. apply Hlast. lia. }
  unfold copy_identification. rewrite Hdata, Hoid.
  destruct (tdhasoid tupleDesc) eqn:Hhasoid;
    cbn [HeapTupleSetOid t_self t_tableOid t_data tup_of fmap option_fmap option_map
         from_option];
    (split; [done|]); (split; [done|]); (split; [done|]); [|done].
  intros _ Hdesc Harr.
  destruct (heap_form_tuple_shard_inv _ _ _ _ _ _ _ _ _ Hdesc Harr Hform)
    as (hd' & st & Hdata' & Hhoff & _ & Him & Hbytes & _ & _ & _ & _ & Hinv).
  rewrite Hdata in Hdata'. injection Hdata' as <-.
  destruct Hinv as (_ & Hlen & _ & Hflags & _).
  pose proof (heap_compute_data_size_nonneg _ _ _ Hdesc Harr) as Hsize.
  destruct Hdesc as (Hnn & _).
  destruct (formed_hoff_bounds td' arrays.2 ltac:(lia)) as (_ & _ & Hoidroom & _).
  rewrite Hoid in Hoidroom.
  unfold HeapTupleGetOid at 1. unfold tup_of at 1.
  cbn [t_data from_option]. unfold id.
  apply HeapTupleHeaderGetOid_SetOid.
  - cbn [set_t_ctid t_infomask]. rewrite Him, Hflags, formed_infomask0_eq, Hoid.
    rewrite Z.lor_spec. reflexivity.
  - cbn [set_t_ctid t_hoff t_bytes]. rewrite Hhoff, Hbytes.
    pose proof t_bits_off_nonneg. unfold sizeof_Oid in *. lia.
Qed.

(** * Further properties of the code *)

(** ** The tuple heap_form_tuple builds *)

Lemma value_flags_bits a d :
  Z.testbit (value_flags a d) 1 = is_varwidth a /\
  Z.testbit (value_flags a d) 2 = is_external_ref a d.
Proof.
  unfold value_flags, is_varwidth, is_external_ref.
  destruct (attbyval a); [done|]. cbn [negb andb].
  destruct (attlen a =? -1) eqn:E1.
  - cbn [orb andb].
    destruct (VARATT_IS_EXTERNAL (DatumGetPointer d));
      destruct (VARATT_IS_EXTERNAL_EXPANDED (DatumGetPointer d)); done.
  - destruct (attlen a =? -2); done.
Qed.

Lemma row_flags_bits att values isnull k :
  Z.testbit (row_flags att values isnull k) 1
  = existsb (fun j => negb (isnull !!! j) && is_varwidth (att !!! j)) (seq 0 k) /\
  Z.testbit (row_flags att values isnull k) 2
  = existsb (fun j => negb (isnull !!! j) && is_external_ref (att !!! j) (values !!! j))
            (seq 0 k).
Proof.
  induction k as [|k [IH1 IH2]]; [done|].
  cbn [row_flags]. rewrite seq_S, !existsb_app, !Z.lor_spec, IH1, IH2. cbn [Nat.add existsb].
  rewrite !orb_false_r.
  destruct (value_flags_bits (att !!! k) (values !!! k)) as [H1 H2].
  destruct (isnull !!! k); cbn [negb andb]; [done|]. by rewrite H1, H2.
Qed.

Lemma row_flags_bit3 att values isnull k :
  Z.testbit (row_flags att values isnull k) 3 = false.
Proof.
  induction k as [|k IH]; [done|].
  cbn [row_flags]. rewrite Z.lor_spec, IH. cbn [orb].
  destruct (isnull !!! k); [done|]. unfold value_flags.
  destruct (attbyval _); [done|]. destruct (attlen _ =? -1).
  - by destruct (_ && _).
  - by destruct (attlen _ =? -2).
Qed.

(** The flags of the tuple heap_form_tuple builds. *)
Lemma formed_tuple_infomask td values isnull sflag diskey secdiskey relid sid tuple :
  desc_wellformed td -> arrays_wellformed td values isnull ->
  heap_form_tuple_shard td values isnull sflag diskey secdiskey relid sid = OK tuple ->
  t_infomask (tup_of tuple)
  = Z.lor (if tdhasoid td then HEAP_HASOID else 0)
          (row_flags (desc_att td) values isnull (Z.to_nat (natts td))) /\
  HeapTupleHeaderGetNatts (tup_of tuple) = natts td.
Proof.
  intros Hdesc Harr Hform.
  destruct (heap_form_tuple_shard_inv _ _ _ _ _ _ _ _ _ Hdesc Harr Hform)
    as (hd & st & Hdata & _ & Hnatts & Him & _ & _ & _ & _ & _ & Hinv).
  destruct Hinv as (_ & _ & _ & Hflags & _).
  unfold tup_of. rewrite Hdata. cbn [from_option]. unfold id.
  split; [by rewrite Him, Hflags, formed_infomask0_eq|].
  destruct Hdesc as (Hlen & Hmax & _).
  unfold HeapTupleHeaderGetNatts, HEAP_NATTS_MASK. rewrite Hnatts.
  change 2047 with (Z.ones 11). rewrite Z.land_ones by lia.
  apply Z.mod_small. unfold MaxTupleAttributeNumber in Hmax. lia.
Qed.

Lemma att_wellformed_fixed a :
  att_wellformed a = true -> is_varwidth a = false -> 0 < attlen a.
Proof.
  unfold att_wellformed, is_varwidth. destruct (attbyval a); cbn [negb andb]; lia.
Qed.

(** A tuple heap_form_tuple builds has an honest HEAP_HASVARWIDTH flag. *)
Lemma formed_tuple_varwidth_flag td values isnull sflag diskey secdiskey relid sid tuple :
  desc_wellformed td -> arrays_wellformed td values isnull ->
  heap_form_tuple_shard td values isnull sflag diskey secdiskey relid sid = OK tuple ->
  varwidth_flag_ok (desc_att td) tuple = true.
Proof.
  intros Hdesc Harr Hform.
  destruct (formed_tuple_infomask _ _ _ _ _ _ _ _ _ Hdesc Harr Hform) as [Him Hn].
  pose proof (formed_tuple_nulls _ _ _ _ _ _ _ _ _ Hdesc Harr Hform) as Hnulls.
  unfold varwidth_flag_ok, HeapTupleHasVarWidth. rewrite Hn, Him.
  change HEAP_HASVARWIDTH with (2 ^ 1). rewrite land_pow2_eq0 by lia.
  rewrite negb_involutive, Z.lor_spec.
  destruct (row_flags_bits (desc_att td) values isnull (Z.to_nat (natts td))) as [-> _].
  replace (Z.testbit (if tdhasoid td then HEAP_HASOID else 0) 1) with false
    by (by destruct (tdhasoid td)).
  cbn [orb].
  destruct (existsb _ _) eqn:Hex; [done|]. cbn [orb].
  apply forallb_forall. intros j Hj. apply in_seq in Hj.
  rewrite Hnulls by lia.
  destruct (isnull !!! j) eqn:Hnull; [done|]. cbn [orb].
  apply Z.ltb_lt, att_wellformed_fixed.
  - destruct Hdesc as (Hlen & _ & Hwf).
    destruct (lookup_lt_is_Some_2 (desc_att td) j ltac:(lia)) as [a Ha].
    rewrite (list_lookup_total_correct _ _ _ Ha). by eapply Hwf.
  - assert (existsb (fun j => negb (isnull !!! j) && is_varwidth (desc_att td !!! j))
              (seq 0 (Z.to_nat (natts td))) = false) as Hex' by exact Hex.
    rewrite <- not_true_iff_false, existsb_exists in Hex'.
    destruct (is_varwidth (desc_att td !!! j)) eqn:Hv; [|done].
    exfalso. apply Hex'. exists j. split; [apply in_seq; lia|]. by rewrite Hnull, Hv.
Qed.

(** What the cache-free walk reads in the tuple heap_form_tuple built. *)
Lemma formed_tuple_walk td values isnull sflag diskey secdiskey relid sid tuple :
  desc_wellformed td -> arrays_wellformed td values isnull ->
  heap_form_tuple_shard td values isnull sflag diskey secdiskey relid sid = OK tuple ->
  forall k, (k < Z.to_nat (natts td))%nat -> exists rest,
    bytewalk_value (desc_att td) (tup_of tuple) (HeapTupleHasNulls tuple) k
    = if (isnull !!! k : bool) then (DatumVal 0, true)
      else (if attbyval (desc_att td !!! k) then values !!! k
            else DatumPtr (stored (desc_att td !!! k) (values !!! k) ++ rest), false).
Proof.
  intros Hdesc Harr Hform k Hk.
  destruct (heap_form_tuple_shard_inv _ _ _ _ _ _ _ _ _ Hdesc Harr Hform)
    as (hd & st & Hdata & Hhoff & Hnatts & Him & Hbytes & _ & _ & _ & _ & Hinv).
  pose proof (formed_tuple_nulls _ _ _ _ _ _ _ _ _ Hdesc Harr Hform) as Hnulls.
  destruct Hdesc as (Hlen & Hmax & Hwf). destruct Harr as (Hvl & Hnl & Hvwf).
  assert (tup_of tuple = hd) as Htup by (unfold tup_of; by rewrite Hdata).
  set (n := Z.to_nat (natts td)) in *. set (att := desc_att td) in *.
  assert (forall j, (j < n)%nat -> att_wellformed (att !!! j) = true) as Hawf.
  { intros j Hj. destruct (lookup_lt_is_Some_2 att j ltac:(lia)) as [a Ha].
    rewrite (list_lookup_total_correct _ _ _ Ha). by eapply Hwf. }
  assert (forall j, (j < n)%nat -> isnull !!! j = false ->
            datum_wellformed (att !!! j) (values !!! j) = true) as Hdwf.
  { intros j Hj Hnull.
    destruct (lookup_lt_is_Some_2 att j ltac:(lia)) as [a Ha].
    destruct (lookup_lt_is_Some_2 values j ltac:(lia)) as [d Hd].
    destruct (lookup_lt_is_Some_2 isnull j ltac:(lia)) as [b Hb'].
    rewrite (list_lookup_total_correct _ _ _ Ha), (list_lookup_total_correct _ _ _ Hd).
    rewrite (list_lookup_total_correct _ _ _ Hb') in Hnull. subst b. by eapply Hvwf. }
  destruct (formed_hoff_bounds td isnull ltac:(lia)) as (Hh1 & Hh2 & _).
  destruct Hinv as (_ & _ & Himg & _).
  apply (roundtrip_value att values isnull (tup_of tuple) (HeapTupleHasNulls tuple)
           (formed_hoff td isnull + heap_compute_data_size td values isnull) n);
    try done; rewrite Htup, ?Hhoff, ?Hbytes; try done. lia.
Qed.

(** X1: the layout of the tuple heap_form_tuple_shard builds from
    well-formed arrays: the header length is MAXALIGNed and fits its byte,
    t_len is the length of the block and is the header length plus
    heap_compute_data_size, the column count is recorded, and the data area
    consists exactly of, for each non-null column in order, zero padding up
    to the start of the value and the bytes stored for it. *)
Theorem heap_form_tuple_layout (td : TupleDesc) (values : list Datum) (isnull : list bool)
    (sflag : SetShardFlag) (diskey secdiskey relid sid : Z) (tuple : HeapTupleData) :
  desc_wellformed td -> arrays_wellformed td values isnull ->
  heap_form_tuple_shard td values isnull sflag diskey secdiskey relid sid = OK tuple ->
  let tup := tup_of tuple in
  is_Some (t_data tuple) /\
  t_hoff tup mod 8 = 0 /\ 0 <= t_hoff tup <= 255 /\
  t_len tuple = t_hoff tup + heap_compute_data_size td values isnull /\
  Z.of_nat (length (t_bytes tup)) = t_len tuple /\
  HeapTupleHeaderGetNatts tup = natts td /\
  mem_at (t_bytes tup) (t_hoff tup)
  = data_image (desc_att td) values isnull (t_hoff tup) (Z.to_nat (natts td)).
Proof.
  intros Hdesc Harr Hform. cbv zeta.
  destruct (formed_tuple_infomask _ _ _ _ _ _ _ _ _ Hdesc Harr Hform) as [_ Hn].
  destruct (heap_form_tuple_shard_inv _ _ _ _ _ _ _ _ _ Hdesc Harr Hform)
    as (hd & st & Hdata & Hhoff & _ & _ & Hbytes & Hlen & _ & _ & _ & Hinv).
  destruct Hinv as (Hcur & HL & Himg & _).
  assert (tup_of tuple = hd) as Htup by (unfold tup_of; by rewrite Hdata).
  rewrite Hn. rewrite Htup in *. rewrite Hhoff, Hbytes, Hlen.
  destruct Hdesc as (Hnatts & Hmax & Hatt).
  destruct (formed_hoff_bounds td isnull ltac:(lia)) as (Hh1 & Hh2 & _).
  split; [by rewrite Hdata|]. split; [done|]. split; [done|]. split; [done|].
  split; [done|]. split; [done|].
  rewrite Himg.
  assert (heap_compute_data_size td values isnull
          = data_end (desc_att td) values isnull (formed_hoff td isnull)
              (Z.to_nat (natts td)) - formed_hoff td isnull) as ->.
  { unfold heap_compute_data_size.
    rewrite (heap_compute_data_size_loop_end _ _ _ 0 (Z.to_nat (natts td)) 0).
    - rewrite (data_end_shift _ _ _ (formed_hoff td isnull)) by done.
      cbn [Nat.add]. lia.
    - intros j Hj.
      destruct (lookup_lt_is_Some_2 (desc_att td) j ltac:(lia)) as [a Ha].
      rewrite (list_lookup_total_correct _ _ _ Ha). by eapply Hatt.
    - done. }
  replace (formed_hoff td isnull + (_ - formed_hoff td isnull) - _) with 0 by lia.
  by rewrite app_nil_r.
Qed.

(** X2: the content flags of the tuple heap_form_tuple_shard builds are
    exact: HEAP_HASVARWIDTH is set exactly when some non-null column is a
    varlena or a cstring, HEAP_HASEXTERNAL exactly when some non-null
    varlena is an external reference that is not an expanded object
    (expanded objects are stored flattened), and HEAP_HASOID exactly when
    the descriptor has object ids. *)
Theorem heap_form_tuple_flags (td : TupleDesc) (values : list Datum) (isnull : list bool)
    (sflag : SetShardFlag) (diskey secdiskey relid sid : Z) (tuple : HeapTupleData) :
  desc_wellformed td -> arrays_wellformed td values isnull ->
  heap_form_tuple_shard td values isnull sflag diskey secdiskey relid sid = OK tuple ->
  let n := Z.to_nat (natts td) in
  HeapTupleHasVarWidth tuple
  = existsb (fun j => negb (isnull !!! j) && is_varwidth (desc_att td !!! j)) (seq 0 n) /\
  HeapTupleHasExternal tuple
  = existsb (fun j => negb (isnull !!! j)
                      && is_external_ref (desc_att td !!! j) (values !!! j)) (seq 0 n) /\
  Z.testbit (t_infomask (tup_of tuple)) 3 = tdhasoid td.
Proof.
  intros Hdesc Harr Hform. cbv zeta.
  destruct (formed_tuple_infomask _ _ _ _ _ _ _ _ _ Hdesc Harr Hform) as [Him _].
  destruct (row_flags_bits (desc_att td) values isnull (Z.to_nat (natts td))) as [H1 H2].
  unfold HeapTupleHasVarWidth, HeapTupleHasExternal. rewrite Him.
  change HEAP_HASVARWIDTH with (2 ^ 1). change HEAP_HASEXTERNAL with (2 ^ 2).
  rewrite !land_pow2_eq0 by lia. rewrite !negb_involutive, !Z.lor_spec, H1, H2.
  split; [by destruct (tdhasoid td)|]. split; [by destruct (tdhasoid td)|].
  rewrite row_flags_bit3. by destruct (tdhasoid td).
Qed.

(** ** Rows shorter than the descriptor, and the null test *)

Lemma heap_deform_missing_loop_other td n : forall i j values isnull,
  ~ (i <= j < i + n)%nat ->
  (heap_deform_missing_loop td i n values isnull).1 !!! j = values !!! j /\
  (heap_deform_missing_loop td i n values isnull).2 !!! j = isnull !!! j.
Proof.
  induction n as [|n IH]; intros i j values isnull Hj; [done|].
  cbn [heap_deform_missing_loop]. destruct (getmissingattr td (Z.of_nat i + 1)) as [v b].
  destruct (IH (S i) j (<[i := v]> values) (<[i := b]> isnull) ltac:(lia)) as [-> ->].
  by rewrite !list_lookup_total_insert_ne by lia.
Qed.

Lemma heap_deform_missing_loop_lookup td n : forall i j values isnull,
  (i <= j < i + n)%nat -> (j < length values)%nat -> (j < length isnull)%nat ->
  (heap_deform_missing_loop td i n values isnull).1 !!! j
  = (getmissingattr td (Z.of_nat j + 1)).1 /\
  (heap_deform_missing_loop td i n values isnull).2 !!! j
  = (getmissingattr td (Z.of_nat j + 1)).2.
Proof.
  induction n as [|n IH]; intros i j values isnull Hj Hv Hb; [lia|].
  cbn [heap_deform_missing_loop].
  destruct (getmissingattr td (Z.of_nat i + 1)) as [v b] eqn:E.
  destruct (decide (j = i)) as [->|Hne].
  - destruct (heap_deform_missing_loop_other td n (S i) i (<[i := v]> values)
                (<[i := b]> isnull) ltac:(lia)) as [-> ->].
    rewrite !list_lookup_total_insert_eq by lia. by rewrite E.
  - apply IH; rewrite ?length_insert; lia.
Qed.

Lemma bytewalk_fill_other att tup hasnulls n : forall i j values isnull,
  ~ (i <= j < i + n)%nat ->
  (bytewalk_fill att tup hasnulls i n values isnull).1 !!! j = values !!! j /\
  (bytewalk_fill att tup hasnulls i n values isnull).2 !!! j = isnull !!! j.
Proof.
  induction n as [|n IH]; intros i j values isnull Hj; [done|].
  cbn [bytewalk_fill].
  destruct (IH (S i) j (<[i := (bytewalk_value att tup hasnulls i).1]> values)
              (<[i := (bytewalk_value att tup hasnulls i).2]> isnull) ltac:(lia)) as [-> ->].
  by rewrite !list_lookup_total_insert_ne by lia.
Qed.

Lemma bytewalk_value_null att tup hasnulls k :
  (bytewalk_value att tup hasnulls k).2
  = hasnulls && att_isnull (Z.of_nat k) (mem_at (t_bytes tup) t_bits_off).
Proof.
  unfold bytewalk_value, bytewalk_step. cbv zeta.
  by destruct (hasnulls && att_isnull _ _).
Qed.

Lemma HeapTupleHeaderGetNatts_nonneg tup : 0 <= HeapTupleHeaderGetNatts tup.
Proof. unfold HeapTupleHeaderGetNatts, HEAP_NATTS_MASK. apply Z.land_nonneg. lia. Qed.

(** The entries of the arrays after the cache-free decoding. *)
Lemma bytewalk_deform_lookup tuple td values isnull j :
  (j < length values)%nat -> (j < length isnull)%nat ->
  let r := bytewalk_deform tuple td values isnull in
  let phys := Z.to_nat (Z.min (HeapTupleHeaderGetNatts (tup_of tuple)) (natts td)) in
  (r.1 !!! j, r.2 !!! j)
  = if decide (j < phys)%nat
    then bytewalk_value (desc_att td) (tup_of tuple) (HeapTupleHasNulls tuple) j
    else if decide (j < Z.to_nat (natts td))%nat
         then getmissingattr td (Z.of_nat j + 1)
         else (values !!! j, isnull !!! j).
Proof.
  intros Hv Hb. cbv zeta. unfold bytewalk_deform. cbv zeta.
  set (phys := Z.to_nat (Z.min (HeapTupleHeaderGetNatts (tup_of tuple)) (natts td))).
  set (N := Z.to_nat (natts td)).
  assert (phys <= N)%nat as Hphys by (subst phys N; lia).
  destruct (length_bytewalk_fill (desc_att td) (tup_of tuple) (HeapTupleHasNulls tuple)
              phys 0 values isnull) as [Hl1 Hl2].
  destruct (bytewalk_fill (desc_att td) (tup_of tuple) (HeapTupleHasNulls tuple) 0 phys
              values isnull) as [vs ns] eqn:Hfill.
  cbn [fst snd] in Hl1, Hl2.
  destruct (decide (j < phys)%nat) as [Hj|Hj].
  - destruct (heap_deform_missing_loop_other td (N - phys) phys j vs ns ltac:(lia))
      as [-> ->].
    destruct (bytewalk_fill_lookup (desc_att td) (tup_of tuple) (HeapTupleHasNulls tuple)
                phys 0 j values isnull ltac:(lia) Hv Hb) as [H1 H2].
    rewrite Hfill in H1, H2. cbn [fst snd] in H1, H2. rewrite H1, H2.
    by destruct (bytewalk_value _ _ _ _).
  - destruct (decide (j < N)%nat) as [HjN|HjN].
    + destruct (heap_deform_missing_loop_lookup td (N - phys) phys j vs ns ltac:(lia)
                  ltac:(lia) ltac:(lia)) as [-> ->].
      by destruct (getmissingattr _ _).
    + destruct (heap_deform_missing_loop_other td (N - phys) phys j vs ns ltac:(lia))
        as [-> ->].
      destruct (bytewalk_fill_other (desc_att td) (tup_of tuple) (HeapTupleHasNulls tuple)
                  phys 0 j values isnull ltac:(lia)) as [H1 H2].
      rewrite Hfill in H1, H2. cbn [fst snd] in H1, H2. by rewrite H1, H2.
Qed.

Lemma missing_consistent_at td k :
  missing_consistent td = true -> (k < Z.to_nat (natts td))%nat ->
  ammissingPresent (default [] (attrmiss_of td) !!! k) = atthasmissing (attrs td !!! k) /\
  (attisdropped (attrs td !!! k) = true -> atthasmissing (attrs td !!! k) = false).
Proof.
  intros Hm Hk. unfold missing_consistent in Hm.
  rewrite forallb_forall in Hm. specialize (Hm k ltac:(apply in_seq; lia)).
  cbv zeta in Hm. apply andb_true_iff in Hm as [H1 H2].
  apply Bool.eqb_prop in H1. split; [done|].
  intros Hd. rewrite Hd in H2. by destruct (atthasmissing _).
Qed.

(** The null flag of a missing column of a descriptor whose missing values
    are consistent with its columns. *)
Lemma getmissingattr_null td k :
  missing_consistent td = true -> (k < Z.to_nat (natts td))%nat ->
  (getmissingattr td (Z.of_nat k + 1)).2 = negb (atthasmissing (attrs td !!! k)).
Proof.
  intros Hm Hk. destruct (missing_consistent_at td k Hm Hk) as [Hp Hd].
  unfold getmissingattr, TupleDescAttr. cbv zeta.
  replace (Z.to_nat (Z.of_nat k + 1 - 1)) with k by lia.
  rewrite Hp.
  destruct (atthasmissing (attrs td !!! k)) eqn:Hh; cbn [andb negb]; [|done].
  destruct (attisdropped (attrs td !!! k)); [by specialize (Hd eq_refl)|done].
Qed.

(** X3: heap_deform_tuple writes the entries of the descriptor's columns
    and nothing else: the arrays keep their lengths, the entries from the
    descriptor's column count on are untouched (also when the row has more
    columns than the descriptor), and a column of the descriptor that the
    row does not physically have reads as getmissingattr gives it: the
    column's missing value, or NULL.  The descriptor's offset cache is
    sound. *)
Theorem heap_deform_tuple_short_row (tuple : HeapTupleData) (td : TupleDesc)
    (values : list Datum) (isnull : list bool) :
  cache_ok (desc_att td) -> (Z.to_nat (natts td) <= length (desc_att td))%nat ->
  let r := heap_deform_tuple tuple td values isnull in
  length r.1.2 = length values /\ length r.2 = length isnull /\
  (forall j, (Z.to_nat (natts td) <= j)%nat ->
     r.1.2 !!! j = values !!! j /\ r.2 !!! j = isnull !!! j) /\
  (forall j, HeapTupleHeaderGetNatts (tup_of tuple) <= Z.of_nat j < natts td ->
     (j < length values)%nat -> (j < length isnull)%nat ->
     (r.1.2 !!! j, r.2 !!! j) = getmissingattr td (Z.of_nat j + 1)).
Proof.
  intros Hok Hlen. cbv zeta.
  destruct (length_heap_deform_tuple tuple td values isnull) as [Hl1 Hl2].
  destruct (heap_deform_tuple_bytewalk tuple td values isnull Hok Hlen) as (Hbw & _ & _).
  apply (f_equal fst) in Hbw as Hv. apply (f_equal snd) in Hbw as Hb. cbn [fst snd] in Hv, Hb.
  split; [done|]. split; [done|].
  pose proof (HeapTupleHeaderGetNatts_nonneg (tup_of tuple)) as Hg.
  split.
  - intros j Hj. rewrite Hv, Hb. unfold bytewalk_deform. cbv zeta.
    set (phys := Z.to_nat (Z.min (HeapTupleHeaderGetNatts (tup_of tuple)) (natts td))).
    destruct (bytewalk_fill_other (desc_att td) (tup_of tuple) (HeapTupleHasNulls tuple)
                phys 0 j values isnull ltac:(lia)) as [H1 H2].
    destruct (bytewalk_fill _ _ _ _ _ _ _) as [vs ns]. cbn [fst snd] in H1, H2.
    destruct (heap_deform_missing_loop_other td (Z.to_nat (natts td) - phys) phys j vs ns
                ltac:(lia)) as [-> ->].
    done.
  - intros j Hj Hjv Hjb. rewrite Hv, Hb.
    pose proof (bytewalk_deform_lookup tuple td values isnull j Hjv Hjb) as Hlk.
    cbv zeta in Hlk. rewrite Hlk.
    destruct (decide _) as [H|H]; [lia|]. destruct (decide _) as [H'|H']; [done|lia].
Qed.

(** The null test of heap_attisnull against the decoded null flag. *)
Lemma heap_attisnull_deform (tuple : HeapTupleData) (td : TupleDesc)
    (attnum : Z) (values : list Datum) (isnull : list bool) :
  cache_ok (desc_att td) -> (Z.to_nat (natts td) <= length (desc_att td))%nat ->
  missing_consistent td = true ->
  natts td <= Z.of_nat (length values) -> natts td <= Z.of_nat (length isnull) ->
  1 <= attnum <= natts td ->
  heap_attisnull tuple attnum (Some td)
  = OK ((heap_deform_tuple tuple td values isnull).2 !!! Z.to_nat (attnum - 1)).
Proof.
  intros Hok Hlen Hm Hlv Hlb Hattnum.
  destruct (heap_deform_tuple_bytewalk tuple td values isnull Hok Hlen) as (Hbw & _ & _).
  apply (f_equal snd) in Hbw as Hb. cbn [fst snd] in Hb. rewrite Hb.
  set (k := Z.to_nat (attnum - 1)).
  pose proof (bytewalk_deform_lookup tuple td values isnull k ltac:(lia) ltac:(lia)) as Hlk.
  cbv zeta in Hlk. apply (f_equal snd) in Hlk. cbn [snd] in Hlk. rewrite Hlk.
  pose proof (HeapTupleHeaderGetNatts_nonneg (tup_of tuple)) as Hg.
  unfold heap_attisnull.
  destruct (Z.ltb_spec (HeapTupleHeaderGetNatts (tup_of tuple)) attnum) as [Hshort|Hphys].
  - destruct (decide _) as [H|_]; [lia|]. destruct (decide _) as [_|H]; [|lia].
    rewrite getmissingattr_null by (done || lia).
    unfold TupleDescAttr. fold k. by destruct (atthasmissing _).
  - destruct (decide _) as [_|H]; [|lia].
    destruct (Z.ltb_spec 0 attnum); [|lia].
    rewrite bytewalk_value_null. replace (Z.of_nat k) with (attnum - 1) by lia.
    unfold HeapTupleNoNulls. by destruct (HeapTupleHasNulls tuple).
Qed.

(** X4: heap_attisnull agrees with heap_deform_tuple.  For a column of the
    descriptor, and a descriptor whose missing values are consistent with
    its columns (an entry is present exactly for a column marked
    atthasmissing, and no dropped column is marked), heap_attisnull returns
    the null flag heap_deform_tuple writes for that column, whether the row
    physically has the column or not. *)
Theorem heap_attisnull_agrees_with_deform (tuple : HeapTupleData) (td : TupleDesc)
    (attnum : Z) (values : list Datum) (isnull : list bool) :
  cache_ok (desc_att td) -> (Z.to_nat (natts td) <= length (desc_att td))%nat ->
  missing_consistent td = true ->
  natts td <= Z.of_nat (length values) -> natts td <= Z.of_nat (length isnull) ->
  1 <= attnum <= natts td ->
  heap_attisnull tuple attnum (Some td)
  = OK ((heap_deform_tuple tuple td values isnull).2 !!! Z.to_nat (attnum - 1)).
Proof. exact (heap_attisnull_deform tuple td attnum values isnull). Qed.

(** X5: nocachegetattr reads back what heap_form_tuple stored.  For a
    non-null column of a tuple built by heap_form_tuple_shard, whatever the
    state of a sound offset cache, nocachegetattr returns the scalar given
    for a pass-by-value column and a pointer to the bytes stored for a
    pass-by-reference column, and leaves a sound cache. *)
Theorem nocachegetattr_reads_formed_tuple (td : TupleDesc) (values : list Datum)
    (isnull : list bool) (sflag : SetShardFlag) (diskey secdiskey relid sid : Z)
    (tuple : HeapTupleData) (attnum : Z) :
  desc_wellformed td -> arrays_wellformed td values isnull ->
  cache_ok (desc_att td) ->
  heap_form_tuple_shard td values isnull sflag diskey secdiskey relid sid = OK tuple ->
  1 <= attnum <= natts td -> isnull !!! Z.to_nat (attnum - 1) = false ->
  let a := desc_att td !!! Z.to_nat (attnum - 1) in
  exists td' d,
    nocachegetattr tuple attnum td = Some (td', d) /\
    (if attbyval a then d = values !!! Z.to_nat (attnum - 1)
     else exists rest, d = DatumPtr (stored a (values !!! Z.to_nat (attnum - 1)) ++ rest)) /\
    desc_same td td' /\ cache_ok (desc_att td').
Proof.
  intros Hdesc Harr Hok Hform Hattnum Hnull. cbv zeta.
  set (k := Z.to_nat (attnum - 1)) in *.
  destruct (formed_tuple_infomask _ _ _ _ _ _ _ _ _ Hdesc Harr Hform) as [_ Hn].
  pose proof (formed_tuple_nulls _ _ _ _ _ _ _ _ _ Hdesc Harr Hform k ltac:(lia)) as Hbit.
  pose proof (formed_tuple_varwidth_flag _ _ _ _ _ _ _ _ _ Hdesc Harr Hform) as Hflag.
  destruct (formed_tuple_walk _ _ _ _ _ _ _ _ _ Hdesc Harr Hform k ltac:(lia))
    as [rest Hwalk].
  rewrite Hnull in Hwalk, Hbit.
  destruct (nocachegetattr_bytewalk tuple attnum td Hok Hattnum ltac:(lia)
              ltac:(destruct Hdesc as (Hl & _); lia)
              ltac:(replace (attnum - 1) with (Z.of_nat k) by lia; exact Hbit) Hflag)
    as (td' & Hget & Hsame & Hok').
  fold k in Hget. rewrite Hwalk in Hget. cbn [fst] in Hget.
  exists td'. eexists. split; [exact Hget|]. split; [|done].
  destruct (attbyval (desc_att td !!! k)); [done|]. by exists rest.
Qed.

(** ** Slots holding a physical tuple *)

Lemma slot_getmissingattrs_loop_other attrmiss n : forall i j values isnull,
  ~ (i <= j < i + n)%nat ->
  (slot_getmissingattrs_loop attrmiss i n values isnull).1 !!! j = values !!! j /\
  (slot_getmissingattrs_loop attrmiss i n values isnull).2 !!! j = isnull !!! j.
Proof.
  induction n as [|n IH]; intros i j values isnull Hj; [done|].
  cbn [slot_getmissingattrs_loop].
  destruct (IH (S i) j (<[i := ammissing (attrmiss !!! i)]> values)
              (<[i := negb (ammissingPresent (attrmiss !!! i))]> isnull) ltac:(lia))
    as [-> ->].
  by rewrite !list_lookup_total_insert_ne by lia.
Qed.

Lemma slot_getmissingattrs_loop_lookup attrmiss n : forall i j values isnull,
  (i <= j < i + n)%nat -> (j < length values)%nat -> (j < length isnull)%nat ->
  (slot_getmissingattrs_loop attrmiss i n values isnull).1 !!! j
  = ammissing (attrmiss !!! j) /\
  (slot_getmissingattrs_loop attrmiss i n values isnull).2 !!! j
  = negb (ammissingPresent (attrmiss !!! j)).
Proof.
  induction n as [|n IH]; intros i j values isnull Hj Hv Hb; [lia|].
  cbn [slot_getmissingattrs_loop].
  destruct (decide (j = i)) as [->|Hne].
  - destruct (slot_getmissingattrs_loop_other attrmiss n (S i) i
                (<[i := ammissing (attrmiss !!! i)]> values)
                (<[i := negb (ammissingPresent (attrmiss !!! i))]> isnull) ltac:(lia))
      as [-> ->].
    by rewrite !list_lookup_total_insert_eq by lia.
  - apply IH; rewrite ?length_insert; lia.
Qed.

Lemma length_slot_getmissingattrs_loop attrmiss n : forall i values isnull,
  length (slot_getmissingattrs_loop attrmiss i n values isnull).1 = length values /\
  length (slot_getmissingattrs_loop attrmiss i n values isnull).2 = length isnull.
Proof.
  induction n as [|n IH]; intros i values isnull; [done|].
  cbn [slot_getmissingattrs_loop].
  destruct (IH (S i) (<[i := ammissing (attrmiss !!! i)]> values)
              (<[i := negb (ammissingPresent (attrmiss !!! i))]> isnull)) as [-> ->].
  by rewrite !length_insert.
Qed.

Lemma length_memset_array {A : Type} (a : list A) start c n :
  0 <= start -> 0 <= n -> start + n <= Z.of_nat (length a) ->
  length (memset_array a start c n) = length a.
Proof.
  intros Hs Hn Hl. unfold memset_array.
  rewrite !length_app, length_take, length_replicate, length_drop. lia.
Qed.

Lemma memset_array_lookup {A : Type} `{!Inhabited A} (a : list A) start c n j :
  0 <= start -> 0 <= n -> start + n <= Z.of_nat (length a) ->
  memset_array a start c n !!! j
  = if decide (Z.to_nat start <= j < Z.to_nat start + Z.to_nat n)%nat then c else a !!! j.
Proof.
  intros Hs Hn Hl. unfold memset_array.
  assert (length (take (Z.to_nat start) a) = Z.to_nat start) as Htake
    by (rewrite length_take; lia).
  destruct (decide (j < Z.to_nat start)%nat) as [Hj|Hj].
  - rewrite lookup_total_app_l by lia. rewrite lookup_total_take_lt by lia.
    destruct (decide _) as [H|H]; [lia|done].
  - rewrite lookup_total_app_r by lia. rewrite Htake.
    destruct (decide (j < Z.to_nat start + Z.to_nat n)%nat) as [Hj'|Hj'].
    + rewrite lookup_total_app_l by (rewrite length_replicate; lia).
      rewrite lookup_total_replicate_2 by lia.
      destruct (decide _) as [H|H]; [done|lia].
    + rewrite lookup_total_app_r by (rewrite length_replicate; lia).
      rewrite length_replicate, lookup_total_drop.
      destruct (decide _) as [H|H]; [lia|]. f_equal. lia.
Qed.

Lemma slot_deform_tuple_fields td slot k :
  tts_datarow (slot_deform_tuple td slot k).2 = tts_datarow slot /\
  tts_tuple (slot_deform_tuple td slot k).2 = tts_tuple slot.
Proof. unfold slot_deform_tuple. cbv zeta. by destruct (tts_nvalid slot =? 0). Qed.

(** What slot_getsomeattrs and slot_getallattrs do to a slot without valid
    entries that holds a physical tuple: the columns the row has are
    deformed, the others are filled in from the missing values.  The
    entries are those of heap_deform_tuple: the same null flags, and the
    same values wherever the flag is not set. *)
Lemma slot_fill_agrees td slot tuple n values0 isnull0 :
  cache_ok (desc_att td) -> (Z.to_nat (natts td) <= length (desc_att td))%nat ->
  missing_consistent td = true ->
  tts_tuple slot = Some tuple -> tts_nvalid slot = 0 ->
  0 <= n <= natts td ->
  natts td <= Z.of_nat (length (tts_values slot)) ->
  natts td <= Z.of_nat (length (tts_isnull slot)) ->
  natts td <= Z.of_nat (length values0) -> natts td <= Z.of_nat (length isnull0) ->
  let attno := Z.min (HeapTupleHeaderGetNatts (tup_of tuple)) n in
  let ds := slot_deform_tuple td slot attno in
  let slot' := if attno <? n then slot_getmissingattrs ds.1 ds.2 attno n else ds.2 in
  let r := heap_deform_tuple tuple td values0 isnull0 in
  desc_same td ds.1 /\ cache_ok (desc_att ds.1) /\
  tts_tuple slot' = tts_tuple slot /\ tts_datarow slot' = tts_datarow slot /\
  length (tts_values slot') = length (tts_values slot) /\
  length (tts_isnull slot') = length (tts_isnull slot) /\
  forall j, (j < Z.to_nat n)%nat ->
    tts_isnull slot' !!! j = r.2 !!! j /\
    (r.2 !!! j = false -> tts_values slot' !!! j = r.1.2 !!! j).
Proof.
  intros Hok Hlen Hm Htuple Hnv Hn Hlv Hlb Hlv0 Hlb0. cbv zeta.
  pose proof (HeapTupleHeaderGetNatts_nonneg (tup_of tuple)) as Hg.
  set (G := HeapTupleHeaderGetNatts (tup_of tuple)) in *.
  set (attno := Z.min G n).
  destruct (slot_deform_tuple_inv (desc_att td) slot td slot attno
              (same_shape_refl _) Hok (slot_inv_fresh _ _ _ Hnv) ltac:(lia))
    as (Hsame & Hok' & Hinv & Hnv').
  destruct (slot_deform_tuple_fields td slot attno) as [Hdr _].
  destruct (slot_deform_tuple td slot attno) as [td1 s1]. cbn [fst snd] in *.
  destruct Hinv as (Ht & _ & Harr & _).
  rewrite Hnv', Hnv in Harr. replace (Z.max 0 attno) with attno in Harr by lia.
  assert (slot_tuple slot = tuple) as Hst by (unfold slot_tuple; by rewrite Htuple).
  rewrite Hst in Harr.
  apply (f_equal fst) in Harr as Hv1. apply (f_equal snd) in Harr as Hb1.
  cbn [fst snd] in Hv1, Hb1.
  destruct (length_bytewalk_fill (desc_att td) (tup_of tuple) (HeapTupleHasNulls tuple)
              (Z.to_nat attno) 0 (tts_values slot) (tts_isnull slot)) as [Hl1 Hl2].
  rewrite <- Hv1 in Hl1. rewrite <- Hb1 in Hl2.
  (* the entries heap_deform_tuple writes *)
  destruct (heap_deform_tuple_bytewalk tuple td values0 isnull0 Hok Hlen) as (Hbw & _ & _).
  apply (f_equal fst) in Hbw as Hrv. apply (f_equal snd) in Hbw as Hrb.
  cbn [fst snd] in Hrv, Hrb. rewrite Hrv, Hrb. clear Hbw Hrv Hrb.
  assert (forall j, (j < Z.to_nat n)%nat ->
    ((bytewalk_deform tuple td values0 isnull0).1 !!! j,
     (bytewalk_deform tuple td values0 isnull0).2 !!! j)
    = if decide (j < Z.to_nat G)%nat
      then bytewalk_value (desc_att td) (tup_of tuple) (HeapTupleHasNulls tuple) j
      else getmissingattr td (Z.of_nat j + 1)) as Hr.
  { intros j Hj.
    pose proof (bytewalk_deform_lookup tuple td values0 isnull0 j ltac:(lia) ltac:(lia))
      as Hlk.
    cbv zeta in Hlk. rewrite Hlk. fold G.
    destruct (decide (j < Z.to_nat (Z.min G (natts td)))%nat) as [H|H];
      destruct (decide (j < Z.to_nat G)%nat) as [H'|H']; try lia; [done|].
    destruct (decide (j < Z.to_nat (natts td))%nat) as [H''|H'']; [done|lia]. }
  (* the entries of the slot after slot_deform_tuple *)
  assert (forall j, (j < Z.to_nat attno)%nat ->
    (tts_values s1 !!! j, tts_isnull s1 !!! j)
    = bytewalk_value (desc_att td) (tup_of tuple) (HeapTupleHasNulls tuple) j) as Hs1.
  { intros j Hj. rewrite Hv1, Hb1.
    destruct (bytewalk_fill_lookup (desc_att td) (tup_of tuple) (HeapTupleHasNulls tuple)
                (Z.to_nat attno) 0 j (tts_values slot) (tts_isnull slot)
                ltac:(lia) ltac:(lia) ltac:(lia)) as [-> ->].
    by destruct (bytewalk_value _ _ _ _). }
  split; [done|]. split; [done|].
  destruct (Z.ltb_spec attno n) as [Hshort|Hfull].
  - (* some columns are read from the missing values *)
    assert (attno = G) as HaG by lia.
    unfold slot_getmissingattrs.
    destruct Hsame as (_ & Hconstr & _). rewrite Hconstr.
    fold (attrmiss_of td).
    destruct (attrmiss_of td) as [am|] eqn:Ham.
    + destruct (length_slot_getmissingattrs_loop am (Z.to_nat (n - attno)) (Z.to_nat attno)
                  (tts_values s1) (tts_isnull s1)) as [Hl1' Hl2'].
      pose proof (slot_getmissingattrs_loop_other am (Z.to_nat (n - attno)) (Z.to_nat attno))
        as Hother.
      pose proof (slot_getmissingattrs_loop_lookup am (Z.to_nat (n - attno))
                    (Z.to_nat attno)) as Hlook.
      specialize (Hother) with (values := tts_values s1) (isnull := tts_isnull s1).
      specialize (Hlook) with (values := tts_values s1) (isnull := tts_isnull s1).
      destruct (slot_getmissingattrs_loop am (Z.to_nat attno) (Z.to_nat (n - attno))
                  (tts_values s1) (tts_isnull s1)) as [vs ns].
      cbn [tts_tuple tts_datarow tts_values tts_isnull fst snd] in *.
      split; [done|]. split; [done|]. split; [lia|]. split; [lia|].
      intros j Hj. specialize (Hr j Hj).
      apply (f_equal fst) in Hr as Hrv. apply (f_equal snd) in Hr as Hrb.
      cbn [fst snd] in Hrv, Hrb. rewrite Hrv, Hrb.
      destruct (decide (j < Z.to_nat G)%nat) as [HjG|HjG].
      * destruct (Hother j ltac:(lia)) as [-> ->].
        specialize (Hs1 j ltac:(lia)). rewrite <- Hs1. done.
      * destruct (Hlook j ltac:(lia) ltac:(lia) ltac:(lia)) as [-> ->].
        destruct (missing_consistent_at td j Hm ltac:(lia)) as [Hp Hd].
        rewrite Ham in Hp. cbn [default from_option] in Hp. unfold id in Hp.
        unfold getmissingattr, TupleDescAttr. cbv zeta.
        replace (Z.to_nat (Z.of_nat j + 1 - 1)) with j by lia.
        rewrite Ham. cbn [default from_option]. unfold id. rewrite Hp.
        destruct (atthasmissing (attrs td !!! j)) eqn:Hh; cbn [andb negb]; [|done].
        destruct (attisdropped (attrs td !!! j)); [by specialize (Hd eq_refl)|done].
    + cbn [tts_tuple tts_datarow tts_values tts_isnull fst snd].
      split; [done|]. split; [done|].
      rewrite !length_memset_array by lia.
      split; [lia|]. split; [lia|].
      intros j Hj. specialize (Hr j Hj).
      apply (f_equal fst) in Hr as Hrv. apply (f_equal snd) in Hr as Hrb.
      cbn [fst snd] in Hrv, Hrb. rewrite Hrv, Hrb.
      rewrite !memset_array_lookup by lia.
      destruct (decide (j < Z.to_nat G)%nat) as [HjG|HjG].
      * destruct (decide _) as [H|_]; [lia|].
        specialize (Hs1 j ltac:(lia)). rewrite <- Hs1. done.
      * destruct (decide _) as [_|H]; [|lia].
        destruct (missing_consistent_at td j Hm ltac:(lia)) as [Hp Hd].
        rewrite Ham in Hp. cbn [default from_option] in Hp. unfold id in Hp.
        unfold getmissingattr, TupleDescAttr. cbv zeta.
        replace (Z.to_nat (Z.of_nat j + 1 - 1)) with j by lia.
        rewrite Ham. cbn [default from_option]. unfold id.
        rewrite <- Hp. rewrite lookup_total_nil. cbn. by rewrite andb_false_r || done.
  - split; [done|]. split; [done|]. split; [lia|]. split; [lia|].
    intros j Hj. specialize (Hr j Hj).
    apply (f_equal fst) in Hr as Hrv. apply (f_equal snd) in Hr as Hrb.
    cbn [fst snd] in Hrv, Hrb. rewrite Hrv, Hrb.
    destruct (decide (j < Z.to_nat G)%nat) as [HjG|HjG]; [|lia].
    specialize (Hs1 j ltac:(lia)). rewrite <- Hs1. done.
Qed.

Lemma slot_deform_tuple_inv_natts td slot k :
  natts (slot_deform_tuple td slot k).1 = natts td.
Proof.
  unfold slot_deform_tuple. cbv zeta.
  destruct (tts_nvalid slot =? 0); cbn [fst]; apply natts_set_desc_att.
Qed.

(** X6: slot_getsomeattrs agrees with heap_deform_tuple.  On a slot without
    valid entries that holds a physical tuple, for a descriptor whose
    missing values are consistent with its columns, slot_getsomeattrs
    succeeds, makes attnum entries valid, and the first attnum entries of
    the slot are those heap_deform_tuple writes: the same null flags, and
    the same values wherever the flag is not set; this holds also for the
    columns the row does not physically have. *)
Theorem slot_getsomeattrs_agrees_with_deform (td : TupleDesc) (slot : TupleTableSlot)
    (tuple : HeapTupleData) (attnum : Z) (values0 : list Datum) (isnull0 : list bool) :
  cache_ok (desc_att td) -> (Z.to_nat (natts td) <= length (desc_att td))%nat ->
  missing_consistent td = true ->
  tts_tuple slot = Some tuple -> tts_datarow slot = None -> tts_nvalid slot = 0 ->
  1 <= attnum <= natts td ->
  natts td <= Z.of_nat (length (tts_values slot)) ->
  natts td <= Z.of_nat (length (tts_isnull slot)) ->
  natts td <= Z.of_nat (length values0) -> natts td <= Z.of_nat (length isnull0) ->
  let r := heap_deform_tuple tuple td values0 isnull0 in
  exists td' slot',
    slot_getsomeattrs td slot attnum = OK (td', slot') /\
    tts_nvalid slot' = attnum /\
    (forall j, (j < Z.to_nat attnum)%nat ->
       tts_isnull slot' !!! j = r.2 !!! j /\
       (r.2 !!! j = false -> tts_values slot' !!! j = r.1.2 !!! j)) /\
    desc_same td td' /\ cache_ok (desc_att td').
Proof.
  intros Hok Hlen Hm Htuple Hdr Hnv Hattnum Hlv Hlb Hlv0 Hlb0. cbv zeta.
  pose proof (slot_fill_agrees td slot tuple attnum values0 isnull0 Hok Hlen Hm Htuple Hnv
                ltac:(lia) Hlv Hlb Hlv0 Hlb0) as Hfill.
  cbv zeta in Hfill.
  unfold slot_getsomeattrs. rewrite Hnv, Hdr, Htuple.
  destruct (Z.leb_spec attnum 0); [lia|].
  rewrite bool_decide_eq_false_2 by (intros [? [=]]).
  destruct (Z.ltb_spec (natts td) attnum); [lia|]. cbn [orb].
  destruct (slot_deform_tuple td slot _) as [td1 s1]. cbn [fst snd] in Hfill.
  destruct Hfill as (Hsame & Hok' & _ & _ & _ & _ & Hentries).
  eexists _, _. split; [reflexivity|]. split; [done|]. split; [|done].
  exact Hentries.
Qed.

(** X7: slot_getallattrs agrees with heap_deform_tuple.  On a slot without
    valid entries that holds a physical tuple, for a descriptor whose
    missing values are consistent with its columns, slot_getallattrs
    succeeds, makes every entry valid, and the slot's null flags are those
    heap_deform_tuple writes into arrays of the descriptor's length, with
    the same values wherever the flag is not set. *)
Theorem slot_getallattrs_agrees_with_deform (td : TupleDesc) (slot : TupleTableSlot)
    (tuple : HeapTupleData) (values0 : list Datum) (isnull0 : list bool) :
  cache_ok (desc_att td) -> (Z.to_nat (natts td) <= length (desc_att td))%nat ->
  missing_consistent td = true ->
  tts_tuple slot = Some tuple -> tts_datarow slot = None -> tts_nvalid slot = 0 ->
  0 <= natts td ->
  Z.of_nat (length (tts_values slot)) = natts td ->
  Z.of_nat (length (tts_isnull slot)) = natts td ->
  Z.of_nat (length values0) = natts td -> Z.of_nat (length isnull0) = natts td ->
  let r := heap_deform_tuple tuple td values0 isnull0 in
  exists td' slot',
    slot_getallattrs td slot = OK (td', slot') /\
    tts_nvalid slot' = natts td /\
    tts_isnull slot' = r.2 /\
    (forall j, (j < Z.to_nat (natts td))%nat -> r.2 !!! j = false ->
       tts_values slot' !!! j = r.1.2 !!! j) /\
    desc_same td td' /\ cache_ok (desc_att td').
Proof.
  intros Hok Hlen Hm Htuple Hdr Hnv Hnatts Hlv Hlb Hlv0 Hlb0. cbv zeta.
  destruct (length_heap_deform_tuple tuple td values0 isnull0) as [_ Hrl].
  unfold slot_getallattrs. cbv zeta. rewrite Hnv.
  destruct (Z.eqb_spec 0 (natts td)) as [H0|H0].
  - exists td, slot. split; [done|]. split; [lia|].
    split.
    + destruct (tts_isnull slot); [|cbn in Hlb; lia].
      destruct (heap_deform_tuple tuple td values0 isnull0).2; [done|].
      destruct isnull0; [|cbn in Hlb0; lia]. cbn in Hrl. lia.
    + split; [intros j Hj; lia|]. split; [apply desc_same_refl|done].
  - pose proof (slot_fill_agrees td slot tuple (natts td) values0 isnull0 Hok Hlen Hm Htuple
                  Hnv ltac:(lia) ltac:(lia) ltac:(lia) ltac:(lia) ltac:(lia)) as Hfill.
    cbv zeta in Hfill.
    rewrite Hdr, Htuple. rewrite bool_decide_eq_false_2 by (intros [? [=]]).
    destruct (slot_deform_tuple td slot _) as [td1 s1]. cbn [fst snd] in Hfill.
    destruct Hfill as (Hsame & Hok' & _ & _ & _ & Hl & Hentries).
    eexists _, _. split; [reflexivity|]. split; [done|].
    split; [|split; [|done]].
    + unfold set_tts_nvalid. cbn [tts_isnull].
      apply list_eq_same_length with (Z.to_nat (natts td)); [lia..|].
      intros j x y Hj Hx Hy.
      apply list_lookup_total_correct in Hx, Hy.
      destruct (Hentries j Hj) as [He _]. congruence.
    + intros j Hj Hnull. unfold set_tts_nvalid. cbn [tts_values].
      by apply Hentries.
Qed.

(** What slot_getattr returns for a slot without valid entries. *)
Lemma slot_getattr_deform (td : TupleDesc) (slot : TupleTableSlot)
    (tuple : HeapTupleData) (attnum : Z) (values0 : list Datum) (isnull0 : list bool) :
  cache_ok (desc_att td) -> (Z.to_nat (natts td) <= length (desc_att td))%nat ->
  tts_tuple slot = Some tuple -> tts_datarow slot = None -> tts_nvalid slot = 0 ->
  1 <= attnum <= natts td ->
  natts td <= Z.of_nat (length (tts_values slot)) ->
  natts td <= Z.of_nat (length (tts_isnull slot)) ->
  natts td <= Z.of_nat (length values0) -> natts td <= Z.of_nat (length isnull0) ->
  let r := heap_deform_tuple tuple td values0 isnull0 in
  let k := Z.to_nat (attnum - 1) in
  exists td' slot',
    slot_getattr td slot attnum
    = OK (td', slot',
          (if attisdropped (attrs td !!! k)
              && (attnum <=? HeapTupleHeaderGetNatts (tup_of tuple))
           then DatumVal 0 else r.1.2 !!! k),
          (if attisdropped (attrs td !!! k)
              && (attnum <=? HeapTupleHeaderGetNatts (tup_of tuple))
           then true else r.2 !!! k)) /\
    desc_same td td' /\ cache_ok (desc_att td').
Proof.
  intros Hok Hlen Htuple Hdr Hnv Hattnum Hlv Hlb Hlv0 Hlb0. cbv zeta.
  set (k := Z.to_nat (attnum - 1)).
  pose proof (HeapTupleHeaderGetNatts_nonneg (tup_of tuple)) as Hg.
  set (G := HeapTupleHeaderGetNatts (tup_of tuple)) in *.
  destruct (heap_deform_tuple_bytewalk tuple td values0 isnull0 Hok Hlen) as (Hbw & _ & _).
  apply (f_equal fst) in Hbw as Hrv. apply (f_equal snd) in Hbw as Hrb.
  cbn [fst snd] in Hrv, Hrb. rewrite Hrv, Hrb. clear Hbw Hrv Hrb.
  pose proof (bytewalk_deform_lookup tuple td values0 isnull0 k ltac:(lia) ltac:(lia))
    as Hlk.
  cbv zeta in Hlk. fold G in Hlk.
  apply (f_equal fst) in Hlk as Hv. apply (f_equal snd) in Hlk as Hb.
  cbn [fst snd] in Hv, Hb. rewrite Hv, Hb. clear Hlk Hv Hb.
  unfold slot_getattr. cbv zeta. rewrite Hnv, Hdr, Htuple.
  destruct (Z.leb_spec attnum 0); [lia|].
  destruct (Z.ltb_spec (natts td) attnum); [lia|].
  rewrite bool_decide_eq_false_2 by (intros [? [=]]).
  fold G.
  destruct (Z.ltb_spec G attnum) as [Hshort|Hphys].
  - (* the row does not have the column *)
    destruct (Z.leb_spec attnum G); [lia|]. rewrite andb_false_r.
    destruct (decide (k < Z.to_nat (Z.min G (natts td)))%nat) as [H'|_]; [lia|].
    destruct (decide (k < Z.to_nat (natts td))%nat) as [_|H']; [|lia].
    replace (Z.of_nat k + 1) with attnum by lia.
    destruct (getmissingattr td attnum) as [d b]. cbn [fst snd].
    exists td, slot. split; [done|]. split; [apply desc_same_refl|done].
  - destruct (Z.leb_spec attnum G); [|lia]. rewrite andb_true_r.
    destruct (decide (k < Z.to_nat (Z.min G (natts td)))%nat) as [_|H']; [|lia].
    pose proof (bytewalk_value_null (desc_att td) (tup_of tuple) (HeapTupleHasNulls tuple) k)
      as Hnull.
    replace (Z.of_nat k) with (attnum - 1) in Hnull by lia.
    destruct (HeapTupleHasNulls tuple
              && att_isnull (attnum - 1) (mem_at (t_bytes (tup_of tuple)) t_bits_off))
      eqn:Hbit.
    + (* a null column *)
      assert (bytewalk_value (desc_att td) (tup_of tuple) (HeapTupleHasNulls tuple) k
              = (DatumVal 0, true)) as ->.
      { unfold bytewalk_value, bytewalk_step. cbv zeta.
        replace (Z.of_nat k) with (attnum - 1) by lia. by rewrite Hbit. }
      cbn [fst snd].
      exists td, slot. split; [by destruct (attisdropped _)|].
      split; [apply desc_same_refl|done].
    + fold k. destruct (attisdropped (attrs td !!! k)).
      * exists td, slot. split; [done|]. split; [apply desc_same_refl|done].
      * destruct (slot_deform_tuple_inv (desc_att td) slot td slot attnum
                    (same_shape_refl _) Hok (slot_inv_fresh _ _ _ Hnv) ltac:(lia))
          as (Hsame & Hok' & Hinv & Hnv').
        destruct (slot_deform_tuple td slot attnum) as [td1 s1]. cbn [fst snd] in *.
        destruct Hinv as (_ & _ & Harr & _).
        rewrite Hnv', Hnv in Harr. replace (Z.max 0 attnum) with attnum in Harr by lia.
        assert (slot_tuple slot = tuple) as Hst by (unfold slot_tuple; by rewrite Htuple).
        rewrite Hst in Harr.
        apply (f_equal fst) in Harr as Hv1. apply (f_equal snd) in Harr as Hb1.
        cbn [fst snd] in Hv1, Hb1.
        destruct (bytewalk_fill_lookup (desc_att td) (tup_of tuple)
                    (HeapTupleHasNulls tuple) (Z.to_nat attnum) 0 k (tts_values slot)
                    (tts_isnull slot) ltac:(lia) ltac:(lia) ltac:(lia)) as [Hw1 Hw2].
        exists td1, s1. rewrite Hv1, Hb1, Hw1, Hw2. done.
Qed.

(** X8: slot_getattr agrees with heap_deform_tuple, except on dropped
    columns.  On a slot without valid entries that holds a physical tuple,
    slot_getattr of a column of the descriptor succeeds and returns the
    value and null flag heap_deform_tuple writes for the column, except
    that a dropped column the row physically has always reads as NULL. *)
Theorem slot_getattr_agrees_with_deform (td : TupleDesc) (slot : TupleTableSlot)
    (tuple : HeapTupleData) (attnum : Z) (values0 : list Datum) (isnull0 : list bool) :
  cache_ok (desc_att td) -> (Z.to_nat (natts td) <= length (desc_att td))%nat ->
  tts_tuple slot = Some tuple -> tts_datarow slot = None -> tts_nvalid slot = 0 ->
  1 <= attnum <= natts td ->
  natts td <= Z.of_nat (length (tts_values slot)) ->
  natts td <= Z.of_nat (length (tts_isnull slot)) ->
  natts td <= Z.of_nat (length values0) -> natts td <= Z.of_nat (length isnull0) ->
  let r := heap_deform_tuple tuple td values0 isnull0 in
  let k := Z.to_nat (attnum - 1) in
  exists td' slot',
    slot_getattr td slot attnum
    = OK (td', slot',
          (if attisdropped (attrs td !!! k)
              && (attnum <=? HeapTupleHeaderGetNatts (tup_of tuple))
           then DatumVal 0 else r.1.2 !!! k),
          (if attisdropped (attrs td !!! k)
              && (attnum <=? HeapTupleHeaderGetNatts (tup_of tuple))
           then true else r.2 !!! k)) /\
    desc_same td td' /\ cache_ok (desc_att td').
Proof. exact (slot_getattr_deform td slot tuple attnum values0 isnull0). Qed.

(** X9: a request for columns a slot already holds does no work.  After a
    successful slot_getsomeattrs for attnum columns, a further
    slot_getsomeattrs for no more columns returns the descriptor and the
    slot unchanged, and slot_getattr and slot_attisnull of any of the first
    attnum columns of the descriptor return the slot's entry for it and
    leave the descriptor and the slot unchanged. *)
Theorem slot_getsomeattrs_then_cached (td : TupleDesc) (slot : TupleTableSlot)
    (attnum m : Z) (td' : TupleDesc) (slot' : TupleTableSlot) :
  slot_getsomeattrs td slot attnum = OK (td', slot') ->
  m <= attnum ->
  slot_getsomeattrs td' slot' m = OK (td', slot') /\
  (1 <= m <= natts td ->
   slot_getattr td' slot' m
   = OK (td', slot', tts_values slot' !!! Z.to_nat (m - 1),
         tts_isnull slot' !!! Z.to_nat (m - 1)) /\
   slot_attisnull td' slot' m = OK (slot', tts_isnull slot' !!! Z.to_nat (m - 1))).
Proof.
  intros Hget Hm.
  assert (natts td' = natts td /\
          (m <= tts_nvalid slot' \/
           (is_Some (tts_datarow slot') /\ tts_nvalid slot' = natts td'))) as [Hn Hcase].
  { revert Hget. unfold slot_getsomeattrs.
    destruct (Z.leb_spec attnum (tts_nvalid slot)).
    { intros [= <- <-]. split; [done|]. left. lia. }
    case_bool_decide as Hdr.
    - unfold slot_deform_datarow.
      destruct (Z.eqb_spec (tts_nvalid slot) (natts td)); cbn.
      + intros [= <- <-]. split; [done|]. by right.
      + destruct (DataRow_decode _ _); cbn; [|discriminate].
        intros [= <- <-]. split; [done|]. right. by cbn.
    - destruct (Z.leb_spec attnum 0); cbn [orb]; [discriminate|].
      destruct (Z.ltb_spec (natts td) attnum); [discriminate|].
      destruct (tts_tuple slot); [|discriminate].
      pose proof (slot_deform_tuple_inv_natts td slot
                    (Z.min (HeapTupleHeaderGetNatts (tup_of h)) attnum)) as Hnatts.
      destruct (slot_deform_tuple td slot _) as [td1 s1]. cbn [fst] in Hnatts.
      intros [= <- <-]. split; [done|]. left. cbn. lia. }
  split.
  - unfold slot_getsomeattrs.
    destruct (Z.leb_spec m (tts_nvalid slot')); [done|].
    destruct Hcase as [?|[Hdr Hnv]]; [lia|].
    rewrite bool_decide_eq_true_2 by done.
    unfold slot_deform_datarow. rewrite Hnv, Z.eqb_refl. done.
  - intros Hrange. unfold slot_getattr, slot_attisnull.
    destruct (Z.leb_spec m 0); [lia|].
    destruct Hcase as [Hv|[Hdr Hnv]].
    + destruct (Z.leb_spec m (tts_nvalid slot')); [done|lia].
    + destruct (Z.leb_spec m (tts_nvalid slot')); [done|lia].
Qed.

(** ** heap_modify_tuple *)

Lemma heap_modify_replace_loop_spec doReplace replValues replIsnull n :
  forall i values isnull,
  let r := heap_modify_replace_loop doReplace replValues replIsnull i n values isnull in
  length r.1 = length values /\ length r.2 = length isnull /\
  forall j,
    (~ (i <= j < i + n)%nat -> r.1 !!! j = values !!! j /\ r.2 !!! j = isnull !!! j) /\
    ((i <= j < i + n)%nat -> (j < length values)%nat -> (j < length isnull)%nat ->
     r.1 !!! j = (if (doReplace !!! j : bool) then replValues !!! j else values !!! j) /\
     r.2 !!! j = (if (doReplace !!! j : bool) then replIsnull !!! j else isnull !!! j)).
Proof.
  induction n as [|n IH]; intros i values isnull; cbv zeta.
  - cbn. split; [done|]. split; [done|]. intros j. split; [done|lia].
  - cbn [heap_modify_replace_loop].
    destruct (doReplace !!! i) eqn:Hrep.
    + specialize (IH (S i) (<[i := replValues !!! i]> values)
                    (<[i := replIsnull !!! i]> isnull)).
      cbv zeta in IH. destruct IH as (Hl1 & Hl2 & IH).
      rewrite length_insert in Hl1. rewrite length_insert in Hl2.
      split; [done|]. split; [done|].
      intros j. destruct (IH j) as [Hout Hin]. split.
      * intros Hj. destruct (Hout ltac:(lia)) as [-> ->].
        by rewrite !list_lookup_total_insert_ne by lia.
      * intros Hj Hv Hb. destruct (decide (j = i)) as [->|Hne].
        -- destruct (Hout ltac:(lia)) as [-> ->].
           rewrite !list_lookup_total_insert_eq by lia. by rewrite Hrep.
        -- destruct (Hin ltac:(lia)) as [-> ->]; rewrite ?length_insert; try lia.
           by rewrite !list_lookup_total_insert_ne by lia.
    + specialize (IH (S i) values isnull). cbv zeta in IH. destruct IH as (Hl1 & Hl2 & IH).
      split; [done|]. split; [done|].
      intros j. destruct (IH j) as [Hout Hin]. split.
      * intros Hj. apply Hout. lia.
      * intros Hj Hv Hb. destruct (decide (j = i)) as [->|Hne].
        -- destruct (Hout ltac:(lia)) as [-> ->]. by rewrite Hrep.
        -- apply Hin; lia.
Qed.

(** The identification heap_modify_tuple copies onto the new tuple. *)
Lemma copy_identification_spec td values isnull newTuple tuple copy_node_id :
  heap_form_tuple td values isnull = OK newTuple ->
  let r := copy_identification td tuple newTuple copy_node_id in
  t_self r = t_self tuple /\ t_tableOid r = t_tableOid tuple /\
  t_xc_node_id r = (if copy_node_id then t_xc_node_id tuple else t_xc_node_id newTuple) /\
  t_len r = t_len newTuple /\
  t_ctid (tup_of r) = t_ctid (tup_of tuple) /\
  (tdhasoid td = true -> desc_wellformed td -> arrays_wellformed td values isnull ->
   HeapTupleGetOid r = HeapTupleGetOid tuple mod 2 ^ 32).
Proof.
  intros Hform. cbv zeta.
  destruct (heap_form_tuple_shard_data _ _ _ _ _ _ _ _ _ Hform) as (hd & Hdata & _).
  unfold copy_identification. rewrite Hdata.
  destruct (tdhasoid td) eqn:Hoid;
    cbn [HeapTupleSetOid t_self t_tableOid t_xc_node_id t_len t_data tup_of fmap option_fmap
         option_map from_option];
    do 5 (split; [done|]); [|done].
  intros _ Hdesc Harr.
  destruct (heap_form_tuple_shard_inv _ _ _ _ _ _ _ _ _ Hdesc Harr Hform)
    as (hd' & st & Hdata' & Hhoff & _ & Him & Hbytes & _ & _ & _ & _ & Hinv).
  rewrite Hdata in Hdata'. injection Hdata' as <-.
  destruct Hinv as (_ & Hlen & _ & Hflags & _).
  pose proof (heap_compute_data_size_nonneg _ _ _ Hdesc Harr) as Hsize.
  destruct Hdesc as (Hnn & Hmax & _).
  destruct (formed_hoff_bounds td isnull ltac:(lia)) as (_ & _ & Hoidroom & _).
  rewrite Hoid in Hoidroom.
  unfold HeapTupleGetOid at 1. unfold tup_of at 1.
  cbn [t_data from_option]. unfold id.
  apply HeapTupleHeaderGetOid_SetOid.
  - cbn [set_t_ctid t_infomask]. rewrite Him, Hflags, formed_infomask0_eq, Hoid.
    rewrite Z.lor_spec. reflexivity.
  - cbn [set_t_ctid t_hoff t_bytes]. rewrite Hhoff, Hbytes.
    pose proof t_bits_off_nonneg. unfold sizeof_Oid in *. lia.
Qed.

(** X10: heap_modify_tuple, for a descriptor within the column limit,
    always succeeds and returns the tuple heap_form_tuple builds from the
    arrays in which every column whose doReplace flag is set carries the
    replacement value and null flag and every other column of the
    descriptor what heap_deform_tuple read from the old tuple, with t_self,
    t_tableOid, t_xc_node_id, t_ctid and, if the descriptor has one, the
    object id of the old tuple copied onto it. *)
Theorem heap_modify_tuple_spec (tuple : HeapTupleData) (tupleDesc : TupleDesc)
    (replValues : list Datum) (replIsnull : list bool) (doReplace : list bool) :
  natts tupleDesc <= MaxTupleAttributeNumber ->
  let n := natts tupleDesc in
  let old := heap_deform_tuple tuple tupleDesc (palloc_values n) (palloc_isnull n) in
  exists values isnull newTuple,
    heap_form_tuple old.1.1 values isnull = OK newTuple /\
    heap_modify_tuple tuple tupleDesc replValues replIsnull doReplace
    = OK (old.1.1, copy_identification old.1.1 tuple newTuple true) /\
    length values = Z.to_nat n /\ length isnull = Z.to_nat n /\
    (forall j, (j < Z.to_nat n)%nat ->
       values !!! j = (if (doReplace !!! j : bool) then replValues !!! j
                       else old.1.2 !!! j) /\
       isnull !!! j = (if (doReplace !!! j : bool) then replIsnull !!! j
                       else old.2 !!! j)) /\
    let r := copy_identification old.1.1 tuple newTuple true in
    t_self r = t_self tuple /\ t_tableOid r = t_tableOid tuple /\
    t_xc_node_id r = t_xc_node_id tuple /\
    t_ctid (tup_of r) = t_ctid (tup_of tuple) /\
    (tdhasoid tupleDesc = true -> desc_wellformed old.1.1 ->
     arrays_wellformed old.1.1 values isnull ->
     HeapTupleGetOid r = HeapTupleGetOid tuple mod 2 ^ 32).
Proof.
  intros Hmax. cbv zeta. unfold heap_modify_tuple.
  destruct (heap_deform_tuple_desc tuple tupleDesc (palloc_values (natts tupleDesc))
              (palloc_isnull (natts tupleDesc))) as [Hn Hoid].
  destruct (length_heap_deform_tuple tuple tupleDesc (palloc_values (natts tupleDesc))
              (palloc_isnull (natts tupleDesc))) as [Hl1 Hl2].
  destruct (heap_deform_tuple tuple tupleDesc (palloc_values (natts tupleDesc))
              (palloc_isnull (natts tupleDesc))) as [[td' vs] ns].
  cbn [fst snd] in *.
  unfold palloc_values, palloc_isnull in Hl1, Hl2.
  rewrite length_replicate in Hl1. rewrite length_replicate in Hl2.
  pose proof (heap_modify_replace_loop_spec doReplace replValues replIsnull
                (Z.to_nat (natts tupleDesc)) 0 vs ns) as Hloop.
  cbv zeta in Hloop.
  destruct (heap_modify_replace_loop _ _ _ _ _ _ _) as [values isnull].
  cbn [fst snd] in Hloop. destruct Hloop as (Hlv & Hlb & Hentries).
  destruct (heap_form_tuple_returns td' values isnull ltac:(lia)) as [newTuple Hform].
  exists values, isnull, newTuple. rewrite Hform. cbn [bind].
  split; [done|]. split; [done|]. split; [lia|]. split; [lia|].
  split; [intros j Hj; apply (Hentries j); lia|].
  destruct (copy_identification_spec td' values isnull newTuple tuple true Hform)
    as (H1 & H2 & H3 & _ & H5 & H6).
  rewrite Hoid in H6. done.
Qed.

(** ** The shard of a tuple *)

(** X11: heap_tuple_set_shardid after heap_form_tuple is
    heap_form_tuple_shard with SetFlag_PlainShard.  Forming a tuple from a
    slot's arrays and then setting its shard from the slot gives the result
    of forming it with the distribute keys, with the same error for a
    distribute key outside 1 .. natts or a second distribute key beyond
    natts; the toast variant stores the shard id it is given, and the shard
    is the only field the three variants differ in. *)
Theorem heap_tuple_set_shardid_after_form (td : TupleDesc) (slot : TupleTableSlot)
    (diskey secdiskey relid sid : Z) :
  heap_form_tuple_shard td (tts_values slot) (tts_isnull slot) SetFlag_PlainShard
    diskey secdiskey relid sid
  = (do t <- heap_form_tuple td (tts_values slot) (tts_isnull slot);
     heap_tuple_set_shardid t td slot diskey secdiskey relid) /\
  heap_form_tuple_shard td (tts_values slot) (tts_isnull slot) SetFlag_ToastShard
    diskey secdiskey relid sid
  = (do t <- heap_form_tuple td (tts_values slot) (tts_isnull slot);
     OK (mk_tuple (t_len t) (t_self t) (t_tableOid t) (t_xc_node_id t)
                  (HeapTupleHeaderSetShardId sid <$> t_data t))).
Proof.
  unfold heap_form_tuple, heap_form_tuple_shard, heap_tuple_set_shardid.
  destruct (MaxTupleAttributeNumber <? natts td); [done|]. cbv zeta.
  destruct (heap_fill_tuple _ _ _ _ _ _ _ _) as [[im block] cursor].
  cbn [bind t_len t_self t_tableOid t_xc_node_id t_data fmap option_fmap option_map].
  split; [|done].
  destruct ((diskey <? 1) || (natts td <? diskey)); [done|].
  destruct (natts td <? secdiskey); [done|].
  by destruct (negb (secdiskey =? InvalidAttrNumber)).
Qed.

(** ** Copies of a formed tuple *)

(** X12: a copy of a tuple heap_form_tuple built is the tuple itself: the
    t_len bytes heap_copytuple and heap_copytuple_with_tuple copy are the
    whole block, so both return a tuple equal to the original in every
    field, whatever the caller-supplied struct held. *)
Theorem heap_copytuple_of_formed_tuple (td : TupleDesc) (values : list Datum)
    (isnull : list bool) (sflag : SetShardFlag) (diskey secdiskey relid sid : Z)
    (tuple dest : HeapTupleData) :
  desc_wellformed td -> arrays_wellformed td values isnull ->
  heap_form_tuple_shard td values isnull sflag diskey secdiskey relid sid = OK tuple ->
  heap_copytuple (Some tuple) = Some tuple /\
  heap_copytuple_with_tuple (Some tuple) dest = tuple.
Proof.
  intros Hdesc Harr Hform.
  destruct (heap_form_tuple_shard_inv _ _ _ _ _ _ _ _ _ Hdesc Harr Hform)
    as (hd & st & Hdata & _ & _ & _ & Hbytes & Hlen & _ & _ & _ & Hinv).
  destruct Hinv as (_ & HL & _).
  unfold heap_copytuple, heap_copytuple_with_tuple. rewrite Hdata.
  assert (memcpy_block hd (t_len tuple) = hd) as ->.
  { unfold memcpy_block. rewrite take_ge by (rewrite Hbytes, Hlen; lia). by destruct hd. }
  rewrite <- Hdata. by destruct tuple.
Qed.

(** X13: slot_attisnull returns the null flag slot_getattr returns.  On a
    slot without valid entries that holds a physical tuple, for a column of
    the descriptor that is not dropped and a descriptor whose missing
    values are consistent with its columns, slot_attisnull succeeds, leaves
    the slot as it is, and returns the flag slot_getattr returns, whether
    the row physically has the column or not. *)
Theorem slot_attisnull_agrees_with_getattr (td : TupleDesc) (slot : TupleTableSlot)
    (tuple : HeapTupleData) (attnum : Z) :
  cache_ok (desc_att td) -> (Z.to_nat (natts td) <= length (desc_att td))%nat ->
  missing_consistent td = true ->
  tts_tuple slot = Some tuple -> tts_datarow slot = None -> tts_nvalid slot = 0 ->
  1 <= attnum <= natts td ->
  natts td <= Z.of_nat (length (tts_values slot)) ->
  natts td <= Z.of_nat (length (tts_isnull slot)) ->
  attisdropped (attrs td !!! Z.to_nat (attnum - 1)) = false ->
  exists td' slot' d b,
    slot_getattr td slot attnum = OK (td', slot', d, b) /\
    slot_attisnull td slot attnum = OK (slot, b).
Proof.
  intros Hok Hlen Hm Htuple Hdr Hnv Hattnum Hlv Hlb Hdrop.
  destruct (slot_getattr_deform td slot tuple attnum (tts_values slot) (tts_isnull slot)
              Hok Hlen Htuple Hdr Hnv Hattnum Hlv Hlb Hlv Hlb) as (td' & slot' & Hget & _).
  rewrite Hdrop in Hget. cbn [andb] in Hget.
  eexists _, _, _, _. split; [exact Hget|].
  unfold slot_attisnull. rewrite Hnv, Hdr, Htuple.
  destruct (Z.leb_spec attnum 0); [lia|].
  destruct (Z.ltb_spec (natts td) attnum); [lia|].
  rewrite bool_decide_eq_false_2 by (intros [? [=]]).
  by rewrite (heap_attisnull_deform tuple td attnum (tts_values slot) (tts_isnull slot)).
Qed.

(** ** The bytes between the bitmap and the data area *)

Section FillGap.

Variables (att : list FormData_pg_attribute) (values : list Datum) (isnull : list bool).
Variables (hasbit : bool) (b0 hoff L im0 : Z) (n_atts : nat).

Hypothesis att_wf : forall j, (j < n_atts)%nat -> att_wellformed (att !!! j) = true.
Hypothesis values_wf : forall j, (j < n_atts)%nat -> isnull !!! j = false ->
  datum_wellformed (att !!! j) (values !!! j) = true.
Hypothesis nulls_have_bitmap : hasbit = false ->
  forall j, (j < n_atts)%nat -> isnull !!! j = false.
Hypothesis hoff_nonneg : 0 <= hoff.
Hypothesis bitmap_before_data :
  hasbit = true -> 0 <= b0 /\ b0 + BITMAPLEN (Z.of_nat n_atts) <= hoff.
Hypothesis room : data_end att values isnull hoff n_atts <= L.

(** A byte behind the bitmap and before the data area. *)
Variable p : Z.
Hypothesis p_before_data : 0 <= p < hoff.
Hypothesis p_behind_bitmap : hasbit = true -> b0 + BITMAPLEN (Z.of_nat n_atts) <= p.

Lemma fill_val_gap (i : nat) (st : fill_state) :
  (i < n_atts)%nat ->
  fill_inv att values isnull hasbit b0 hoff L im0 i st ->
  peek (fs_mem (fill_val (att !!! i) (bool_decide (is_Some (fs_bit st))) st
                         (values !!! i) (isnull !!! i))) p
  = peek (fs_mem st) p.
Proof.
  intros Hi (Hdata & Hlen & Himg & Hflags & Hbits).
  pose proof (data_end_ge att values isnull hoff n_atts att_wf values_wf i ltac:(lia))
    as Hge.
  pose proof (data_end_mono att values isnull hoff n_atts att_wf values_wf (S i) n_atts
                ltac:(lia)) as Hmono.
  assert (bool_decide (is_Some (fs_bit st)) = hasbit) as Hgiven.
  { destruct hasbit.
    - destruct Hbits as (-> & _). apply bool_decide_eq_true. eauto.
    - rewrite Hbits. apply bool_decide_eq_false. intros [? [=]]. }
  rewrite Hgiven.
  assert (forall b, peek (fill_bit_step hasbit st b).2 p = peek (fs_mem st) p) as Hsame.
  { intros b. unfold fill_bit_step. destruct hasbit; [|reflexivity].
    destruct (bitmap_before_data eq_refl) as [Hb0 Hbefore].
    specialize (p_behind_bitmap eq_refl).
    destruct Hbits as (Hb & Hm & _). rewrite Hb.
    assert (0 <= Z.of_nat i / 8 < BITMAPLEN (Z.of_nat n_atts)) as Hbyte
      by (unfold BITMAPLEN; div_lia).
    destruct (negb (fs_bitmask st =? HIGHBIT)) eqn:Hhigh;
      destruct b; cbn [fst snd poke_bit fmap option_fmap option_map];
      rewrite ?peek_poke_ne; try reflexivity.
    all: rewrite Hm in Hhigh;
      destruct (pow2_lt8_cases ((Z.of_nat i + 7) mod 8) ltac:(div_lia)) as [Hh _];
      rewrite Hh in Hhigh;
      destruct (Z.eqb_spec ((Z.of_nat i + 7) mod 8) 7); try discriminate;
      unfold BITMAPLEN in *; div_lia. }
  destruct (isnull !!! i) eqn:Hnull.
  - assert (hasbit = true) as Hbit.
    { destruct hasbit; [reflexivity|]. rewrite nulls_have_bitmap in Hnull; congruence. }
    rewrite <- (Hsame true). rewrite Hbit. by rewrite fill_val_mem_null.
  - pose proof (att_wf i Hi) as Hatt. pose proof (values_wf i Hi Hnull) as Hval.
    destruct (length_stored _ _ Hatt Hval) as [Hslen Hpos].
    pose proof (stored_start_bounds (att !!! i) (values !!! i)
                  (data_end att values isnull hoff i)) as Hstart.
    cbn [data_end] in Hmono. rewrite Hnull in Hmono.
    rewrite fill_val_mem; rewrite ?Hdata, ?length_fill_bit_step; try assumption; try lia.
    rewrite peek_splice_lt by (rewrite ?length_fill_bit_step; lia).
    apply Hsame.
Qed.

Lemma heap_fill_tuple_loop_gap (n i : nat) (st : fill_state) :
  (i + n <= n_atts)%nat ->
  fill_inv att values isnull hasbit b0 hoff L im0 i st ->
  peek (fs_mem (heap_fill_tuple_loop att (Some values) (Some isnull) i n st)) p
  = peek (fs_mem st) p.
Proof.
  revert i st. induction n as [|n IH]; intros i st Hn Hinv; cbn [heap_fill_tuple_loop].
  - reflexivity.
  - rewrite IH; [by apply fill_val_gap; [lia|]|lia|].
    by apply (fill_val_inv att values isnull hasbit b0 hoff L im0 n_atts); [..|lia|].
Qed.

End FillGap.

Lemma peek_palloc0 n p : peek (palloc0 n) p = 0.
Proof.
  unfold peek, palloc0.
  destruct (replicate (Z.to_nat n) 0 !! Z.to_nat p) as [x|] eqn:E; [|reflexivity].
  apply lookup_replicate in E as [-> _]. reflexivity.
Qed.

Lemma take_mem_at_zero m q (n : nat) :
  0 <= q -> q + Z.of_nat n <= Z.of_nat (length m) ->
  (forall p, q <= p < q + Z.of_nat n -> peek m p = 0) ->
  take n (mem_at m q) = replicate n 0.
Proof.
  intros Hq Hlen Hzero. unfold mem_at.
  apply list_eq_same_length with n.
  - by rewrite length_replicate.
  - rewrite length_take, length_drop. lia.
  - intros i x y Hi Hx Hy. apply lookup_replicate in Hy as [-> _].
    rewrite lookup_take_lt, lookup_drop in Hx by lia.
    specialize (Hzero (q + Z.of_nat i) ltac:(lia)). unfold peek in Hzero.
    replace (Z.to_nat (q + Z.of_nat i)) with (Z.to_nat q + i)%nat in Hzero by lia.
    by rewrite Hx in Hzero.
Qed.

(** The bytes of a formed tuple between the bitmap (or the fixed header)
    and the data area are those palloc0 left. *)
Lemma heap_form_tuple_shard_gap td values isnull sflag diskey secdiskey relid sid tuple p :
  desc_wellformed td -> arrays_wellformed td values isnull ->
  heap_form_tuple_shard td values isnull sflag diskey secdiskey relid sid = OK tuple ->
  t_bits_off + (if check_for_nulls isnull 0 (Z.to_nat (natts td))
                then BITMAPLEN (natts td) else 0) <= p < formed_hoff td isnull ->
  peek (t_bytes (tup_of tuple)) p = 0.
Proof.
  intros (Hnatts & Hmax & Hatt) (Hlv & Hln & Hval) Hform Hp.
  assert (0 <= natts td <= MaxTupleAttributeNumber) as Hrange by lia.
  destruct (formed_hoff_bounds td isnull Hrange) as (Hhoff & Hmod & Hoid & Hbitmap).
  pose proof t_bits_off_nonneg as Hb0.
  set (n := Z.to_nat (natts td)) in *.
  assert (forall j, (j < n)%nat -> att_wellformed (desc_att td !!! j) = true) as Hatt'.
  { intros j Hj. destruct (lookup_lt_is_Some_2 (desc_att td) j ltac:(lia)) as [a Ha].
    rewrite (list_lookup_total_correct _ _ _ Ha). eauto. }
  assert (forall j, (j < n)%nat -> isnull !!! j = false ->
            datum_wellformed (desc_att td !!! j) (values !!! j) = true) as Hval'.
  { intros j Hj Hnull.
    destruct (lookup_lt_is_Some_2 (desc_att td) j ltac:(lia)) as [a Ha].
    destruct (lookup_lt_is_Some_2 values j ltac:(lia)) as [d Hd].
    destruct (lookup_lt_is_Some_2 isnull j ltac:(lia)) as [b Hb].
    rewrite (list_lookup_total_correct _ _ _ Ha), (list_lookup_total_correct _ _ _ Hd).
    rewrite (list_lookup_total_correct _ _ _ Hb) in Hnull. subst b. eauto. }
  assert (heap_compute_data_size td values isnull
          = data_end (desc_att td) values isnull 0 n) as Hsize.
  { unfold heap_compute_data_size. fold n.
    rewrite (heap_compute_data_size_loop_end _ _ _ 0 n 0); [reflexivity|..].
    - intros j Hj. apply Hatt'. lia.
    - reflexivity. }
  set (st0 := mk_fill (if check_for_nulls isnull 0 n then Some (t_bits_off - 1) else None)
                      (if check_for_nulls isnull 0 n then HIGHBIT else 0)
                      (formed_hoff td isnull) (formed_infomask0 td)
                      (palloc0 (formed_hoff td isnull
                                + heap_compute_data_size td values isnull))).
  set (st := heap_fill_tuple_loop (desc_att td) (Some values) (Some isnull) 0 n st0).
  assert (t_bytes (tup_of tuple) = fs_mem st) as ->.
  { revert Hform. unfold heap_form_tuple_shard, heap_fill_tuple.
    destruct (Z.ltb_spec MaxTupleAttributeNumber (natts td)); [lia|].
    fold n. change (formed_hoff td isnull) with
      (MAXALIGN (if tdhasoid td
                 then (if check_for_nulls isnull 0 n
                       then t_bits_off + BITMAPLEN (natts td) else t_bits_off) + sizeof_Oid
                 else (if check_for_nulls isnull 0 n
                       then t_bits_off + BITMAPLEN (natts td) else t_bits_off))) in *.
    subst st st0. unfold formed_infomask0.
    destruct (check_for_nulls isnull 0 n); cbv beta iota zeta;
      destruct sflag;
      repeat match goal with
             | |- context [if ?b then Err _ else _] => destruct b
             | |- context [if ?b then (_, _, _) else _] => destruct b
             end;
      try discriminate; intros [= <-]; reflexivity. }
  pose proof (data_end_ge (desc_att td) values isnull (formed_hoff td isnull) n
                Hatt' Hval' n ltac:(lia)) as Hge.
  rewrite data_end_shift in Hge by exact Hmod.
  subst st.
  rewrite (heap_fill_tuple_loop_gap (desc_att td) values isnull
             (check_for_nulls isnull 0 n) t_bits_off (formed_hoff td isnull)
             (formed_hoff td isnull + heap_compute_data_size td values isnull)
             (formed_infomask0 td) n Hatt' Hval').
  - apply peek_palloc0.
  - intros Hc j Hj. apply (check_for_nulls_false _ _ Hc). exact Hj.
  - lia.
  - intros Hc. split; [exact Hb0|]. subst n. rewrite Z2Nat.id by lia.
    apply Hbitmap. exact Hc.
  - rewrite data_end_shift by exact Hmod. lia.
  - assert (0 <= BITMAPLEN (natts td)) by (unfold BITMAPLEN; div_lia).
    destruct (check_for_nulls isnull 0 n); lia.
  - intros Hc. rewrite Hc in Hp. subst n. rewrite Z2Nat.id by lia. lia.
  - lia.
  - unfold fill_inv. subst st0.
    cbn [fs_data fs_mem fs_infomask fs_bit fs_bitmask data_end data_image row_flags].
    unfold palloc0, mem_at. rewrite length_replicate, drop_replicate, Z.lor_0_r.
    split; [reflexivity|]. split; [lia|].
    split; [cbn [app]; f_equal; lia|]. split; [reflexivity|].
    destruct (check_for_nulls isnull 0 n); [|reflexivity].
    unfold bits_inv. change ((Z.of_nat 0 + 7) / 8) with 0.
    split; [f_equal; lia|]. split; [reflexivity|]. intros j Hj. lia.
Qed.

(** X14: heap_form_tuple leaves the object id unset.  In a tuple
    heap_form_tuple_shard builds, every byte between the null bitmap (or
    the fixed header, when no column is null) and the data area is zero;
    so a tuple built for a descriptor with object ids carries HEAP_HASOID
    and reads InvalidOid until the caller sets the object id. *)
Theorem heap_form_tuple_leaves_oid_invalid (td : TupleDesc) (values : list Datum)
    (isnull : list bool) (sflag : SetShardFlag) (diskey secdiskey relid sid : Z)
    (tuple : HeapTupleData) :
  desc_wellformed td -> arrays_wellformed td values isnull ->
  heap_form_tuple_shard td values isnull sflag diskey secdiskey relid sid = OK tuple ->
  (forall p,
     t_bits_off + (if HeapTupleHasNulls tuple then BITMAPLEN (natts td) else 0) <= p
       < t_hoff (tup_of tuple) ->
     peek (t_bytes (tup_of tuple)) p = 0) /\
  HeapTupleGetOid tuple = InvalidOid.
Proof.
  intros Hdesc Harr Hform.
  destruct (formed_tuple_infomask _ _ _ _ _ _ _ _ _ Hdesc Harr Hform) as [Him _].
  destruct (heap_form_tuple_shard_inv _ _ _ _ _ _ _ _ _ Hdesc Harr Hform)
    as (hd & st & Hdata & Hhoff & _ & _ & Hbytes & _ & _ & _ & _ & Hinv).
  destruct Hinv as (_ & HL & _).
  assert (tup_of tuple = hd) as Htup by (unfold tup_of; by rewrite Hdata).
  pose proof (heap_compute_data_size_nonneg _ _ _ Hdesc Harr) as Hsize.
  assert (HeapTupleHasNulls tuple = check_for_nulls isnull 0 (Z.to_nat (natts td))) as Hnulls.
  { unfold HeapTupleHasNulls. rewrite Him.
    change HEAP_HASNULL with (2 ^ 0). rewrite land_pow2_eq0 by lia.
    rewrite negb_involutive, Z.lor_spec, row_flags_bit0.
    by destruct (tdhasoid td). }
  split.
  - intros p Hp. rewrite Hnulls, Htup, Hhoff in Hp.
    by apply (heap_form_tuple_shard_gap td values isnull sflag diskey secdiskey relid sid).
  - unfold HeapTupleGetOid, HeapTupleHeaderGetOid. rewrite Him.
    change HEAP_HASOID with (2 ^ 3). rewrite land_pow2_eq0 by lia.
    rewrite negb_involutive, Z.lor_spec, row_flags_bit3.
    destruct (tdhasoid td) eqn:Hoid; [|done]. cbn [orb Z.testbit].
    change (Z.testbit (2 ^ 3) 3) with true. cbv iota.
    destruct Hdesc as (Hnn & Hmax & Hwf).
    destruct (formed_hoff_bounds td isnull ltac:(lia)) as (_ & _ & Hoidroom & Hbitmap).
    rewrite Hoid in Hoidroom. unfold sizeof_Oid in *.
    rewrite (take_mem_at_zero _ _ 4); [done|..].
    + pose proof t_bits_off_nonneg. rewrite Htup, Hhoff. lia.
    + rewrite Htup, Hhoff, Hbytes. lia.
    + intros p Hp. rewrite Htup, Hhoff in Hp.
      apply (heap_form_tuple_shard_gap td values isnull sflag diskey secdiskey relid sid);
        try done.
      unfold formed_hoff in *. rewrite Hoid in *. unfold sizeof_Oid in *.
      destruct (check_for_nulls isnull 0 (Z.to_nat (natts td))); [|lia].
      assert (0 <= BITMAPLEN (natts td)) by (unfold BITMAPLEN; div_lia).
      pose proof (MAXALIGN_bounds (t_bits_off + BITMAPLEN (natts td) + 4)). lia.
Qed.

End HeapTuple.

(** * The properties at example rows *)

Tactic Notation "example_desc_wellformed" integer(n) :=
  split; [reflexivity|split; [vm_compute; discriminate|]];
  let i := fresh "i" in let a := fresh "a" in let H := fresh "H" in
  intros i a H;
  do n (destruct i as [|i]; [vm_compute in H; injection H as <-; reflexivity|]);
  vm_compute in H; discriminate.

Tactic Notation "example_arrays_wellformed" integer(n) :=
  split; [reflexivity|split; [reflexivity|]];
  let i := fresh "i" in let a := fresh "a" in let d := fresh "d" in
  let Ha := fresh "Ha" in let Hd := fresh "Hd" in let Hn := fresh "Hn" in
  intros i a d Ha Hd Hn;
  do n (destruct i as [|i];
        [vm_compute in Ha, Hd, Hn;
         first [discriminate Hn
               | injection Ha as <-; injection Hd as <-; reflexivity]|]);
  vm_compute in Ha; discriminate.

Tactic Notation "example_cache_fresh" integer(n) :=
  apply cache_ok_fresh;
  let i := fresh "i" in
  intros i; do n (destruct i as [|i]; [vm_compute; reflexivity|]); vm_compute; reflexivity.

(** C1, counterexample: the row (7, 'ab', 99), whose text has a 4-byte
    header, on the descriptor (int4, text, int4) with a packable text
    column.  The value is well-formed and the null flags are read back, but
    the decoded text is not byte-equal to the 6 bytes given: it is the
    3-byte short form. *)
Lemma round_trip_not_byte_equal :
  exists tuple,
    heap_form_tuple example_t_bits_off example_EOH_flat example_EvaluateShardId (-1)
      example_desc example_values example_no_null = OK tuple /\
    datum_wellformed example_EOH_flat example_text (DatumPtr example_ab) = true /\
    (heap_deform_tuple example_t_bits_off tuple example_desc (palloc_values 3) (palloc_isnull 3)).2
    = example_no_null /\
    ~ byte_equal (VARSIZE_ANY example_ab) (example_values !!! 1%nat)
        ((heap_deform_tuple example_t_bits_off tuple example_desc
            (palloc_values 3) (palloc_isnull 3)).1.2 !!! 1%nat).
Proof.
  eexists. split; [vm_compute; reflexivity|]. split; [reflexivity|].
  split; [vm_compute; reflexivity|].
  vm_compute. discriminate.
Qed.

(** C1, instance of the amended theorem: the row (7, NULL, 99). *)
Lemma heap_form_deform_round_trip_witness :
  exists tuple,
    heap_form_tuple_shard example_t_bits_off example_EOH_flat example_EvaluateShardId (-1)
      example_desc example_values example_one_null SetFlag_NoShard 0 0 0 (-1) = OK tuple /\
    (heap_deform_tuple example_t_bits_off tuple example_desc (palloc_values 3) (palloc_isnull 3)).2
    = example_one_null.
Proof.
  eexists. split; [vm_compute; reflexivity|].
  refine (proj1 (heap_form_deform_round_trip example_t_bits_off _ _ example_EOH_flat
                   example_EvaluateShardId (-1) example_DataRow_decode example_desc
                   example_values example_one_null SetFlag_NoShard 0 0 0 (-1) _
                   (palloc_values 3) (palloc_isnull 3) _ _ _ _ _ _)).
  - vm_compute. discriminate.
  - vm_compute. discriminate.
  - example_desc_wellformed 3.
  - example_arrays_wellformed 3.
  - example_cache_fresh 3.
  - reflexivity.
  - reflexivity.
  - vm_compute. reflexivity.
Defined.

(** C2, instance: the row (7, NULL, 99) written at offset 24 of a block
    whose bitmap is at the example offset. *)
Lemma heap_fill_tuple_size_agreement_witness :
  (heap_fill_tuple example_EOH_flat example_desc (Some example_values) (Some example_one_null)
     24 8 0 (Some example_t_bits_off) (palloc0 32)).2 - 24
  = heap_compute_data_size example_EOH_flat example_desc example_values example_one_null.
Proof.
  refine (heap_fill_tuple_size_agreement example_EOH_flat example_EvaluateShardId example_desc
            example_values example_one_null 24 8 0 (Some example_t_bits_off) (palloc0 32)
            _ _ _).
  - intros i Hi. do 3 (destruct i as [|i]; [reflexivity|]). vm_compute in Hi. lia.
  - reflexivity.
  - discriminate.
Defined.

(** C3, instance: a full decoding of one row, a partial decoding of
    another row in a slot, a direct fetch of its third column, and then
    the rest of the slot. *)
Lemma offset_cache_sound_witness :
  exists tuple tuple',
    heap_form_tuple example_t_bits_off example_EOH_flat example_EvaluateShardId (-1)
      example_desc example_values example_no_null = OK tuple /\
    heap_form_tuple example_t_bits_off example_EOH_flat example_EvaluateShardId (-1)
      example_desc example_values example_one_null = OK tuple' /\
    (run_op example_t_bits_off
       (run_ops example_t_bits_off
          [op_heap_deform_tuple tuple (palloc_values 3) (palloc_isnull 3);
           op_slot_deform_tuple 0 2;
           op_nocachegetattr tuple' 3]
          (example_desc, [example_slot tuple' 3]))
       (op_slot_deform_tuple 0 3)).2
    = bytewalk_op example_t_bits_off example_desc [example_slot tuple' 3]
        (op_slot_deform_tuple 0 3).
Proof.
  eexists _, _. split; [vm_compute; reflexivity|]. split; [vm_compute; reflexivity|].
  refine (proj1 (offset_cache_sound example_t_bits_off example_EOH_flat example_EvaluateShardId
                   example_DataRow_decode example_desc _ _ _ _ _ _ _)).
  - vm_compute. reflexivity.
  - vm_compute. reflexivity.
  - vm_compute. reflexivity.
  - vm_compute. reflexivity.
Defined.

(** C4, the code at the failing input: a row written with one column,
    read through the descriptor whose second column has been dropped but
    still carries its missing value.  slot_getsomeattrs fills the entry
    from constr->missing without looking at the column (42, not null);
    heap_deform_tuple goes through getmissingattr, which refuses a dropped
    column (null). *)
Theorem slot_getsomeattrs_reads_dropped_default :
  exists tuple,
    heap_form_tuple example_t_bits_off example_EOH_flat example_EvaluateShardId (-1)
      example_desc_1 [DatumVal 7] [false] = OK tuple /\
    HeapTupleHeaderGetNatts (tup_of tuple) = 1 /\
    (exists td' slot',
       slot_getsomeattrs example_t_bits_off example_DataRow_decode example_desc_dropped
         (example_slot tuple 2) 2 = OK (td', slot') /\
       tts_nvalid slot' = 2 /\
       tts_values slot' = [DatumVal 7; DatumVal 42] /\ tts_isnull slot' = [false; false]) /\
    (heap_deform_tuple example_t_bits_off tuple example_desc_dropped
       (palloc_values 2) (palloc_isnull 2)).1.2 = [DatumVal 7; DatumVal 0] /\
    (heap_deform_tuple example_t_bits_off tuple example_desc_dropped
       (palloc_values 2) (palloc_isnull 2)).2 = [false; true].
Proof.
  eexists. split; [vm_compute; reflexivity|]. split; [vm_compute; reflexivity|].
  split; [eexists _, _; split; [vm_compute; reflexivity|]; vm_compute; auto|].
  split; vm_compute; reflexivity.
Qed.

(** C5, counterexample: a text already in the 1-byte-header form, on a
    column that is not packable, is written in the 1-byte-header form and
    without alignment. *)
Lemma short_value_on_plain_column :
  VARLENA_ATT_IS_PACKABLE example_text_plain = false /\
  datum_wellformed example_EOH_flat example_text_plain (DatumPtr example_ab_short) = true /\
  VARATT_IS_1B
    (mem_at (fs_mem (fill_val example_EOH_flat example_text_plain false
                       (mk_fill None 0 25 0 (palloc0 40)) (DatumPtr example_ab_short) false))
            25) = true /\
  fs_data (fill_val example_EOH_flat example_text_plain false
             (mk_fill None 0 25 0 (palloc0 40)) (DatumPtr example_ab_short) false) = 25 + 3.
Proof. vm_compute. auto. Qed.

(** C5, instance of the amended theorem: the text 'ab' with a 4-byte
    header on a packable column, at the unaligned offset 25. *)
Lemma fill_val_varlena_form_witness :
  VARATT_IS_1B
    (mem_at (fs_mem (fill_val example_EOH_flat example_text false
                       (mk_fill None 0 25 0 (palloc0 40)) (DatumPtr example_ab) false))
            25) = true.
Proof.
  refine (proj1 (fill_val_varlena_form example_EOH_flat example_EvaluateShardId example_text false
                   (mk_fill None 0 25 0 (palloc0 40)) example_ab _ _ _ _ _)).
  - reflexivity.
  - reflexivity.
  - vm_compute. reflexivity.
  - vm_compute. discriminate.
  - vm_compute. discriminate.
Defined.

(** C6, counterexample: for the row (7, NULL, 99) the bitmap byte is
    0b101: bit 1 is clear although isnull[1] is true. *)
Lemma null_bitmap_bit_is_not_isnull :
  exists tuple,
    heap_form_tuple example_t_bits_off example_EOH_flat example_EvaluateShardId (-1)
      example_desc example_values example_one_null = OK tuple /\
    peek (t_bytes (tup_of tuple)) example_t_bits_off = 5 /\
    Z.testbit (peek (t_bytes (tup_of tuple)) example_t_bits_off) 1 = false /\
    example_one_null !!! 1%nat = true.
Proof.
  eexists. split; [vm_compute; reflexivity|]. vm_compute. auto.
Qed.

(** C6, instance of the amended theorem: the row (7, NULL, 99). *)
Lemma heap_form_tuple_null_bitmap_witness :
  exists tuple,
    heap_form_tuple_shard example_t_bits_off example_EOH_flat example_EvaluateShardId (-1)
      example_desc example_values example_one_null SetFlag_NoShard 0 0 0 (-1) = OK tuple /\
    HeapTupleHasNulls tuple = check_for_nulls example_one_null 0 (Z.to_nat (natts example_desc)).
Proof.
  eexists. split; [vm_compute; reflexivity|].
  refine (proj1 (heap_form_tuple_null_bitmap example_t_bits_off _ _ example_EOH_flat
                   example_EvaluateShardId (-1) example_DataRow_decode example_desc
                   example_values example_one_null SetFlag_NoShard 0 0 0 (-1) _ _ _ _)).
  - vm_compute. discriminate.
  - vm_compute. discriminate.
  - example_desc_wellformed 3.
  - example_arrays_wellformed 3.
  - vm_compute. reflexivity.
Defined.

(** C7, the code at the failing input: a row (7) written with one
    column, expanded to the descriptor whose second column was added
    without a default and whose third column was added with the default 42.
    The loop that looks for the first missing value with a default does not
    record that the columns it skips are null: the new tuple gets
    HEAP_HASNULL (set by fill_val) but no room for a bitmap, and decoding
    it reads every column as null instead of (7, NULL, 42). *)
Theorem heap_expand_tuple_leading_null :
  exists src,
    heap_form_tuple example_t_bits_off example_EOH_flat example_EvaluateShardId (-1)
      example_desc_1 [DatumVal 7] [false] = OK src /\
    getmissingattr example_desc_added 2 = (DatumVal 0, true) /\
    getmissingattr example_desc_added 3 = (DatumVal 42, false) /\
    HeapTupleHeaderGetNatts
      (tup_of (heap_expand_tuple example_t_bits_off example_EOH_flat src example_desc_added)) = 3 /\
    HeapTupleHasNulls
      (heap_expand_tuple example_t_bits_off example_EOH_flat src example_desc_added) = true /\
    t_hoff (tup_of (heap_expand_tuple example_t_bits_off example_EOH_flat src example_desc_added))
    = MAXALIGN example_t_bits_off /\
    (heap_deform_tuple example_t_bits_off
       (heap_expand_tuple example_t_bits_off example_EOH_flat src example_desc_added)
       example_desc_added (palloc_values 3) (palloc_isnull 3)).1.2
    = [DatumVal 0; DatumVal 0; DatumVal 0] /\
    (heap_deform_tuple example_t_bits_off
       (heap_expand_tuple example_t_bits_off example_EOH_flat src example_desc_added)
       example_desc_added (palloc_values 3) (palloc_isnull 3)).2
    = [true; true; true].
Proof.
  eexists. split; [vm_compute; reflexivity|]. vm_compute. auto 10.
Qed.

(** C8, instance: replacing column 3 of the row (7, 'ab', 99). *)
Lemma heap_modify_tuple_by_cols_spec_witness :
  exists tuple,
    heap_form_tuple example_t_bits_off example_EOH_flat example_EvaluateShardId (-1)
      example_desc example_values example_no_null = OK tuple /\
    match heap_modify_tuple_by_cols example_t_bits_off example_EOH_flat example_EvaluateShardId
            (-1) tuple example_desc 1 [3] [DatumVal 5] [false] with
    | OK r => t_self r.2 = t_self tuple
    | Err _ => False
    end.
Proof.
  eexists. split; [vm_compute; reflexivity|].
  match goal with
  | |- match heap_modify_tuple_by_cols _ _ _ _ ?t _ _ _ _ _ with _ => _ end =>
    pose proof (heap_modify_tuple_by_cols_spec example_t_bits_off ltac:(vm_compute; discriminate)
                  ltac:(vm_compute; discriminate) example_EOH_flat example_EvaluateShardId (-1)
                  example_DataRow_decode t example_desc 1 [3] [DatumVal 5] [false]
                  ltac:(vm_compute; discriminate)) as H
  end.
  cbv zeta in H.
  destruct (heap_modify_tuple_by_cols _ _ _ _ _ _ _ _ _ _) as [r|e].
  - destruct H as (_ & _ & vs & ns & nt & _ & _ & _ & _ & Hself & _). exact Hself.
  - destruct H as (i & Hi & Hbad & _).
    assert (i = 0%nat) as -> by (vm_compute in Hi; lia).
    vm_compute in Hbad. destruct Hbad as [Hbad|Hbad]; [apply Hbad; reflexivity|discriminate Hbad].
Defined.

(** C9, instance: attribute 4 of a slot over a 3-column descriptor. *)
Lemma slot_getattr_beyond_natts_witness :
  slot_getattr example_t_bits_off example_DataRow_decode example_desc
    (mk_slot None false (palloc_values 3) (palloc_isnull 3) 0 0 false None) 4
  = OK (example_desc, mk_slot None false (palloc_values 3) (palloc_isnull 3) 0 0 false None,
        DatumVal 0, true) /\
  slot_attisnull example_t_bits_off example_DataRow_decode example_desc
    (mk_slot None false (palloc_values 3) (palloc_isnull 3) 0 0 false None) 4
  = OK (mk_slot None false (palloc_values 3) (palloc_isnull 3) 0 0 false None, true).
Proof.
  refine (slot_getattr_beyond_natts example_t_bits_off example_DataRow_decode example_desc
            (mk_slot None false (palloc_values 3) (palloc_isnull 3) 0 0 false None) 4 _ _ _).
  - reflexivity.
  - reflexivity.
  - vm_compute. discriminate.
Defined.
